(** * neko: peer-connection manager, signaling manager and system handler

    A shallow embedding of

      - [internal/webrtc/manager.go]            (module [webrtc]),
      - [server/internal/websocket/manager.go]  (module [websocket]),
      - [internal/websocket/handler/system.go]  (module [handler]),

    together with the properties of these programs that the specification
    states.  Go code that mutates the manager, calls into collaborators
    (session registry, capture pipeline, desktop, pion) and logs is written
    in a small state-and-failure monad over a record holding the mutable
    state; the calls into collaborators are recorded, in order, in a trace
    of events. *)

From stdpp Require Import base option list gmap strings.
From Stdlib Require Import ZArith.

Local Open Scope string_scope.
Local Open Scope list_scope.
Local Open Scope Z_scope.

(** ** A state monad with failure

    [M S A] is a Go routine running on a state [S] and returning an [A].
    [None] is a run-time panic (nil dereference, close of a closed channel)
    or a [select] branch that is not ready. *)

Definition M (S A : Type) : Type := S → option (A * S).

#[global] Instance M_ret {S} : MRet (M S) := λ A a s, Some (a, s).
#[global] Instance M_bind {S} : MBind (M S) := λ A B f m s,
  match m s with
  | Some (a, s') => f a s'
  | None => None
  end.

Definition get {S} : M S S := λ s, Some (s, s).
Definition gets {S A} (f : S → A) : M S A := λ s, Some (f s, s).
Definition modify {S} (f : S → S) : M S unit := λ s, Some (tt, f s).
Definition panic {S A} : M S A := λ _, None.

(** [when b m] is Go's [if b { m }]. *)
Definition when {S} (b : bool) (m : M S unit) : M S unit :=
  if b then m else mret tt.

(** zerolog levels. *)
Inductive Level := Debug | Info | Warn | Error.

#[global] Instance Level_eq_dec : EqDecision Level.
Proof. solve_decision. Defined.

(** Go's [error] values as [connect] inspects them: a
    [*websocket.CloseError] with its code and text, or any other error
    (the code unwraps those only to log them). *)
Inductive GoError :=
| CloseError (Code : Z) (Text : string)
| OtherError (msg : string).

(** The event names of [types/event] that the three files use.  The
    package only declares string constants; the code passes them on
    unchanged, so they are kept symbolic. *)
Module event.
Inductive t :=
| SYSTEM_INIT
| SYSTEM_SETTINGS
| SESSION_CURSORS
| SIGNAL_OFFER
| SIGNAL_CANDIDATE.

#[global] Instance eq_dec : EqDecision t.
Proof. solve_decision. Defined.
End event.

(** * [internal/websocket/handler/system.go] *)
Module handler.

(** [types.Session] as this handler reads it (ID, Name, Admin). *)
Record Session := {
  ID : string;
  Name : string;
  Admin : bool;
}.

(** [types.ScreenSize]; [Rate] is an [int16] in the source, converted
    with [int(size.Rate)], which keeps its value. *)
Record ScreenSize := {
  Width : Z;
  Height : Z;
  Rate : Z;
}.

Module message.
Record ControlHost := {
  HasHost : bool;
  HostID : string;
}.

Record MemberData := {
  MemberID : string;
  MemberName : string;
  IsAdmin : bool;
}.

Record SystemInit := {
  Event : event.t;
  Control : ControlHost;
  Members : list MemberData;
  Screen : ScreenSize;
}.
End message.

Inductive Effect :=
| Log (lvl : Level) (msg : string)
| Send (to : string) (payload : message.SystemInit).

(** What [MessageHandlerCtx] reaches: the session registry
    ([GetHost], [Members]), the desktop ([GetScreenSize], a nil pointer
    when the size is unknown) and the effects performed so far. *)
Record MessageHandlerCtx := {
  host : option Session;
  members : list Session;
  screen_size : option ScreenSize;
  effects : list Effect;
}.

Definition emit (e : Effect) : M MessageHandlerCtx unit :=
  modify (λ h, {| host := host h; members := members h;
                  screen_size := screen_size h;
                  effects := effects h ++ [e] |}).

(** [session.Send(v)]: the payload goes to that session; the error the
    transport returns is [send_err]. *)
Definition session_Send (session : Session) (send_err : option string)
    (v : message.SystemInit) : M MessageHandlerCtx (option string) :=
  emit (Send (ID session) v);; mret send_err.

Definition systemInit (session : Session) (send_err : option string)
    : M MessageHandlerCtx (option string) :=
  host ← gets host;
  let HasHost := bool_decide (is_Some host) in
  let controlHost :=
    {| message.HasHost := HasHost;
       message.HostID := match host with
                         | Some h => ID h
                         | None => ""
                         end |} in
  size ← gets screen_size;
  match size with
  | None =>
      emit (Log Debug "could not get screen size");;
      mret None
  | Some size =>
      sessions ← gets members;
      let members :=
        (λ s, {| message.MemberID := ID s;
                 message.MemberName := Name s;
                 message.IsAdmin := Admin s |}) <$> sessions in
      session_Send session send_err
        {| message.Event := event.SYSTEM_INIT;
           message.Control := controlHost;
           message.Members := members;
           message.Screen := {| Width := Width size;
                                Height := Height size;
                                Rate := Rate size |} |}
  end.

End handler.

(** * [server/internal/websocket/manager.go] *)
Module websocket.

(** gorilla/websocket close codes (RFC 6455, section 11.7). *)
Definition CloseNormalClosure : Z := 1000.
Definition CloseGoingAway : Z := 1001.

(** [types.Settings], the two fields this file reads. *)
Record Settings := {
  InactiveCursors : bool;
  MercifulReconnect : bool;
}.

(** [types.Cursor]. *)
Record Cursor := {
  X : Z;
  Y : Z;
}.

(** [message.SessionCursors]. *)
Record SessionCursors := {
  ID : string;
  Cursors : list Cursor;
}.

(** A session as [connect] reads it: [ID()], [Profile().CanConnect],
    [State().IsConnected]. *)
Record Session := {
  SessionID : string;
  CanConnect : bool;
  IsConnected : bool;
}.

(** Calls into the session registry, the websocket peer and the logger,
    in the order the code makes them. *)
Inductive Effect :=
| Log (lvl : Level) (msg : string)
| Broadcast_SystemSettingsUpdate (ev : event.t) (id : string) (new : Settings)
| InactiveCursorsBroadcast (ev : event.t) (payload : list SessionCursors)
| PeerDestroy (reason : string)
| ConnectWebSocketPeer (sid : string)
| DisconnectWebSocketPeer (sid : string) (delayed : bool).

(** [WebSocketManagerCtx] and what it reaches.

    - [shutdownInactiveCursors] is the field of that name: nil or a
      channel, channels being addresses into [chans], where [true] means
      closed;
    - [loops] are the running aggregation goroutines started by
      [startInactiveCursors], each with its local [lastEmpty];
    - [wg] is the wait group's counter;
    - [cursors] are the session registry's per-session buffers, keyed by
      session id;
    - [settings] is [sessions.Settings()]. *)
Record WebSocketManagerCtx := {
  shutdownInactiveCursors : option nat;
  chans : gmap nat bool;
  loops : gmap nat bool;
  wg : nat;
  next : nat;
  cursors : gmap string (list Cursor);
  settings : Settings;
  trace : list Effect;
}.

Definition init (s : Settings) : WebSocketManagerCtx :=
  {| shutdownInactiveCursors := None; chans := ∅; loops := ∅; wg := 0%nat;
     next := 0%nat; cursors := ∅; settings := s; trace := [] |}.

Definition set_shutdownInactiveCursors (c : option nat) (m : WebSocketManagerCtx) :=
  {| shutdownInactiveCursors := c; chans := chans m; loops := loops m;
     wg := wg m; next := next m; cursors := cursors m;
     settings := settings m; trace := trace m |}.
Definition set_chans (f : gmap nat bool → gmap nat bool) (m : WebSocketManagerCtx) :=
  {| shutdownInactiveCursors := shutdownInactiveCursors m; chans := f (chans m);
     loops := loops m; wg := wg m; next := next m; cursors := cursors m;
     settings := settings m; trace := trace m |}.
Definition set_loops (f : gmap nat bool → gmap nat bool) (m : WebSocketManagerCtx) :=
  {| shutdownInactiveCursors := shutdownInactiveCursors m; chans := chans m;
     loops := f (loops m); wg := wg m; next := next m; cursors := cursors m;
     settings := settings m; trace := trace m |}.
Definition set_wg (f : nat → nat) (m : WebSocketManagerCtx) :=
  {| shutdownInactiveCursors := shutdownInactiveCursors m; chans := chans m;
     loops := loops m; wg := f (wg m); next := next m; cursors := cursors m;
     settings := settings m; trace := trace m |}.
Definition set_next (n : nat) (m : WebSocketManagerCtx) :=
  {| shutdownInactiveCursors := shutdownInactiveCursors m; chans := chans m;
     loops := loops m; wg := wg m; next := n; cursors := cursors m;
     settings := settings m; trace := trace m |}.
Definition set_cursors (c : gmap string (list Cursor)) (m : WebSocketManagerCtx) :=
  {| shutdownInactiveCursors := shutdownInactiveCursors m; chans := chans m;
     loops := loops m; wg := wg m; next := next m; cursors := c;
     settings := settings m; trace := trace m |}.
Definition set_settings (s : Settings) (m : WebSocketManagerCtx) :=
  {| shutdownInactiveCursors := shutdownInactiveCursors m; chans := chans m;
     loops := loops m; wg := wg m; next := next m; cursors := cursors m;
     settings := s; trace := trace m |}.
Definition emit (e : Effect) : M WebSocketManagerCtx unit :=
  modify (λ m,
  {| shutdownInactiveCursors := shutdownInactiveCursors m; chans := chans m;
     loops := loops m; wg := wg m; next := next m; cursors := cursors m;
     settings := settings m; trace := trace m ++ [e] |}).

(** A fresh address, for [make(chan struct{})] and for [go func()]. *)
Definition fresh : M WebSocketManagerCtx nat :=
  n ← gets next; modify (set_next (S n));; mret n.

(** Modelled from the spec: the session registry's [PopCursors], which
    is declared outside the files at hand.  It returns the per-session
    cursor buffers accumulated so far and clears them. *)
Definition PopCursors : M WebSocketManagerCtx (gmap string (list Cursor)) :=
  c ← gets cursors; modify (set_cursors ∅);; mret c.

(** ** The aggregation goroutine of [startInactiveCursors]

    One iteration of its [for { select { ... } }], per branch. *)

(** The [for session, cursors := range cursorsMap] loop that builds the
    payload.  Go ranges over a map in an unspecified order;
    [map_to_list] fixes one. *)
Definition range_cursors (cursorsMap : gmap string (list Cursor))
    : list SessionCursors :=
  (λ sc, {| ID := sc.1; Cursors := sc.2 |}) <$> map_to_list cursorsMap.

(** [case <-ticker.C]. *)
Definition loop_tick (g : nat) : M WebSocketManagerCtx unit :=
  ls ← gets loops;
  match ls !! g with
  | None => panic
  | Some lastEmpty =>
      cursorsMap ← PopCursors;
      let currentEmpty := bool_decide (size cursorsMap = 0%nat) in
      if currentEmpty && lastEmpty then mret tt
      else
        modify (set_loops <[g := currentEmpty]>);;
        let sessionCursors := range_cursors cursorsMap in
        emit (InactiveCursorsBroadcast event.SESSION_CURSORS sessionCursors)
  end.

(** [case <-manager.shutdownInactiveCursors]: ready once the channel the
    field holds is closed (a receive from a nil channel never is). *)
Definition loop_shutdown (g : nat) : M WebSocketManagerCtx unit :=
  ls ← gets loops;
  c ← gets shutdownInactiveCursors;
  cs ← gets chans;
  match ls !! g, c ≫= (cs !!.) with
  | Some _, Some true =>
      emit (Log Info "stopping inactive cursors handler");;
      modify (set_shutdownInactiveCursors None);;
      _ ← PopCursors;
      emit (InactiveCursorsBroadcast event.SESSION_CURSORS []);;
      modify (set_loops (delete g));;
      modify (set_wg pred)
  | _, _ => panic
  end.

Definition startInactiveCursors : M WebSocketManagerCtx unit :=
  c ← gets shutdownInactiveCursors;
  match c with
  | Some _ =>
      emit (Log Warn "inactive cursors handler already running")
  | None =>
      emit (Log Info "starting inactive cursors handler");;
      ch ← fresh;
      modify (set_chans <[ch := false]>);;
      modify (set_shutdownInactiveCursors (Some ch));;
      modify (set_wg S);;
      g ← fresh;
      modify (set_loops <[g := false]>)
  end.

(** [close] of a closed channel panics. *)
Definition stopInactiveCursors : M WebSocketManagerCtx unit :=
  c ← gets shutdownInactiveCursors;
  match c with
  | None => mret tt
  | Some ch =>
      cs ← gets chans;
      match cs !! ch with
      | Some false => modify (set_chans <[ch := true]>)
      | _ => panic
      end
  end.

(** The reaction [Start] registers with [sessions.OnSettingsChanged]. *)
Definition OnSettingsChanged (session : Session) (new old : Settings)
    : M WebSocketManagerCtx unit :=
  when (InactiveCursors new && negb (InactiveCursors old))
    startInactiveCursors;;
  when (negb (InactiveCursors new) && InactiveCursors old)
    stopInactiveCursors;;
  emit (Broadcast_SystemSettingsUpdate event.SYSTEM_SETTINGS (SessionID session) new);;
  emit (Log Info "settings changed").

(** The end of [Start]. *)
Definition Start_tail : M WebSocketManagerCtx unit :=
  s ← gets settings;
  when (InactiveCursors s) startInactiveCursors;;
  emit (Log Info "websocket starting").

(** The registry between two ticks: by the time of the next tick the
    sessions that moved have accumulated the buffers [c]. *)
Definition accumulate (c : gmap string (list Cursor)) : M WebSocketManagerCtx unit :=
  modify (set_cursors c).

(** The loop [g] ticking once for each element of [cs], the registry
    having accumulated that element since the tick before. *)
Fixpoint ticks (g : nat) (cs : list (gmap string (list Cursor)))
    : M WebSocketManagerCtx unit :=
  match cs with
  | [] => mret tt
  | c :: cs => accumulate c;; loop_tick g;; ticks g cs
  end.

(** ** [connect]

    [auth] is what [sessions.Authenticate(r)] returns (the text of the
    error, or the session) and [handle_ret] what the blocking
    [manager.handle] returns when the connection's dispatch loop ends.
    The trace holds what the statements of [connect] itself do; what
    [handle] does between [ConnectWebSocketPeer] and "connection ended"
    (the handler calls, pings, log lines and the destruction of the peer
    on shutdown) is the trace of [dispatch.handle] below. *)
Definition connect (auth : string + Session) (handle_ret : option GoError)
    : M WebSocketManagerCtx unit :=
  match auth with
  | inl err =>
      emit (Log Warn "authentication failed");;
      emit (PeerDestroy err)
  | inr session =>
      if negb (CanConnect session) then
        emit (Log Warn "connection disabled");;
        emit (PeerDestroy "connection disabled")
      else
        s ← gets settings;
        if IsConnected session && negb (MercifulReconnect s) then
          emit (Log Warn "already connected");;
          emit (PeerDestroy "already connected")
        else
          when (IsConnected session)
            (emit (Log Warn "already connected");;
             emit (Log Info "replacing peer connection"));;
          emit (Log Info "connection started");;
          emit (ConnectWebSocketPeer (SessionID session));;
          (* err = manager.handle(connection, peer, session) *)
          emit (Log Info "connection ended");;
          match handle_ret with
          | None =>
              emit (Log Debug "websocket close");;
              emit (DisconnectWebSocketPeer (SessionID session) false)
          | Some err =>
              delayedDisconnect ←
                match err with
                | OtherError _ =>
                    emit (Log Warn "read message error");;
                    mret true
                | CloseError Code _ =>
                    if bool_decide (Code = CloseNormalClosure) then
                      emit (Log Debug "websocket close");; mret false
                    else if bool_decide (Code = CloseGoingAway) then
                      emit (Log Debug "websocket close");; mret false
                    else
                      emit (Log Warn "websocket close");; mret true
                end;
              emit (DisconnectWebSocketPeer (SessionID session) delayedDisconnect)
          end
  end.

(** ** Reading a trace *)

(** The disconnects reported to the session registry, oldest first. *)
Definition disconnects (t : list Effect) : list (string * bool) :=
  omap (λ e, match e with
             | DisconnectWebSocketPeer sid d => Some (sid, d)
             | _ => None
             end) t.

(** The payloads of the inactive-cursor broadcasts, oldest first. *)
Definition broadcasts (t : list Effect) : list (list SessionCursors) :=
  omap (λ e, match e with
             | InactiveCursorsBroadcast _ p => Some p
             | _ => None
             end) t.

(** The warnings logged, oldest first. *)
Definition warnings (t : list Effect) : list string :=
  omap (λ e, match e with
             | Log Warn msg => Some msg
             | _ => None
             end) t.

(** The sessions whose websocket peer was connected, and the reasons of
    the peers destroyed, oldest first. *)
Definition connects (t : list Effect) : list string :=
  omap (λ e, match e with
             | ConnectWebSocketPeer sid => Some sid
             | _ => None
             end) t.

Definition destroys (t : list Effect) : list string :=
  omap (λ e, match e with
             | PeerDestroy reason => Some reason
             | _ => None
             end) t.

Definition is_Log (e : Effect) : bool :=
  match e with
  | Log _ _ => true
  | _ => false
  end.

(** No two empty payloads in a row. *)
Fixpoint no_adjacent_empty (bs : list (list SessionCursors)) : Prop :=
  match bs with
  | [] :: (([] :: _) as bs') => False
  | _ :: bs' => no_adjacent_empty bs'
  | [] => True
  end.

End websocket.

(** * [internal/webrtc/manager.go] *)
Module webrtc.

(** pion's [RTPCodecType]: the zero value, audio, video. *)
Inductive RTPCodecType :=
| RTPCodecTypeUnknown
| RTPCodecTypeAudio
| RTPCodecTypeVideo.

(** pion's [SignalingState]. *)
Inductive SignalingState :=
| SignalingStateStable
| SignalingStateHaveLocalOffer
| SignalingStateHaveRemoteOffer
| SignalingStateHaveLocalPranswer
| SignalingStateHaveRemotePranswer
| SignalingStateClosed.

(** pion's [PeerConnectionState]. *)
Inductive PeerConnectionState :=
| PeerConnectionStateNew
| PeerConnectionStateConnecting
| PeerConnectionStateConnected
| PeerConnectionStateDisconnected
| PeerConnectionStateFailed
| PeerConnectionStateClosed.

#[global] Instance RTPCodecType_eq_dec : EqDecision RTPCodecType.
Proof. solve_decision. Defined.
#[global] Instance SignalingState_eq_dec : EqDecision SignalingState.
Proof. solve_decision. Defined.

(** [codec.RTPCodec] is declared outside the files at hand; the manager
    only passes codecs on, so a codec is its name and its type. *)
Record RTPCodec := {
  CodecName : string;
  CodecType : RTPCodecType;
}.

(** pion's [RTPCodecParameters], of which the manager reads the MIME
    type. *)
Record RTPCodecParameters := {
  MimeType : string;
}.

(** A [*webrtc.TrackRemote]: [Kind()], [Codec()], [SSRC()]. *)
Record TrackRemote := {
  Kind : RTPCodecType;
  Codec : RTPCodecParameters;
  SSRC : Z;
}.

(** The two [types.StreamSrcManager]s the capture manager hands out:
    [capture.Microphone()] and [capture.Webcam()]. *)
Inductive StreamSrc := Microphone | Webcam.

#[global] Instance StreamSrc_eq_dec : EqDecision StreamSrc.
Proof. solve_decision. Defined.

(** A [types.StreamSinkManager] (an outbound stream): [Codec()]. *)
Record Stream := {
  StreamCodec : RTPCodec;
}.

(** [types.ErrWebRTCVideoNotFound] and the errors of the calls the
    manager passes on. *)
Inductive error :=
| ErrWebRTCVideoNotFound
| Err (msg : string).

(** A session as the peer's closures read it: [ID()],
    [Profile().CanShareMedia], [IsHost()], each at the time of the call. *)
Record Session := {
  ID : string;
  CanShareMedia : bool;
  IsHost : bool;
}.

(** [cursor.ImageEntry]: the cursor (its serial) and the encoded image. *)
Record ImageEntry := {
  Cursor : Z;
  Image : list Byte.byte;
}.

(** The reactions [CreatePeer] registers. *)
Inductive Handler :=
| RegOnICECandidate
| RegOnTrack
| RegOnDataChannel
| RegOnConnectionStateChange
| RegOnOpen
| RegOnClose
| RegOnMessage
| RegOnNegotiationNeeded.

(** pion's [SessionDescription], of which the manager reads the SDP. *)
Record SessionDescription := {
  SDP : string;
}.

(** Calls into collaborators, in the order the code makes them. *)
Inductive Effect :=
| Log (lvl : Level) (msg : string)
| ReceiverStop (receiver : nat)
| SrcStart (src : StreamSrc) (codec : RTPCodec)
| SrcStop (src : StreamSrc)
| SrcPush (src : StreamSrc) (data : list Byte.byte)
| TickerStart (receiver : nat)
| TickerStop (receiver : nat)
| WriteRTCP_PLI (ssrc : Z)
| Send_SignalDescription (sid : string) (ev : event.t) (SDP : string)
| Send_SignalCandidate (sid : string) (ev : event.t) (candidate : string)
| SendCursorImage (peer : nat) (entry : ImageEntry)
| SendCursorPosition (peer : nat) (x y : Z)
| PeerCreateOffer (peer : nat) (ICERestart : bool)
| SetWebRTCPeer (sid : string) (peer : nat)
| SetWebRTCConnected (sid : string) (peer : nat) (connected : bool)
| ConnectionClose (peer : nat)
| RemoveStream (peer : nat) (kind : RTPCodecType).

(** The environment of a [stopFn] closure: the variables [stopped] and
    [srcManager] that it shares with the [OnTrack] call that made it, and
    that call's [receiver]. *)
Record StopFn := {
  stopped : bool;
  receiver : nat;
  srcManager : option StreamSrc;
}.

(** What one [CreatePeer] call builds: the connection with its codecs,
    the streams of the tracks added to it, the labels of its data
    channels and the reactions registered on it (oldest first), and the
    [WebRTCPeerCtx] around it.  [signalingState] belongs to pion; the
    manager only reads it. *)
Record Peer := {
  codecs : list RTPCodec;
  localTracks : list Stream;
  dataChannels : list string;
  registered : list Handler;
  iceTrickle : bool;
  signalingState : SignalingState;
}.

(** What the manager reads and never writes: its configuration, the
    capture manager's outbound streams, what [curImage.Get()] returns
    ([None] for an error) and [desktop.GetCursorPosition()]. *)
Record Env := {
  ICETrickle : bool;
  Audio : Stream;
  Video : gmap string Stream;
  curImage_Get : option ImageEntry;
  GetCursorPosition : Z * Z;
}.

(** [WebRTCManagerCtx] and what it reaches.

    - [camStop], [micStop]: the fields of these names, nil or a pointer to
      a [stopFn] closure, the closures living in [stopFns];
    - [readers]: the [OnTrack] calls that are in their read loop, by
      receiver, with the closure and the sink each of them holds;
    - [peers]: what the [CreatePeer] calls built;
    - [curImage], [curPosition]: the listeners of the two cursor feeds.
      Each [CreatePeer] call makes one closure of each kind, so a
      listener pointer is named by its peer. *)
Record WebRTCManagerCtx := {
  env : Env;
  camStop : option nat;
  micStop : option nat;
  stopFns : gmap nat StopFn;
  readers : gmap nat (nat * StreamSrc);
  peers : gmap nat Peer;
  curImage : gset nat;
  curPosition : gset nat;
  next : nat;
  trace : list Effect;
}.

(** [New]. *)
Definition New (e : Env) : WebRTCManagerCtx :=
  {| env := e; camStop := None; micStop := None; stopFns := ∅;
     readers := ∅; peers := ∅; curImage := ∅; curPosition := ∅;
     next := 0%nat; trace := [] |}.

Definition set_camStop (v : option nat) (m : WebRTCManagerCtx) :=
  {| env := env m; camStop := v; micStop := micStop m;
     stopFns := stopFns m; readers := readers m; peers := peers m;
     curImage := curImage m; curPosition := curPosition m;
     next := next m; trace := trace m |}.
Definition set_micStop (v : option nat) (m : WebRTCManagerCtx) :=
  {| env := env m; camStop := camStop m; micStop := v;
     stopFns := stopFns m; readers := readers m; peers := peers m;
     curImage := curImage m; curPosition := curPosition m;
     next := next m; trace := trace m |}.
Definition set_stopFns (f : gmap nat StopFn → gmap nat StopFn) (m : WebRTCManagerCtx) :=
  {| env := env m; camStop := camStop m; micStop := micStop m;
     stopFns := f (stopFns m); readers := readers m; peers := peers m;
     curImage := curImage m; curPosition := curPosition m;
     next := next m; trace := trace m |}.
Definition set_readers (f : gmap nat (nat * StreamSrc) → gmap nat (nat * StreamSrc))
    (m : WebRTCManagerCtx) :=
  {| env := env m; camStop := camStop m; micStop := micStop m;
     stopFns := stopFns m; readers := f (readers m); peers := peers m;
     curImage := curImage m; curPosition := curPosition m;
     next := next m; trace := trace m |}.
Definition set_peers (f : gmap nat Peer → gmap nat Peer) (m : WebRTCManagerCtx) :=
  {| env := env m; camStop := camStop m; micStop := micStop m;
     stopFns := stopFns m; readers := readers m; peers := f (peers m);
     curImage := curImage m; curPosition := curPosition m;
     next := next m; trace := trace m |}.
Definition set_curImage (f : gset nat → gset nat) (m : WebRTCManagerCtx) :=
  {| env := env m; camStop := camStop m; micStop := micStop m;
     stopFns := stopFns m; readers := readers m; peers := peers m;
     curImage := f (curImage m); curPosition := curPosition m;
     next := next m; trace := trace m |}.
Definition set_curPosition (f : gset nat → gset nat) (m : WebRTCManagerCtx) :=
  {| env := env m; camStop := camStop m; micStop := micStop m;
     stopFns := stopFns m; readers := readers m; peers := peers m;
     curImage := curImage m; curPosition := f (curPosition m);
     next := next m; trace := trace m |}.
Definition set_next (n : nat) (m : WebRTCManagerCtx) :=
  {| env := env m; camStop := camStop m; micStop := micStop m;
     stopFns := stopFns m; readers := readers m; peers := peers m;
     curImage := curImage m; curPosition := curPosition m;
     next := n; trace := trace m |}.
Definition record (e : Effect) (m : WebRTCManagerCtx) :=
  {| env := env m; camStop := camStop m; micStop := micStop m;
     stopFns := stopFns m; readers := readers m; peers := peers m;
     curImage := curImage m; curPosition := curPosition m;
     next := next m; trace := trace m ++ [e] |}.
Definition emit (e : Effect) : M WebRTCManagerCtx unit :=
  modify (record e).

(** A fresh address: for a closure, a receiver or a peer. *)
Definition fresh : M WebRTCManagerCtx nat :=
  n ← gets next; modify (set_next (S n));; mret n.

(** The slot of a sink: [manager.micStop] for the microphone,
    [manager.camStop] for the webcam. *)
Definition slot (src : StreamSrc) (m : WebRTCManagerCtx) : option nat :=
  match src with
  | Microphone => micStop m
  | Webcam => camStop m
  end.

Definition set_slot (src : StreamSrc) (v : option nat) :=
  match src with
  | Microphone => set_micStop v
  | Webcam => set_camStop v
  end.

(** ** The remote-track reaction *)

(** A call of the closure [stopFn] at address [a].  Calling
    [srcManager.Stop()] on the nil interface panics. *)
Definition stopFn (a : nat) : M WebRTCManagerCtx unit :=
  fs ← gets stopFns;
  match fs !! a with
  | None => panic
  | Some f =>
      if stopped f then mret tt
      else
        modify (set_stopFns <[a := {| stopped := true;
                                      receiver := receiver f;
                                      srcManager := srcManager f |}]>);;
        emit (ReceiverStop (receiver f));;
        match srcManager f with
        | None => panic
        | Some src => emit (SrcStop src)
        end;;
        emit (Log Info "remote track stopped")
  end.

(** Where an [OnTrack] call stands after a step: it has returned, or it
    is in its read loop, holding its closure and its sink. *)
Inductive TrackTask :=
| Returned
| Reading (a : nat) (src : StreamSrc).

(** [if manager.xStop != nil { ( *manager.xStop)() }; manager.xStop = &stopFn],
    then the rest of the handler up to the read loop.  [start_err] is
    what [srcManager.Start(codec)] returns.  The deferred calls run, last
    registered first, when the handler returns. *)
Definition acquire (src : StreamSrc) (a r : nat) (codec : RTPCodec)
    (start_err : option string) : M WebRTCManagerCtx TrackTask :=
  fs ← gets stopFns;
  match fs !! a with
  | None => panic
  | Some f =>
      (* srcManager = manager.capture.Microphone() / Webcam() *)
      modify (set_stopFns <[a := {| stopped := stopped f;
                                    receiver := receiver f;
                                    srcManager := Some src |}]>);;
      (* defer stopFn() *)
      prev ← gets (slot src);
      match prev with
      | Some b => stopFn b
      | None => mret tt
      end;;
      modify (set_slot src (Some a));;
      emit (SrcStart src codec);;
      match start_err with
      | Some _ =>
          emit (Log Error "failed to start pipeline");;
          stopFn a;;
          mret Returned
      | None =>
          emit (TickerStart r);;
          mret (Reading a src)
      end
  end.

Section OnTrack.
(** [codec.ParseRTC] is declared outside the files at hand. *)
Variable ParseRTC : RTPCodecParameters → option RTPCodec.

(** The reaction registered with [connection.OnTrack], up to its read
    loop. *)
Definition OnTrack_begin (session : Session) (track : TrackRemote) (r : nat)
    (start_err : option string) : M WebRTCManagerCtx TrackTask :=
  emit (Log Info "received new remote track");;
  if negb (CanShareMedia session) then
    emit (Log Warn "media sharing is disabled for this session");;
    emit (ReceiverStop r);;
    mret Returned
  else
    match ParseRTC (Codec track) with
    | None =>
        emit (Log Warn "remote track with unknown codec");;
        emit (ReceiverStop r);;
        mret Returned
    | Some codec =>
        a ← fresh;
        modify (set_stopFns <[a := {| stopped := false; receiver := r;
                                      srcManager := None |}]>);;
        match Kind track with
        | RTPCodecTypeAudio => acquire Microphone a r codec start_err
        | RTPCodecTypeVideo => acquire Webcam a r codec start_err
        | RTPCodecTypeUnknown =>
            emit (Log Warn "remote track with unsupported codec type");;
            emit (ReceiverStop r);;
            mret Returned
        end
    end.
End OnTrack.

(** One round of the read loop: [track.Read(buf)] gives [Some data], or
    fails with [None], which ends the handler. *)
Definition OnTrack_read (a : nat) (src : StreamSrc) (r : nat)
    (read : option (list Byte.byte)) : M WebRTCManagerCtx TrackTask :=
  match read with
  | Some data =>
      emit (SrcPush src data);;
      mret (Reading a src)
  | None =>
      emit (Log Warn "failed read from remote track");;
      emit (Log Info "remote track data finished");;
      emit (TickerStop r);;
      stopFn a;;
      mret Returned
  end.

(** The goroutine that ranges over [ticker.C]; [err] is what
    [connection.WriteRTCP] returns. *)
Definition OnTrack_pli (track : TrackRemote) (err : option string)
    : M WebRTCManagerCtx unit :=
  emit (WriteRTCP_PLI (SSRC track));;
  when (bool_decide (is_Some err)) (emit (Log Error "remote track rtcp send err")).

(** ** Remote tracks arriving over time

    What pion does to the manager: a new remote track arrives on some
    connection (with a receiver of its own), a read of a track being
    read returns data, or such a read fails.

    [track_step] runs each of these in one piece: the handler of an
    arriving track up to its read loop, one read, a failing read with
    the deferred calls.  It covers the executions in which these phases
    do not overlap.  The handlers run in goroutines of their own and the
    manager takes no lock on [micStop], [camStop] or the flags of the
    closures; executions in which statements of two handlers alternate
    are built from the statement-level definitions further down. *)
Inductive TrackStep :=
| TrackArrives (session : Session) (track : TrackRemote) (start_err : option string)
| TrackData (r : nat) (data : list Byte.byte)
| TrackFails (r : nat).

Definition park (r : nat) (t : TrackTask) : M WebRTCManagerCtx unit :=
  match t with
  | Returned => modify (set_readers (delete r))
  | Reading a src => modify (set_readers <[r := (a, src)]>)
  end.

Definition track_step (ParseRTC : RTPCodecParameters → option RTPCodec)
    (s : TrackStep) : M WebRTCManagerCtx unit :=
  match s with
  | TrackArrives session track start_err =>
      r ← fresh;
      t ← OnTrack_begin ParseRTC session track r start_err;
      park r t
  | TrackData r data =>
      rs ← gets readers;
      match rs !! r with
      | Some (a, src) => t ← OnTrack_read a src r (Some data); park r t
      | None => mret tt
      end
  | TrackFails r =>
      rs ← gets readers;
      match rs !! r with
      | Some (a, src) => t ← OnTrack_read a src r None; park r t
      | None => mret tt
      end
  end.

Fixpoint track_run (ParseRTC : RTPCodecParameters → option RTPCodec)
    (ss : list TrackStep) : M WebRTCManagerCtx unit :=
  match ss with
  | [] => mret tt
  | s :: ss => track_step ParseRTC s;; track_run ParseRTC ss
  end.

(** The tracks that hold the sink [src]: the closures bound to it that
    have not run yet. *)
Definition occupies (src : StreamSrc) (af : nat * StopFn) : Prop :=
  srcManager af.2 = Some src ∧ stopped af.2 = false.

#[global] Instance occupies_dec src af : Decision (occupies src af).
Proof. unfold occupies. apply _. Defined.

Definition occupants (src : StreamSrc) (m : WebRTCManagerCtx) : gmap nat StopFn :=
  filter (occupies src) (stopFns m).

(** How often the receiver [r] has been stopped. *)
Definition is_ReceiverStop (r : nat) (e : Effect) : bool :=
  match e with
  | ReceiverStop r' => bool_decide (r' = r)
  | _ => false
  end.

Definition stops_of (r : nat) (t : list Effect) : nat :=
  length (filter (λ e, is_ReceiverStop r e) t).

(** ** The cursor closures and the data channel's reactions

    [send_err] is what [peer.SendCursorImage] / [peer.SendCursorPosition]
    returns. *)
Definition cursorImage (p : nat) (entry : ImageEntry) (send_err : option string)
    : M WebRTCManagerCtx unit :=
  emit (SendCursorImage p entry);;
  when (bool_decide (is_Some send_err))
    (emit (Log Error "could not send cursor image")).

Definition cursorPosition (p : nat) (session : Session) (x y : Z)
    (send_err : option string) : M WebRTCManagerCtx unit :=
  if IsHost session then mret tt
  else
    emit (SendCursorPosition p x y);;
    when (bool_decide (is_Some send_err))
      (emit (Log Error "could not send cursor position")).

(** Modelled from the spec: the listener registries of the cursor
    feeds ([cursor.ImageCtx], [cursor.PositionCtx]), which are declared
    outside the files at hand.  [AddListener] registers a handler on the
    feed and [RemoveListener] deregisters it. *)
Definition curImage_AddListener (p : nat) : M WebRTCManagerCtx unit :=
  modify (set_curImage (λ l, l ∪ {[p]})).
Definition curPosition_AddListener (p : nat) : M WebRTCManagerCtx unit :=
  modify (set_curPosition (λ l, l ∪ {[p]})).
Definition curImage_RemoveListener (p : nat) : M WebRTCManagerCtx unit :=
  modify (set_curImage (λ l, l ∖ {[p]})).
Definition curPosition_RemoveListener (p : nat) : M WebRTCManagerCtx unit :=
  modify (set_curPosition (λ l, l ∖ {[p]})).

Definition OnOpen (p : nat) (session : Session)
    (image_err position_err : option string) : M WebRTCManagerCtx unit :=
  curImage_AddListener p;;
  curPosition_AddListener p;;
  e ← gets env;
  match curImage_Get e with
  | Some entry => cursorImage p entry image_err
  | None => emit (Log Error "failed to get cursor image")
  end;;
  cursorPosition p session (GetCursorPosition e).1 (GetCursorPosition e).2
    position_err.

Definition OnClose (p : nat) : M WebRTCManagerCtx unit :=
  curImage_RemoveListener p;;
  curPosition_RemoveListener p.

(** ** The other reactions *)

(** [candidate] is [None] for the nil candidate. *)
Definition OnICECandidate (session : Session) (candidate : option string)
    : M WebRTCManagerCtx unit :=
  match candidate with
  | None => emit (Log Debug "all local ice candidates sent")
  | Some c => emit (Send_SignalCandidate (ID session) event.SIGNAL_CANDIDATE c)
  end.

Definition OnDataChannel : M WebRTCManagerCtx unit :=
  emit (Log Info "got remote data channel").

Definition OnConnectionStateChange (p : nat) (session : Session)
    (state : PeerConnectionState) : M WebRTCManagerCtx unit :=
  match state with
  | PeerConnectionStateConnected =>
      emit (SetWebRTCConnected (ID session) p true)
  | PeerConnectionStateDisconnected
  | PeerConnectionStateFailed =>
      emit (ConnectionClose p)
  | PeerConnectionStateClosed =>
      emit (SetWebRTCConnected (ID session) p false);;
      emit (RemoveStream p RTPCodecTypeVideo);;
      emit (RemoveStream p RTPCodecTypeAudio)
  | _ => mret tt
  end.

(** [peer.CreateOffer(false)], declared outside the files at hand: the
    call is recorded and gives [ret]. *)
Definition CreateOffer (p : nat) (ICERestart : bool)
    (ret : error + SessionDescription)
    : M WebRTCManagerCtx (error + SessionDescription) :=
  emit (PeerCreateOffer p ICERestart);; mret ret.

Definition OnNegotiationNeeded (p : nat) (session : Session)
    (offer_ret : error + SessionDescription) : M WebRTCManagerCtx unit :=
  emit (Log Warn "negotiation is needed");;
  ps ← gets peers;
  match ps !! p with
  | None => panic
  | Some connection =>
      if bool_decide (signalingState connection ≠ SignalingStateStable) then
        emit (Log Warn "connection isn't stable yet; postponing...")
      else
        r ← CreateOffer p false offer_ret;
        match r with
        | inl _ => emit (Log Error "sdp offer failed")
        | inr offer =>
            emit (Send_SignalDescription (ID session) event.SIGNAL_OFFER (SDP offer))
        end
  end.

(** ** [CreatePeer] *)

(** What the calls that can fail return: [newPeerConnection],
    [newPeerStreamTrack] and [AddToConnection] for the audio and for the
    video track, [CreateDataChannel], [peer.CreateOffer]. *)
Record Outcomes := {
  newPeerConnection_err : option error;
  newAudioTrack_err : option error;
  addAudioTrack_err : option error;
  newVideoTrack_err : option error;
  addVideoTrack_err : option error;
  CreateDataChannel_err : option error;
  CreateOffer_ret : error + SessionDescription;
}.

(** [if err != nil { return nil, err }]. *)
Definition orfail {A} (err : option error) (k : M WebRTCManagerCtx (error + A))
    : M WebRTCManagerCtx (error + A) :=
  match err with
  | Some e => mret (inl e)
  | None => k
  end.

Definition add_track (s : Stream) (c : Peer) : Peer :=
  {| codecs := codecs c; localTracks := localTracks c ++ [s];
     dataChannels := dataChannels c; registered := registered c;
     iceTrickle := iceTrickle c; signalingState := signalingState c |}.
Definition add_dataChannel (l : string) (c : Peer) : Peer :=
  {| codecs := codecs c; localTracks := localTracks c;
     dataChannels := dataChannels c ++ [l]; registered := registered c;
     iceTrickle := iceTrickle c; signalingState := signalingState c |}.
Definition add_handler (h : Handler) (c : Peer) : Peer :=
  {| codecs := codecs c; localTracks := localTracks c;
     dataChannels := dataChannels c; registered := registered c ++ [h];
     iceTrickle := iceTrickle c; signalingState := signalingState c |}.

Definition on (p : nat) (f : Peer → Peer) : M WebRTCManagerCtx unit :=
  modify (set_peers (alter f p)).

Definition CreatePeer (session : Session) (videoID : string) (o : Outcomes)
    : M WebRTCManagerCtx (error + SessionDescription) :=
  emit (Log Info "creating webrtc peer");;
  e ← gets env;
  let audioStream := Audio e in
  match Video e !! videoID with
  | None => mret (inl ErrWebRTCVideoNotFound)
  | Some videoStream =>
      orfail (newPeerConnection_err o) (
      p ← fresh;
      modify (set_peers <[p := {| codecs := [StreamCodec audioStream;
                                             StreamCodec videoStream];
                                  localTracks := []; dataChannels := [];
                                  registered := [];
                                  iceTrickle := ICETrickle e;
                                  signalingState := SignalingStateStable |}]>);;
      when (ICETrickle e) (on p (add_handler RegOnICECandidate));;
      orfail (newAudioTrack_err o) (
      orfail (addAudioTrack_err o) (
      on p (add_track audioStream);;
      orfail (newVideoTrack_err o) (
      orfail (addVideoTrack_err o) (
      on p (add_track videoStream);;
      orfail (CreateDataChannel_err o) (
      on p (add_dataChannel "data");;
      on p (add_handler RegOnTrack);;
      on p (add_handler RegOnDataChannel);;
      on p (add_handler RegOnConnectionStateChange);;
      on p (add_handler RegOnOpen);;
      on p (add_handler RegOnClose);;
      on p (add_handler RegOnMessage);;
      emit (SetWebRTCPeer (ID session) p);;
      r ← CreateOffer p false (CreateOffer_ret o);
      match r with
      | inl err => mret (inl err)
      | inr offer =>
          on p (add_handler RegOnNegotiationNeeded);;
          mret (inr offer)
      end))))))
  end.

(** ** The invariant of the slots

    [pend] is a closure that has been bound to its sink and is not yet
    in the slot (the handler is between [srcManager = ...] and
    [manager.xStop = &stopFn]), if there is one. *)
Record Inv (pend : option nat) (m : WebRTCManagerCtx) : Prop := {
  inv_fresh : ∀ a f, stopFns m !! a = Some f →
    (a < next m)%nat ∧ (receiver f < next m)%nat;
  inv_slot : ∀ src a, slot src m = Some a →
    ∃ f, stopFns m !! a = Some f ∧ srcManager f = Some src;
  inv_occ : ∀ src a f, stopFns m !! a = Some f →
    srcManager f = Some src → stopped f = false →
    slot src m = Some a ∨ pend = Some a;
  inv_reader : ∀ r a src, readers m !! r = Some (a, src) →
    ∃ f, stopFns m !! a = Some f ∧ receiver f = r ∧ srcManager f = Some src;
  inv_once : ∀ r, (stops_of r (trace m) ≤ 1)%nat;
  inv_unseen : ∀ r, (next m ≤ r)%nat → stops_of r (trace m) = 0%nat;
  inv_unstopped : ∀ a f, stopFns m !! a = Some f →
    is_Some (srcManager f) → stopped f = false →
    stops_of (receiver f) (trace m) = 0%nat;
  inv_receiver : ∀ a b f g, stopFns m !! a = Some f → stopFns m !! b = Some g →
    receiver f = receiver g → a = b;
}.

(** What the handler does after [srcManager.Start], which returned
    [start_err], up to its read loop. *)
Definition after_start (src : StreamSrc) (r : nat) (start_err : option string)
    : list Effect :=
  match start_err with
  | Some _ => [Log Error "failed to start pipeline"; ReceiverStop r;
               SrcStop src; Log Info "remote track stopped"]
  | None => [TickerStart r]
  end.

(** What stopping the occupant [g] of the sink [src] does. *)
Definition eviction (src : StreamSrc) (g : option StopFn) : list Effect :=
  match g with
  | Some g =>
      if stopped g then []
      else [ReceiverStop (receiver g); SrcStop src;
            Log Info "remote track stopped"]
  | None => []
  end.

(** ** Reading a trace *)

(** The sink a track of a given kind feeds. *)
Definition sink_of (k : RTPCodecType) : option StreamSrc :=
  match k with
  | RTPCodecTypeAudio => Some Microphone
  | RTPCodecTypeVideo => Some Webcam
  | RTPCodecTypeUnknown => None
  end.

(** The messages written to data channels, with the peer each went to,
    oldest first. *)
Inductive DataMessage :=
| CursorImageMessage (entry : ImageEntry)
| CursorPositionMessage (x y : Z).

Definition sent (t : list Effect) : list (nat * DataMessage) :=
  omap (λ e, match e with
             | SendCursorImage p entry => Some (p, CursorImageMessage entry)
             | SendCursorPosition p x y => Some (p, CursorPositionMessage x y)
             | _ => None
             end) t.

Definition is_position (pm : nat * DataMessage) : bool :=
  match pm.2 with
  | CursorPositionMessage _ _ => true
  | CursorImageMessage _ => false
  end.

(** The offers created and the offers sent to sessions, oldest first. *)
Definition offers_created (t : list Effect) : list nat :=
  omap (λ e, match e with
             | PeerCreateOffer p _ => Some p
             | _ => None
             end) t.

Definition offers_sent (t : list Effect) : list (string * event.t * string) :=
  omap (λ e, match e with
             | Send_SignalDescription sid ev sdp => Some (sid, ev, sdp)
             | _ => None
             end) t.

(** The reactions [CreatePeer] has registered when it returns an offer. *)
Definition wired (trickle : bool) : list Handler :=
  (if trickle then [RegOnICECandidate] else []) ++
  [RegOnTrack; RegOnDataChannel; RegOnConnectionStateChange;
   RegOnOpen; RegOnClose; RegOnMessage; RegOnNegotiationNeeded].

(** The sinks started, oldest first. *)
Definition sinks_started (t : list Effect) : list StreamSrc :=
  omap (λ e, match e with
             | SrcStart src _ => Some src
             | _ => None
             end) t.

(** ** The rest of the peer: switching the video, the cursor listeners
    over time *)

Definition set_video (s : Stream) (c : Peer) : Peer :=
  {| codecs := codecs c; localTracks := <[1%nat := s]> (localTracks c);
     dataChannels := dataChannels c; registered := registered c;
     iceTrickle := iceTrickle c; signalingState := signalingState c |}.

(** The closure [changeVideo] of the peer [p].  [set_err] is what
    [videoTrack.SetStream] returns; the video track is the second track
    [CreatePeer] adds.

    Modelled from the spec: [SetStream], which is declared outside the
    files at hand, rebinds the outbound video track to the stream; the
    audio binding is fixed. *)
Definition changeVideo (p : nat) (videoID : string) (set_err : option error)
    : M WebRTCManagerCtx (option error) :=
  e ← gets env;
  match Video e !! videoID with
  | None => mret (Some ErrWebRTCVideoNotFound)
  | Some videoStream =>
      match set_err with
      | Some err => mret (Some err)
      | None => on p (set_video videoStream);; mret None
      end
  end.

(** What happens to the data channels over time: the channel of a peer
    opens, or it closes. *)
Inductive ChannelStep :=
| Opens (p : nat) (session : Session) (image_err position_err : option string)
| Closes (p : nat).

Definition channel_step (s : ChannelStep) : M WebRTCManagerCtx unit :=
  match s with
  | Opens p session image_err position_err =>
      OnOpen p session image_err position_err
  | Closes p => OnClose p
  end.

Fixpoint channel_run (ss : list ChannelStep) : M WebRTCManagerCtx unit :=
  match ss with
  | [] => mret tt
  | s :: ss => channel_step s;; channel_run ss
  end.

(** Whether the last thing that happened to the channel of [p] in [ss] was
    its opening; [None] if nothing happened to it. *)
Fixpoint last_opened (p : nat) (ss : list ChannelStep) (before : option bool)
    : option bool :=
  match ss with
  | [] => before
  | Opens q _ _ _ :: ss =>
      last_opened p ss (if decide (q = p) then Some true else before)
  | Closes q :: ss =>
      last_opened p ss (if decide (q = p) then Some false else before)
  end.

(** The peers set on sessions, oldest first. *)
Definition peers_set (t : list Effect) : list (string * nat) :=
  omap (λ e, match e with
             | SetWebRTCPeer sid p => Some (sid, p)
             | _ => None
             end) t.

(** All the steps of [CreatePeer] before the offer succeed. *)
Definition built (o : Outcomes) : bool :=
  bool_decide (newPeerConnection_err o = None ∧ newAudioTrack_err o = None
               ∧ addAudioTrack_err o = None ∧ newVideoTrack_err o = None
               ∧ addVideoTrack_err o = None ∧ CreateDataChannel_err o = None).

(** Whether the sink [src] runs, by its starts and stops in the trace. *)
Definition sink_event (src : StreamSrc) (on : bool) (e : Effect) : bool :=
  match e with
  | SrcStart s _ => if decide (s = src) then true else on
  | SrcStop s => if decide (s = src) then false else on
  | _ => on
  end.

Definition sink_on (src : StreamSrc) (t : list Effect) : bool :=
  foldl (sink_event src) false t.

(** An effect that starts or stops no sink. *)
Definition silent (e : Effect) : Prop :=
  ∀ src on, sink_event src on e = on.

(** A sink runs exactly while the closure in its slot has not run. *)
Definition sink_follows_slot (m : WebRTCManagerCtx) : Prop :=
  ∀ src, sink_on src (trace m) = true
         ↔ ∃ a f, slot src m = Some a ∧ stopFns m !! a = Some f
                  ∧ stopped f = false.

(** The receiver of a closure that is bound to a sink and has run has
    been stopped once. *)
Definition stopped_once (m : WebRTCManagerCtx) : Prop :=
  ∀ a f, stopFns m !! a = Some f → is_Some (srcManager f) →
         stopped f = true → stops_of (receiver f) (trace m) = 1%nat.

(** ** The handlers statement by statement

    pion runs every [OnTrack] handler in a goroutine of its own, the
    cursor feeds run in theirs, and the manager takes no lock.  [track_step]
    and [OnOpen] run a handler's phase in one piece; the definitions below
    cut the same code at its statements, so that two handlers can be
    run with statements of one between statements of the other. *)

(** [if stopped { return }], the test at the head of [stopFn]: lines
    228-230. *)
Definition stopFn_flag (a : nat) : M WebRTCManagerCtx bool :=
  fs ← gets stopFns;
  match fs !! a with
  | None => panic
  | Some f => mret (stopped f)
  end.

(** [stopped = true; receiver.Stop(); srcManager.Stop(); logger...]:
    lines 232-235. *)
Definition stopFn_body (a : nat) : M WebRTCManagerCtx unit :=
  fs ← gets stopFns;
  match fs !! a with
  | None => panic
  | Some f =>
      modify (set_stopFns <[a := {| stopped := true;
                                    receiver := receiver f;
                                    srcManager := srcManager f |}]>);;
      emit (ReceiverStop (receiver f));;
      match srcManager f with
      | None => panic
      | Some src => emit (SrcStop src)
      end;;
      emit (Log Info "remote track stopped")
  end.

(** [srcManager = manager.capture.Microphone(); defer stopFn()]: lines
    240-241 and 249-250. *)
Definition acquire_bind (src : StreamSrc) (a : nat) : M WebRTCManagerCtx unit :=
  fs ← gets stopFns;
  match fs !! a with
  | None => panic
  | Some f =>
      modify (set_stopFns <[a := {| stopped := stopped f;
                                    receiver := receiver f;
                                    srcManager := Some src |}]>)
  end.

(** [if manager.micStop != nil { ( *manager.micStop)() }]: lines 243-245
    and 252-254. *)
Definition acquire_evict (src : StreamSrc) : M WebRTCManagerCtx unit :=
  prev ← gets (slot src);
  match prev with
  | Some b => stopFn b
  | None => mret tt
  end.

(** [manager.micStop = &stopFn]: lines 246 and 255. *)
Definition acquire_install (src : StreamSrc) (a : nat)
    : M WebRTCManagerCtx unit :=
  modify (set_slot src (Some a)).

(** [srcManager.Start(codec)] and what follows up to the read loop:
    lines 262-280. *)
Definition acquire_start (src : StreamSrc) (a r : nat) (codec : RTPCodec)
    (start_err : option string) : M WebRTCManagerCtx TrackTask :=
  emit (SrcStart src codec);;
  match start_err with
  | Some _ =>
      emit (Log Error "failed to start pipeline");;
      stopFn a;;
      mret Returned
  | None =>
      emit (TickerStart r);;
      mret (Reading a src)
  end.

(** The handler up to the choice of the sink, lines 203-238: the track
    is turned away ([None]) or its closure is made and its sink chosen. *)
Definition OnTrack_enter (ParseRTC : RTPCodecParameters → option RTPCodec)
    (session : Session) (track : TrackRemote) (r : nat)
    : M WebRTCManagerCtx (option (StreamSrc * nat * RTPCodec)) :=
  emit (Log Info "received new remote track");;
  if negb (CanShareMedia session) then
    emit (Log Warn "media sharing is disabled for this session");;
    emit (ReceiverStop r);;
    mret None
  else
    match ParseRTC (Codec track) with
    | None =>
        emit (Log Warn "remote track with unknown codec");;
        emit (ReceiverStop r);;
        mret None
    | Some codec =>
        a ← fresh;
        modify (set_stopFns <[a := {| stopped := false; receiver := r;
                                      srcManager := None |}]>);;
        match Kind track with
        | RTPCodecTypeAudio => mret (Some (Microphone, a, codec))
        | RTPCodecTypeVideo => mret (Some (Webcam, a, codec))
        | RTPCodecTypeUnknown =>
            emit (Log Warn "remote track with unsupported codec type");;
            emit (ReceiverStop r);;
            mret None
        end
    end.

(** The end of the read loop when [track.Read] fails, lines 282-291,
    and the deferred [ticker.Stop()]; the deferred [stopFn()] is next. *)
Definition OnTrack_read_ends (r : nat) : M WebRTCManagerCtx unit :=
  emit (Log Warn "failed read from remote track");;
  emit (Log Info "remote track data finished");;
  emit (TickerStop r).

(** The two halves of the [OnOpen] closure: the registrations, lines
    329-330, and the initial messages, lines 332-342. *)
Definition OnOpen_register (p : nat) : M WebRTCManagerCtx unit :=
  curImage_AddListener p;;
  curPosition_AddListener p.

Definition OnOpen_initial (p : nat) (session : Session)
    (image_err position_err : option string) : M WebRTCManagerCtx unit :=
  e ← gets env;
  match curImage_Get e with
  | Some entry => cursorImage p entry image_err
  | None => emit (Log Error "failed to get cursor image")
  end;;
  cursorPosition p session (GetCursorPosition e).1 (GetCursorPosition e).2
    position_err.

(** ** The cursor feeds

    Modelled from the spec: the changed-event feeds of the cursor
    sampler ([cursor.ImageCtx], [cursor.PositionCtx]), which are declared
    outside the files at hand.  A change of the cursor image, or of the
    cursor position, is delivered to every listener registered on its
    feed at that moment; the listener of the peer [q] is the closure
    [cursorImage], or [cursorPosition], that [CreatePeer] made for it.
    [owner q] is the session that closure holds, and [send_err q] what
    the peer's send returns. *)
Inductive FeedEvent :=
| ImageChanged (entry : ImageEntry) (send_err : nat → option string)
| PositionChanged (x y : Z) (send_err : nat → option string).

Fixpoint deliver (f : nat → M WebRTCManagerCtx unit) (ls : list nat)
    : M WebRTCManagerCtx unit :=
  match ls with
  | [] => mret tt
  | q :: ls => f q;; deliver f ls
  end.

Definition feed (owner : nat → Session) (ev : FeedEvent)
    : M WebRTCManagerCtx unit :=
  match ev with
  | ImageChanged entry send_err =>
      ls ← gets curImage;
      deliver (λ q, cursorImage q entry (send_err q)) (elements ls)
  | PositionChanged x y send_err =>
      ls ← gets curPosition;
      deliver (λ q, cursorPosition q (owner q) x y (send_err q)) (elements ls)
  end.

Fixpoint feeds (owner : nat → Session) (evs : list FeedEvent)
    : M WebRTCManagerCtx unit :=
  match evs with
  | [] => mret tt
  | ev :: evs => feed owner ev;; feeds owner evs
  end.

(** The messages sent to the peer [p], oldest first. *)
Definition sent_to (p : nat) (t : list Effect) : list DataMessage :=
  omap (λ e, match e with
             | SendCursorImage q entry =>
                 if decide (q = p) then Some (CursorImageMessage entry)
                 else None
             | SendCursorPosition q x y =>
                 if decide (q = p) then Some (CursorPositionMessage x y)
                 else None
             | _ => None
             end) t.

(** What the changes [evs] bring to a peer that listens on the image
    feed ([onImage]) and on the position feed ([onPosition]). *)
Definition deliveries (onImage onPosition isHost : bool)
    (evs : list FeedEvent) : list DataMessage :=
  omap (λ ev, match ev with
              | ImageChanged entry _ =>
                  if onImage then Some (CursorImageMessage entry) else None
              | PositionChanged x y _ =>
                  if onPosition && negb isHost
                  then Some (CursorPositionMessage x y) else None
              end) evs.

Definition change_driven (isHost : bool) (evs : list FeedEvent)
    : list DataMessage :=
  deliveries true true isHost evs.

(** ** A small deployment, for examples

    One audio stream, one video stream "cam1", trickle ICE; a viewer, a
    host, and a session that may not share media. *)
Definition example_env : Env :=
  {| ICETrickle := true;
     Audio := {| StreamCodec := {| CodecName := "opus"; CodecType := RTPCodecTypeAudio |} |};
     Video := {[ "cam1" := {| StreamCodec := {| CodecName := "vp8"; CodecType := RTPCodecTypeVideo |} |} ]};
     curImage_Get := Some {| Cursor := 7; Image := [] |};
     GetCursorPosition := (10, 20) |}.

Definition viewer : Session :=
  {| ID := "viewer"; CanShareMedia := true; IsHost := false |}.
Definition host : Session :=
  {| ID := "host"; CanShareMedia := true; IsHost := true |}.
Definition guest : Session :=
  {| ID := "guest"; CanShareMedia := false; IsHost := false |}.

Definition all_succeed (sdp : string) : Outcomes :=
  {| newPeerConnection_err := None; newAudioTrack_err := None;
     addAudioTrack_err := None; newVideoTrack_err := None;
     addVideoTrack_err := None; CreateDataChannel_err := None;
     CreateOffer_ret := inr {| SDP := sdp |} |}.

(** A [ParseRTC] that knows two MIME types. *)
Definition example_ParseRTC (c : RTPCodecParameters) : option RTPCodec :=
  if String.eqb (MimeType c) "audio/opus" then
    Some {| CodecName := "opus"; CodecType := RTPCodecTypeAudio |}
  else if String.eqb (MimeType c) "video/VP8" then
    Some {| CodecName := "vp8"; CodecType := RTPCodecTypeVideo |}
  else None.

Definition opus_track : TrackRemote :=
  {| Kind := RTPCodecTypeAudio; Codec := {| MimeType := "audio/opus" |}; SSRC := 1 |}.
Definition vp8_track : TrackRemote :=
  {| Kind := RTPCodecTypeVideo; Codec := {| MimeType := "video/VP8" |}; SSRC := 2 |}.

(** The same deployment with a cursor image that cannot be obtained. *)
Definition blank_env : Env :=
  {| ICETrickle := true;
     Audio := Audio example_env;
     Video := Video example_env;
     curImage_Get := None;
     GetCursorPosition := (10, 20) |}.

(** Two audio tracks whose handlers overlap: each passes the test of
    the slot before the other installs its stop function. *)
Definition two_tracks_overlapping
    : M WebRTCManagerCtx (TrackTask * TrackTask) :=
  rA ← fresh;
  xA ← OnTrack_enter example_ParseRTC host opus_track rA;
  rB ← fresh;
  xB ← OnTrack_enter example_ParseRTC viewer opus_track rB;
  match xA, xB return M WebRTCManagerCtx (TrackTask * TrackTask) with
  | Some (srcA, aA, codecA), Some (srcB, aB, codecB) =>
      acquire_bind srcA aA;;
      acquire_evict srcA;;
      acquire_bind srcB aB;;
      acquire_evict srcB;;
      acquire_install srcA aA;;
      acquire_install srcB aB;;
      tA ← acquire_start srcA aA rA codecA None;
      park rA tA;;
      tB ← acquire_start srcB aB rB codecB None;
      park rB tB;;
      mret (tA, tB)
  | _, _ => panic
  end.

(** A second audio track arrives while the read of the first fails: the
    new handler, evicting the first track, and the first handler's
    deferred call both pass the test of the flag before either sets it.
    The result is what the two tests saw. *)
Definition eviction_meets_failed_read : M WebRTCManagerCtx (bool * bool) :=
  track_step example_ParseRTC (TrackArrives host opus_track None);;
  rB ← fresh;
  xB ← OnTrack_enter example_ParseRTC viewer opus_track rB;
  match xB return M WebRTCManagerCtx (bool * bool) with
  | Some (src, aB, codec) =>
      acquire_bind src aB;;
      prev ← gets (slot src);
      match prev return M WebRTCManagerCtx (bool * bool) with
      | Some aA =>
          seenB ← stopFn_flag aA;
          OnTrack_read_ends 0;;
          seenA ← stopFn_flag aA;
          when (negb seenB) (stopFn_body aA);;
          when (negb seenA) (stopFn_body aA);;
          park 0 Returned;;
          acquire_install src aB;;
          t ← acquire_start src aB rB codec None;
          park rB t;;
          mret (seenB, seenA)
      | None => panic
      end
  | None => panic
  end.

(** The cursor image changes while the viewer's data channel opens,
    after the listeners are registered and before the initial messages
    are sent. *)
Definition cursor_change_during_open : M WebRTCManagerCtx unit :=
  OnOpen_register 0;;
  feed (λ _, viewer) (ImageChanged {| Cursor := 8; Image := [] |} (λ _, None));;
  OnOpen_initial 0 viewer None None.

End webrtc.

(** * [server/internal/websocket/manager.go]: the dispatch loop *)
Module dispatch.

(** [types.WebSocketMessage]. *)
Record WebSocketMessage := {
  Event : string;
  Payload : list Byte.byte;
}.

Definition maxPayloadLogLength : Z := 10000.

(** [[]byte("<truncated>")]. *)
Definition truncated : list Byte.byte :=
  String.list_byte_of_string "<truncated>".

(** What the loop does to its collaborators: log lines (the debug line
    for a received message with its event and payload fields), calls of
    the message handlers (number 0 is [manager.handler.Message], number
    [i+1] is [manager.handlers[i]]), pings and the destruction of the
    peer. *)
Inductive Effect :=
| Log (lvl : Level) (msg : string)
| LogReceived (event : string) (payload : list Byte.byte)
| Call (i : nat) (data : WebSocketMessage)
| Ping
| Destroy (reason : string).

(** The part of [WebSocketManagerCtx] the loop reads.  A handler answers
    whether it handled the message; what else it does is its own, the
    call is recorded. *)
Record Ctx := {
  handler_Message : WebSocketMessage → bool;
  handlers : list (WebSocketMessage → bool);
  trace : list Effect;
}.

Definition emit (e : Effect) : M Ctx unit :=
  modify (λ m, {| handler_Message := handler_Message m;
                  handlers := handlers m;
                  trace := trace m ++ [e] |}).

(** [AddHandler]. *)
Definition AddHandler (handler : WebSocketMessage → bool) : M Ctx unit :=
  modify (λ m, {| handler_Message := handler_Message m;
                  handlers := handlers m ++ [handler];
                  trace := trace m |}).

(** [for _, handler := range manager.handlers { if handled { break };
    handled = handler(session, data) }], [i] being the number of the
    handler at the head of [hs]. *)
Fixpoint range_handlers (i : nat) (hs : list (WebSocketMessage → bool))
    (data : WebSocketMessage) (handled : bool) : M Ctx bool :=
  match hs with
  | [] => mret handled
  | handler :: hs =>
      if handled then mret handled
      else emit (Call i data);; range_handlers (S i) hs data (handler data)
  end.

(** What one [select] of the loop receives: a raw message from the reader
    goroutine, the reader's error, the manager's shutdown, or a tick of
    the ping ticker, with what [peer.Ping()] returns. *)
Inductive Select :=
| Bytes (raw : list Byte.byte)
| Cancel (err : GoError)
| Shutdown
| Tick (ping_err : option GoError).

(** Where a call of [handle] stands: it waits in its [select], or it has
    returned. *)
Inductive Outcome :=
| Waiting
| Returned (err : option GoError).

Section handle.
(** [json.Unmarshal] into a message ([None] for an error), and
    [utils.ArrayIn(data.Event, nologEvents)], whose list is made of
    constants declared outside the files at hand. *)
Variable Unmarshal : list Byte.byte → option WebSocketMessage.
Variable nolog : string → bool.

(** [case raw := <-bytes]. *)
Definition on_bytes (raw : list Byte.byte) : M Ctx unit :=
  match Unmarshal raw with
  | None => emit (Log Error "message unmarshalling has failed")
  | Some data =>
      when (negb (nolog (Event data)))
        (let payload :=
           if decide (maxPayloadLogLength < Z.of_nat (length (Payload data)))
           then truncated else Payload data in
         emit (LogReceived (Event data) payload));;
      emit (Call 0 data);;
      first ← gets handler_Message;
      hs ← gets handlers;
      handled ← range_handlers 1 hs data (first data);
      when (negb handled) (emit (Log Warn "unhandled message"))
  end.

(** The [for { select { ... } }] of [handle], on what its selects receive,
    oldest first. *)
Fixpoint handle (evs : list Select) : M Ctx Outcome :=
  match evs with
  | [] => mret Waiting
  | Bytes raw :: evs => on_bytes raw;; handle evs
  | Cancel err :: _ => mret (Returned (Some err))
  | Shutdown :: _ =>
      emit (Destroy "connection shutdown");;
      mret (Returned None)
  | Tick ping_err :: evs =>
      emit Ping;;
      match ping_err with
      | Some err => mret (Returned (Some err))
      | None => handle evs
      end
  end.
End handle.

(** ** Reading a trace *)

Definition calls (t : list Effect) : list (nat * WebSocketMessage) :=
  omap (λ e, match e with
             | Call i data => Some (i, data)
             | _ => None
             end) t.

Definition logged_payloads (t : list Effect) : list (list Byte.byte) :=
  omap (λ e, match e with
             | LogReceived _ payload => Some payload
             | _ => None
             end) t.

Definition destroyed (t : list Effect) : list string :=
  omap (λ e, match e with
             | Destroy reason => Some reason
             | _ => None
             end) t.

Definition warned (t : list Effect) : list string :=
  omap (λ e, match e with
             | Log Warn msg => Some msg
             | _ => None
             end) t.

(** The number of the first handler of [hs] that handles [data], counting
    from [i]; [None] if none does. *)
Fixpoint first_handling (i : nat) (hs : list (WebSocketMessage → bool))
    (data : WebSocketMessage) : option nat :=
  match hs with
  | [] => None
  | handler :: hs =>
      if handler data then Some i else first_handling (S i) hs data
  end.

(** [ev] ends the loop. *)
Definition ends (ev : Select) : bool :=
  match ev with
  | Cancel _ | Shutdown | Tick (Some _) => true
  | Bytes _ | Tick None => false
  end.

(** What the loop returns when [ev] ends it. *)
Definition result (ev : Select) : option GoError :=
  match ev with
  | Cancel err | Tick (Some err) => Some err
  | _ => None
  end.

End dispatch.

(** * [server/internal/websocket/manager.go]: two reactions of [Start] *)
Module reactions.

(** The event names the two reactions pass on. *)
Inductive event_name := CONTROL_HOST | CLIPBOARD_UPDATED.

(** A session as the reactions read it: [ID()] and
    [Profile().CanAccessClipboard]. *)
Record Session := {
  ID : string;
  CanAccessClipboard : bool;
}.

(** [message.ControlHost]. *)
Record ControlHost := {
  ControlID : string;
  HasHost : bool;
  HostID : string;
}.

Inductive Effect :=
| Log (lvl : Level) (msg : string)
| Broadcast (ev : event_name) (payload : ControlHost)
| ClipboardGetText
| Send (to : string) (ev : event_name) (text : string).

Definition emit (e : Effect) : M (list Effect) unit :=
  modify (λ t, t ++ [e]).

(** The reaction registered with [sessions.OnHostChanged]; [host] is
    [None] for the nil session. *)
Definition OnHostChanged (session : Session) (host : option Session)
    : M (list Effect) unit :=
  let payload :=
    {| ControlID := ID session;
       HasHost := bool_decide (is_Some host);
       HostID := match host with
                 | Some h => ID h
                 | None => ""
                 end |} in
  emit (Broadcast CONTROL_HOST payload);;
  emit (Log Info "session host changed").

(** The reaction registered with [desktop.OnClipboardUpdated].  [host] is
    what [sessions.GetHost()] returns ([None] when there is no host) and
    [clipboard] what [desktop.ClipboardGetText()] returns: an error, or the
    text. *)
Definition OnClipboardUpdated (host : option Session) (clipboard : string + string)
    : M (list Effect) unit :=
  match host with
  | None => mret tt
  | Some host =>
      if negb (CanAccessClipboard host) then mret tt
      else
        emit (Log Info "sync clipboard");;
        emit ClipboardGetText;;
        match clipboard with
        | inl _ => emit (Log Error "could not get clipboard content")
        | inr text => emit (Send (ID host) CLIPBOARD_UPDATED text)
        end
  end.

Definition sends (t : list Effect) : list (string * string) :=
  omap (λ e, match e with
             | Send to _ text => Some (to, text)
             | _ => None
             end) t.

Definition clipboard_reads (t : list Effect) : list unit :=
  omap (λ e, match e with
             | ClipboardGetText => Some tt
             | _ => None
             end) t.

End reactions.

(** * [internal/websocket/handler/system.go]: [systemAdmin] *)
Module admin.

(** [types.ScreenConfiguration]: a size and the rates it can run at, in
    the order the [range] visits them. *)
Record ScreenConfiguration := {
  Width : Z;
  Height : Z;
  Rates : list Z;
}.

(** [message.BroadcastStatus] and [message.SystemAdmin]. *)
Record BroadcastStatus := {
  IsActive : bool;
  URL : string;
}.

Record SystemAdmin := {
  ScreenSizesList : list handler.ScreenSize;
  Status : BroadcastStatus;
}.

Inductive Effect :=
| Send (to : string) (payload : SystemAdmin).

(** What [MessageHandlerCtx] reaches here: [desktop.ScreenConfigurations()]
    in the order the [range] visits them, [capture.BroadcastEnabled()] and
    [capture.BroadcastUrl()]. *)
Record MessageHandlerCtx := {
  ScreenConfigurations : list ScreenConfiguration;
  BroadcastEnabled : bool;
  BroadcastUrl : string;
  effects : list Effect;
}.

Definition emit (e : Effect) : M MessageHandlerCtx unit :=
  modify (λ h, {| ScreenConfigurations := ScreenConfigurations h;
                  BroadcastEnabled := BroadcastEnabled h;
                  BroadcastUrl := BroadcastUrl h;
                  effects := effects h ++ [e] |}).

(** The two nested [range] loops. *)
Fixpoint range_rates (size : ScreenConfiguration) (rates : list Z)
    (screenSizesList : list handler.ScreenSize) : list handler.ScreenSize :=
  match rates with
  | [] => screenSizesList
  | fps :: rates =>
      range_rates size rates
        (screenSizesList ++ [{| handler.Width := Width size;
                                handler.Height := Height size;
                                handler.Rate := fps |}])
  end.

Fixpoint range_configurations (configs : list ScreenConfiguration)
    (screenSizesList : list handler.ScreenSize) : list handler.ScreenSize :=
  match configs with
  | [] => screenSizesList
  | size :: configs =>
      range_configurations configs (range_rates size (Rates size) screenSizesList)
  end.

(** [send_err] is what [session.Send] returns. *)
Definition systemAdmin (session : handler.Session) (send_err : option string)
    : M MessageHandlerCtx (option string) :=
  configs ← gets ScreenConfigurations;
  let screenSizesList := range_configurations configs [] in
  active ← gets BroadcastEnabled;
  url ← gets BroadcastUrl;
  emit (Send (handler.ID session)
          {| ScreenSizesList := screenSizesList;
             Status := {| IsActive := active; URL := url |} |});;
  mret send_err.

End admin.

(** * [internal/webrtc/manager.go]: [Start] *)
Module mux.

(** The two ports of [config.WebRTC] that [Start] reads. *)
Record Config := {
  TCPMux : Z;
  UDPMux : Z;
}.

Inductive Effect :=
| CurImageStart
| ListenTCP (port : Z)
| ListenUDP (port : Z)
| Log (lvl : Level) (msg : string).

(** The manager's two multiplexers (nil, or the one made for the listener
    on a port) and what [Start] has done. *)
Record Manager := {
  tcpMux : option Z;
  udpMux : option Z;
  trace : list Effect;
}.

Definition emit (e : Effect) : M Manager unit :=
  modify (λ m, {| tcpMux := tcpMux m; udpMux := udpMux m;
                  trace := trace m ++ [e] |}).

(** [tcp_err] and [udp_err] are what [net.ListenTCP] and [net.ListenUDP]
    return; [logger.Panic()] panics. *)
Definition Start (config : Config) (tcp_err udp_err : option string)
    : M Manager unit :=
  emit CurImageStart;;
  when (bool_decide (TCPMux config > 0))
    (emit (ListenTCP (TCPMux config));;
     match tcp_err with
     | Some _ => panic
     | None => modify (λ m, {| tcpMux := Some (TCPMux config);
                               udpMux := udpMux m; trace := trace m |})
     end);;
  when (bool_decide (UDPMux config > 0))
    (emit (ListenUDP (UDPMux config));;
     match udp_err with
     | Some _ => panic
     | None => modify (λ m, {| tcpMux := tcpMux m;
                               udpMux := Some (UDPMux config);
                               trace := trace m |})
     end);;
  emit (Log Info "webrtc starting").

Definition New : Manager := {| tcpMux := None; udpMux := None; trace := [] |}.

End mux.

(** * Properties *)

(** Unfolding the monad. *)
Ltac run_M :=
  cbv [mbind M_bind mret M_ret get gets modify when panic].

(** ** The system-init handler *)
Section handler_facts.
Import handler.

(** C10. When the desktop reports no screen size, [systemInit] returns a
    nil error and its only effect is one debug log line: nothing is sent
    to the requesting session, whatever the send would have returned. *)
Theorem systemInit_without_screen_size
    (h : MessageHandlerCtx) (session : Session) (send_err : option string) :
  screen_size h = None →
  ∃ h', systemInit session send_err h = Some (None, h')
    ∧ effects h' = effects h ++ [Log Debug "could not get screen size"]
    ∧ (∀ to v, Send to v ∈ effects h' → Send to v ∈ effects h)
    ∧ host h' = host h ∧ members h' = members h ∧ screen_size h' = None.
Proof.
  intros Hsize. unfold systemInit, emit. run_M. rewrite Hsize.
  eexists. split; [reflexivity|]. simpl. repeat split; try done.
  intros to v [Hin|Hin]%elem_of_app; [done|].
  apply list_elem_of_singleton in Hin. discriminate.
Qed.

Lemma systemInit_without_screen_size_witness :
  let h := {| host := None; members := []; screen_size := None; effects := [] |} in
  screen_size h = None
  ∧ ∃ h', systemInit {| ID := "a"; Name := "A"; Admin := false |} None h
            = Some (None, h')
      ∧ effects h' = [Log Debug "could not get screen size"].
Proof.
  intros h. split; [reflexivity|].
  destruct (systemInit_without_screen_size h
              {| ID := "a"; Name := "A"; Admin := false |} None)
    as (h' & Hrun & Heff & _); [reflexivity|].
  exists h'. split; [exact Hrun | exact Heff].
Defined.

End handler_facts.

(** ** The signaling manager *)
Section websocket_facts.
Import websocket.

Ltac run_ws :=
  cbv [OnSettingsChanged startInactiveCursors stopInactiveCursors
       loop_tick loop_shutdown PopCursors fresh emit connect Start_tail];
  run_M.

Lemma disconnects_app t1 t2 :
  disconnects (t1 ++ t2) = disconnects t1 ++ disconnects t2.
Proof. apply omap_app. Qed.

Lemma broadcasts_app t1 t2 :
  broadcasts (t1 ++ t2) = broadcasts t1 ++ broadcasts t2.
Proof. apply omap_app. Qed.

Lemma warnings_app t1 t2 :
  warnings (t1 ++ t2) = warnings t1 ++ warnings t2.
Proof. apply omap_app. Qed.

(** C8. Once a connection has been accepted and its dispatch loop ends,
    [connect] reports exactly one disconnect of that session to the
    registry: not delayed for a nil termination and for a close error
    with code normal-closure or going-away, delayed for a close error
    with any other code and for any error that is not a close error. *)
Theorem connect_disconnect_classification
    (m : WebSocketManagerCtx) (session : Session) (handle_ret : option GoError) :
  CanConnect session = true →
  IsConnected session = false ∨ MercifulReconnect (settings m) = true →
  ∃ m', connect (inr session) handle_ret m = Some (tt, m')
    ∧ disconnects (trace m') =
        disconnects (trace m) ++
        [(SessionID session,
          match handle_ret with
          | None => false
          | Some (CloseError code _) =>
              if decide (code = CloseNormalClosure ∨ code = CloseGoingAway)
              then false else true
          | Some (OtherError _) => true
          end)].
Proof.
  intros Hcan Hadm. run_ws. rewrite Hcan. simpl.
  assert (IsConnected session && negb (MercifulReconnect (settings m)) = false)
    as -> by (destruct Hadm as [-> | ->]; [done | apply andb_false_r]).
  destruct (IsConnected session); simpl;
    (destruct handle_ret as [[code text|msg]|]; simpl;
     [ repeat case_bool_decide; case_decide; simpl;
       (eexists; split; [reflexivity|]; simpl;
        rewrite <- ?app_assoc, !disconnects_app; simpl;
        try rewrite app_nil_r; try reflexivity; lia)
     | eexists; split; [reflexivity|]; simpl;
       rewrite <- ?app_assoc, !disconnects_app; simpl; reflexivity
     | eexists; split; [reflexivity|]; simpl;
       rewrite <- ?app_assoc, !disconnects_app; simpl; reflexivity ]).
Qed.

Lemma connect_disconnect_classification_witness :
  let m := init {| InactiveCursors := false; MercifulReconnect := false |} in
  let session := {| SessionID := "a"; CanConnect := true; IsConnected := false |} in
  CanConnect session = true
  ∧ (IsConnected session = false ∨ MercifulReconnect (settings m) = true)
  ∧ ∃ m', connect (inr session) (Some (CloseError 1006 "")) m = Some (tt, m')
      ∧ disconnects (trace m') = [("a", true)].
Proof.
  intros m session. split; [reflexivity|]. split; [left; reflexivity|].
  destruct (connect_disconnect_classification m session
              (Some (CloseError 1006 ""))) as (m' & Hrun & Hd);
    [reflexivity | left; reflexivity |].
  exists m'. split; [exact Hrun | exact Hd].
Defined.

(** *** Starting and stopping the aggregation loop *)

Lemma startInactiveCursors_running (m : WebSocketManagerCtx) :
  is_Some (shutdownInactiveCursors m) →
  ∃ m', startInactiveCursors m = Some (tt, m')
    ∧ loops m' = loops m ∧ chans m' = chans m
    ∧ shutdownInactiveCursors m' = shutdownInactiveCursors m
    ∧ trace m' = trace m ++ [Log Warn "inactive cursors handler already running"].
Proof.
  intros [c Hc]. run_ws. rewrite Hc. eexists. split; [reflexivity|]. done.
Qed.

Lemma startInactiveCursors_inv (m m' : WebSocketManagerCtx) :
  startInactiveCursors m = Some (tt, m') →
  ∀ c, chans m !! c = Some false → chans m' !! c ≠ Some true.
Proof.
  run_ws. destruct (shutdownInactiveCursors m); intros [= <-] c Hc; simpl.
  - by rewrite Hc.
  - destruct (decide (next m = c)) as [->|Hne].
    + by rewrite lookup_insert_eq.
    + by rewrite lookup_insert_ne, Hc.
Qed.

Lemma stopInactiveCursors_inv (m m' : WebSocketManagerCtx) :
  stopInactiveCursors m = Some (tt, m') →
  loops m' = loops m ∧ trace m' = trace m.
Proof.
  run_ws. destruct (shutdownInactiveCursors m) as [ch|]; [|by intros [= <-]].
  destruct (chans m !! ch) as [[]|]; try done. by intros [= <-].
Qed.

(** C6, as the code has it. When the settings-changed reaction fires with
    InactiveCursors true before and after, neither the start nor the stop
    routine is called: the running loops, the shutdown channel and the
    warnings logged stay as they were (the reaction only broadcasts the
    settings and logs at info level).  The reaction changes the set of
    running loops only on the false→true edge and closes a shutdown
    channel only on the true→false edge.  The warning belongs to the
    start routine: called while the shutdown channel is set, it starts
    nothing and logs it. *)
Theorem settings_changed_edges
    (m : WebSocketManagerCtx) (session : Session) (new old : Settings) :
  (InactiveCursors new = true → InactiveCursors old = true →
   ∃ m', OnSettingsChanged session new old m = Some (tt, m')
     ∧ loops m' = loops m ∧ chans m' = chans m
     ∧ shutdownInactiveCursors m' = shutdownInactiveCursors m
     ∧ trace m' = trace m ++
         [Broadcast_SystemSettingsUpdate event.SYSTEM_SETTINGS (SessionID session) new;
          Log Info "settings changed"]
     ∧ warnings (trace m') = warnings (trace m))
  ∧ (∀ m', OnSettingsChanged session new old m = Some (tt, m') →
     (loops m' ≠ loops m →
      InactiveCursors old = false ∧ InactiveCursors new = true)
     ∧ ((∃ c, chans m !! c = Some false ∧ chans m' !! c = Some true) →
        InactiveCursors old = true ∧ InactiveCursors new = false))
  ∧ (is_Some (shutdownInactiveCursors m) →
     ∃ m', startInactiveCursors m = Some (tt, m')
       ∧ loops m' = loops m
       ∧ warnings (trace m') =
           warnings (trace m) ++ ["inactive cursors handler already running"]).
Proof.
  split; [|split].
  - intros Hnew Hold. unfold OnSettingsChanged. rewrite Hnew, Hold. simpl.
    run_ws. eexists. split; [reflexivity|]. simpl.
    rewrite <- app_assoc. repeat split; try done.
    rewrite warnings_app. simpl. by rewrite app_nil_r.
  - intros m'. unfold OnSettingsChanged.
    destruct (InactiveCursors new) eqn:Hnew, (InactiveCursors old) eqn:Hold;
      simpl; unfold when.
    + run_ws. intros [= <-]. simpl. split; [done|].
      intros (c & Hc & Hc'). congruence.
    + intros Hrun. split; [done|]. intros (c & Hc & Hc').
      revert Hrun. unfold mbind, M_bind at 1.
      destruct (startInactiveCursors m) as [[[] m1]|] eqn:Hstart; [|done].
      run_ws. intros [= <-]. simpl in Hc'.
      exfalso. by eapply startInactiveCursors_inv.
    + intros Hrun. split; [|done]. intros Hl. exfalso. apply Hl.
      revert Hrun. unfold mbind, M_bind at 1 2. simpl.
      destruct (stopInactiveCursors m) as [[[] m1]|] eqn:Hstop; [|done].
      apply stopInactiveCursors_inv in Hstop as [Hl1 _].
      run_ws. by intros [= <-].
    + run_ws. intros [= <-]. simpl. split; [done|].
      intros (c & Hc & Hc'). congruence.
  - intros Hrun. destruct (startInactiveCursors_running m Hrun)
      as (m' & Hstart & Hl & _ & _ & Ht).
    exists m'. repeat split; try done.
    rewrite Ht, warnings_app. done.
Qed.

Lemma settings_changed_edges_witness :
  let on := {| InactiveCursors := true; MercifulReconnect := false |} in
  let session := {| SessionID := "a"; CanConnect := true; IsConnected := true |} in
  ∃ m, Start_tail (init on) = Some (tt, m)
    ∧ size (loops m) = 1%nat
    ∧ is_Some (shutdownInactiveCursors m)
    ∧ (∃ m', OnSettingsChanged session on on m = Some (tt, m')
         ∧ loops m' = loops m
         ∧ warnings (trace m') = warnings (trace m))
    ∧ (∃ m', startInactiveCursors m = Some (tt, m')
         ∧ loops m' = loops m
         ∧ warnings (trace m') =
             warnings (trace m) ++ ["inactive cursors handler already running"]).
Proof.
  intros on session. eexists. split; [vm_compute; reflexivity|].
  split; [vm_compute; reflexivity|]. split; [eexists; reflexivity|].
  match goal with
  | |- (∃ m', OnSettingsChanged _ _ _ ?m = _ ∧ _) ∧ _ =>
      destruct (settings_changed_edges m session on on) as (Hsame & _ & Hwarn)
  end.
  split.
  - destruct Hsame as (m' & Hrun & Hl & _ & _ & _ & Hw); [reflexivity..|].
    exists m'. done.
  - destruct Hwarn as (m' & Hrun & Hl & Hw); [eexists; reflexivity|].
    exists m'. done.
Defined.

(** With one loop running and InactiveCursors true before and after,
    the reaction starts no second loop and one loop remains, but no
    warning is logged. *)
Lemma settings_true_to_true_logs_no_warning :
  let on := {| InactiveCursors := true; MercifulReconnect := false |} in
  let session := {| SessionID := "a"; CanConnect := true; IsConnected := true |} in
  ∃ m m', Start_tail (init on) = Some (tt, m)
    ∧ OnSettingsChanged session on on m = Some (tt, m')
    ∧ size (loops m) = 1%nat ∧ size (loops m') = 1%nat
    ∧ trace m' = trace m ++
        [Broadcast_SystemSettingsUpdate event.SYSTEM_SETTINGS "a" on;
         Log Info "settings changed"]
    ∧ ¬ (∃ msg, Log Warn msg ∈ trace m').
Proof.
  intros on session. eexists. eexists.
  split; [vm_compute; reflexivity|]. split; [vm_compute; reflexivity|].
  split; [vm_compute; reflexivity|]. split; [vm_compute; reflexivity|].
  split; [vm_compute; reflexivity|].
  intros [msg Hin]. simpl in Hin.
  repeat (apply elem_of_cons in Hin as [Hin|Hin]; [discriminate|]).
  by apply elem_of_nil in Hin.
Qed.

(** *** The aggregation loop *)

Lemma range_cursors_spec (c : gmap string (list Cursor)) :
  NoDup (ID <$> range_cursors c)
  ∧ length (range_cursors c) = size c
  ∧ ∀ id pts, {| ID := id; Cursors := pts |} ∈ range_cursors c ↔ c !! id = Some pts.
Proof.
  unfold range_cursors. split; [|split].
  - rewrite <- list_fmap_compose.
    replace (ID ∘ _) with (@fst string (list Cursor)) by done.
    apply NoDup_fst_map_to_list.
  - by rewrite length_fmap, length_map_to_list.
  - intros id pts. rewrite list_elem_of_fmap. split.
    + intros ([id' pts'] & [= -> ->] & Hin). by apply elem_of_map_to_list in Hin.
    + intros Hin. exists (id, pts). split; [done|].
      by apply elem_of_map_to_list.
Qed.

(** One tick of a running loop, on the buffers [c]. *)
Lemma loop_tick_spec (g : nat) (m : WebSocketManagerCtx) (lastEmpty : bool)
    (c : gmap string (list Cursor)) :
  loops m !! g = Some lastEmpty →
  ∃ m', (accumulate c;; loop_tick g) m = Some (tt, m')
    ∧ cursors m' = ∅
    ∧ loops m' !! g = Some (bool_decide (c = ∅))
    ∧ trace m' = trace m ++
        (if bool_decide (c = ∅) && lastEmpty then []
         else [InactiveCursorsBroadcast event.SESSION_CURSORS (range_cursors c)]).
Proof.
  intros Hg. unfold accumulate. run_ws. simpl. rewrite Hg.
  change (cursors (set_cursors c m)) with c.
  assert (bool_decide (size c = 0%nat) = bool_decide (c = ∅)) as ->.
  { apply bool_decide_ext. apply map_size_empty_iff. }
  destruct (bool_decide (c = ∅)) eqn:Hc, lastEmpty; simpl;
    eexists; (split; [reflexivity|]); simpl;
    rewrite ?app_nil_r, ?lookup_insert_eq; done.
Qed.

(** C4. A running aggregation loop ticks on the buffers [prev] and then
    on the buffers [cur].  Each tick pops the registry's buffers and
    leaves them cleared.  The second tick broadcasts nothing when both
    [cur] and [prev] are empty, and otherwise broadcasts exactly once, a
    payload with one entry per session of [cur], carrying that session's
    points, and no other entry.  So two empty ticks in a row broadcast at
    most once; and the first tick of a loop just started always
    broadcasts. *)
Theorem inactive_cursors_tick (g : nat) (m : WebSocketManagerCtx)
    (lastEmpty : bool) (prev cur : gmap string (list Cursor)) :
  loops m !! g = Some lastEmpty →
  ∃ m1 m2,
    (accumulate prev;; loop_tick g) m = Some (tt, m1)
    ∧ (accumulate cur;; loop_tick g) m1 = Some (tt, m2)
    ∧ ticks g [prev; cur] m = Some (tt, m2)
    ∧ cursors m1 = ∅ ∧ cursors m2 = ∅
    ∧ broadcasts (trace m2) =
        broadcasts (trace m1) ++
        (if decide (cur = ∅ ∧ prev = ∅) then [] else [range_cursors cur])
    ∧ NoDup (ID <$> range_cursors cur)
    ∧ (∀ id pts, {| ID := id; Cursors := pts |} ∈ range_cursors cur
                 ↔ cur !! id = Some pts)
    ∧ (cur = ∅ → prev = ∅ →
       length (broadcasts (trace m2)) ≤ S (length (broadcasts (trace m))))%nat
    ∧ (lastEmpty = false →
       broadcasts (trace m1) = broadcasts (trace m) ++ [range_cursors prev]).
Proof.
  intros Hg.
  destruct (loop_tick_spec g m lastEmpty prev Hg) as (m1 & Hrun1 & Hc1 & Hg1 & Ht1).
  destruct (loop_tick_spec g m1 _ cur Hg1) as (m2 & Hrun2 & Hc2 & Hg2 & Ht2).
  exists m1, m2. split; [done|]. split; [done|]. split.
  { revert Hrun1 Hrun2. simpl. unfold mbind, M_bind.
    destruct (accumulate prev m) as [[[] m0]|]; [|done].
    intros ->. destruct (accumulate cur m1) as [[[] m0']|]; [|done].
    intros ->. done. }
  split; [done|]. split; [done|].
  destruct (range_cursors_spec cur) as (Hnd & _ & Hin).
  split; [|split; [done|split; [done|split]]].
  - rewrite Ht2, broadcasts_app. f_equal.
    destruct (decide (cur = ∅ ∧ prev = ∅)) as [[-> ->]|Hne].
    + by rewrite !bool_decide_eq_true_2.
    + destruct (bool_decide (cur = ∅)) eqn:Hcur; [|done].
      destruct (bool_decide (prev = ∅)) eqn:Hprev; [|done].
      apply bool_decide_eq_true in Hcur, Hprev. tauto.
  - intros -> ->. rewrite Ht2, Ht1, !broadcasts_app, !length_app.
    rewrite !bool_decide_eq_true_2 by done. simpl.
    destruct lastEmpty; simpl; lia.
  - intros ->. rewrite Ht1, broadcasts_app, andb_false_r. done.
Qed.

Lemma inactive_cursors_tick_witness :
  let on := {| InactiveCursors := true; MercifulReconnect := false |} in
  let moved : gmap string (list Cursor) := {[ "a" := [{| X := 1; Y := 2 |}] ]} in
  ∃ m, Start_tail (init on) = Some (tt, m)
    ∧ loops m !! 1%nat = Some false
    ∧ ∃ m2, ticks 1 [∅; moved] m = Some (tt, m2)
        ∧ cursors m2 = ∅
        ∧ broadcasts (trace m2) = [[]; range_cursors moved].
Proof.
  intros on moved. eexists. split; [vm_compute; reflexivity|].
  split; [vm_compute; reflexivity|].
  match goal with
  | |- ∃ m2, ticks _ _ ?m = _ ∧ _ =>
      destruct (inactive_cursors_tick 1 m false ∅ moved)
        as (m1 & m2 & _ & _ & Hrun & _ & Hc & Hb & _ & _ & _ & Hfirst);
        [vm_compute; reflexivity|]
  end.
  exists m2. split; [exact Hrun|]. split; [exact Hc|].
  rewrite Hb, Hfirst by reflexivity.
  rewrite decide_False; [reflexivity|].
  intros [Hm _]. apply (f_equal (λ c : gmap string (list Cursor), c !! "a")) in Hm.
  vm_compute in Hm. discriminate.
Defined.

End websocket_facts.

(** ** The peer-connection manager *)
Section webrtc_facts.
Import webrtc.

Ltac run_rtc :=
  cbv [OnOpen OnClose cursorImage cursorPosition curImage_AddListener
       curPosition_AddListener curImage_RemoveListener
       curPosition_RemoveListener OnNegotiationNeeded CreateOffer
       CreatePeer orfail on fresh emit record];
  run_M.

Lemma sent_app t1 t2 : sent (t1 ++ t2) = sent t1 ++ sent t2.
Proof. apply omap_app. Qed.

Lemma offers_sent_app t1 t2 :
  offers_sent (t1 ++ t2) = offers_sent t1 ++ offers_sent t2.
Proof. apply omap_app. Qed.

Lemma offers_created_app t1 t2 :
  offers_created (t1 ++ t2) = offers_created t1 ++ offers_created t2.
Proof. apply omap_app. Qed.

Lemma sinks_started_app t1 t2 :
  sinks_started (t1 ++ t2) = sinks_started t1 ++ sinks_started t2.
Proof. apply omap_app. Qed.

(** *** Renegotiation *)

(** C2, as the code has it. Each firing of the negotiation-needed
    reaction on an existing connection returns.  When the signaling state
    is not stable, no offer is created and nothing is sent.  When it is
    stable, one offer creation is attempted; if it succeeds, that offer
    is sent to the session as one SIGNAL_OFFER message, and if it fails
    nothing is sent.  So an offer is sent only when the signaling state
    was stable. *)
Theorem OnNegotiationNeeded_policy (m : WebRTCManagerCtx) (p : nat)
    (connection : Peer) (session : Session) (offer_ret : error + SessionDescription) :
  peers m !! p = Some connection →
  ∃ m', OnNegotiationNeeded p session offer_ret m = Some (tt, m')
    ∧ peers m' = peers m
    ∧ (signalingState connection ≠ SignalingStateStable →
       offers_created (trace m') = offers_created (trace m)
       ∧ offers_sent (trace m') = offers_sent (trace m))
    ∧ (signalingState connection = SignalingStateStable →
       offers_created (trace m') = offers_created (trace m) ++ [p]
       ∧ offers_sent (trace m') =
           offers_sent (trace m) ++
           match offer_ret with
           | inr offer => [(ID session, event.SIGNAL_OFFER, SDP offer)]
           | inl _ => []
           end)
    ∧ (offers_sent (trace m') ≠ offers_sent (trace m) →
       signalingState connection = SignalingStateStable).
Proof.
  intros Hp. run_rtc. simpl. rewrite Hp.
  destruct (decide (signalingState connection = SignalingStateStable)) as [Hst|Hst].
  - rewrite bool_decide_eq_false_2 by (intros ?; done).
    destruct offer_ret as [err|offer]; eexists; (split; [reflexivity|]); simpl;
      rewrite <- !app_assoc, !offers_created_app, !offers_sent_app; simpl;
      rewrite ?app_nil_r; done.
  - rewrite bool_decide_eq_true_2 by done.
    eexists; (split; [reflexivity|]); simpl.
    rewrite <- !app_assoc, !offers_created_app, !offers_sent_app; simpl.
    rewrite ?app_nil_r. done.
Qed.

Lemma OnNegotiationNeeded_policy_witness :
  ∃ m, CreatePeer viewer "cam1" (all_succeed "v=0") (New example_env)
         = Some (inr {| SDP := "v=0" |}, m)
    ∧ ∃ connection, peers m !! 0%nat = Some connection
    ∧ signalingState connection = SignalingStateStable
    ∧ ∃ m', OnNegotiationNeeded 0 viewer (inr {| SDP := "v=1" |}) m = Some (tt, m')
        ∧ offers_sent (trace m') = [("viewer", event.SIGNAL_OFFER, "v=1")].
Proof.
  eexists. split; [vm_compute; reflexivity|].
  eexists. split; [vm_compute; reflexivity|]. split; [reflexivity|].
  match goal with
  | |- ∃ m', OnNegotiationNeeded _ _ _ ?m = _ ∧ _ =>
      destruct (OnNegotiationNeeded_policy m 0 _ viewer (inr {| SDP := "v=1" |})
                  ltac:(vm_compute; reflexivity))
        as (m' & Hrun & _ & _ & Hstable & _)
  end.
  exists m'. split; [exact Hrun|].
  destruct Hstable as [_ ->]; reflexivity.
Defined.

(** In the stable state, when the offer cannot be created, the
    reaction sends nothing. *)
Lemma stable_negotiation_without_offer :
  ∃ m connection m',
    CreatePeer viewer "cam1" (all_succeed "v=0") (New example_env)
      = Some (inr {| SDP := "v=0" |}, m)
    ∧ peers m !! 0%nat = Some connection
    ∧ signalingState connection = SignalingStateStable
    ∧ OnNegotiationNeeded 0 viewer (inl (Err "closed")) m = Some (tt, m')
    ∧ offers_sent (trace m') = offers_sent (trace m)
    ∧ trace m' = trace m ++ [Log Warn "negotiation is needed";
                             PeerCreateOffer 0 false;
                             Log Error "sdp offer failed"].
Proof.
  do 3 eexists. split; [vm_compute; reflexivity|].
  split; [vm_compute; reflexivity|]. split; [reflexivity|].
  split; [vm_compute; reflexivity|]. split; reflexivity.
Qed.

(** *** Creating a peer *)

Lemma CreatePeer_all_succeed (m : WebRTCManagerCtx) (session : Session)
    (videoID : string) (o : Outcomes) (videoStream : Stream)
    (offer : SessionDescription) :
  Video (env m) !! videoID = Some videoStream →
  newPeerConnection_err o = None → newAudioTrack_err o = None →
  addAudioTrack_err o = None → newVideoTrack_err o = None →
  addVideoTrack_err o = None → CreateDataChannel_err o = None →
  CreateOffer_ret o = inr offer →
  ∃ m', CreatePeer session videoID o m = Some (inr offer, m')
    ∧ peers m' =
        <[next m := {| codecs := [StreamCodec (Audio (env m));
                                  StreamCodec videoStream];
                       localTracks := [Audio (env m); videoStream];
                       dataChannels := ["data"];
                       registered := wired (ICETrickle (env m));
                       iceTrickle := ICETrickle (env m);
                       signalingState := SignalingStateStable |}]> (peers m).
Proof.
  intros Hv H1 H2 H3 H4 H5 H6 H7. run_rtc. simpl.
  rewrite Hv, H1, H2, H3, H4, H5, H6, H7.
  destruct (ICETrickle (env m)); simpl;
    (eexists; split; [reflexivity|]); simpl;
    rewrite !alter_insert_eq; reflexivity.
Qed.

Lemma CreatePeer_offer_inv (m m' : WebRTCManagerCtx) (session : Session)
    (videoID : string) (o : Outcomes) (offer : SessionDescription) :
  CreatePeer session videoID o m = Some (inr offer, m') →
  is_Some (Video (env m) !! videoID)
  ∧ newPeerConnection_err o = None ∧ newAudioTrack_err o = None
  ∧ addAudioTrack_err o = None ∧ newVideoTrack_err o = None
  ∧ addVideoTrack_err o = None ∧ CreateDataChannel_err o = None
  ∧ CreateOffer_ret o = inr offer.
Proof.
  run_rtc. simpl.
  destruct (Video (env m) !! videoID); [|done].
  destruct (newPeerConnection_err o); [done|].
  destruct (ICETrickle (env m)); simpl;
    (destruct (newAudioTrack_err o); [done|]);
    (destruct (addAudioTrack_err o); [done|]);
    (destruct (newVideoTrack_err o); [done|]);
    (destruct (addVideoTrack_err o); [done|]);
    (destruct (CreateDataChannel_err o); [done|]);
    (destruct (CreateOffer_ret o); [done|]);
    intros [= <- <-]; done.
Qed.

(** C3, as the code has it. [CreatePeer] with a video id that the
    capture registry does not have returns [ErrWebRTCVideoNotFound]; it
    only logs, and builds nothing: the peers built so far, the slots and
    the cursor listeners are as before.  With a video id that exists, and
    when none of the construction steps fails, it returns the offer that
    was created, for a new connection with the audio and the video codec,
    one audio track and one video track bound to the two streams, and one
    data channel "data"; the connections built before are as they were.
    It returns an offer in no other case. *)
Theorem CreatePeer_video (m : WebRTCManagerCtx) (session : Session)
    (videoID : string) (o : Outcomes) :
  (Video (env m) !! videoID = None →
   ∃ m', CreatePeer session videoID o m = Some (inl ErrWebRTCVideoNotFound, m')
     ∧ trace m' = trace m ++ [Log Info "creating webrtc peer"]
     ∧ peers m' = peers m ∧ next m' = next m
     ∧ camStop m' = camStop m ∧ micStop m' = micStop m
     ∧ curImage m' = curImage m ∧ curPosition m' = curPosition m)
  ∧ (∀ videoStream offer,
     Video (env m) !! videoID = Some videoStream →
     newPeerConnection_err o = None → newAudioTrack_err o = None →
     addAudioTrack_err o = None → newVideoTrack_err o = None →
     addVideoTrack_err o = None → CreateDataChannel_err o = None →
     CreateOffer_ret o = inr offer →
     ∃ m' connection,
       CreatePeer session videoID o m = Some (inr offer, m')
       ∧ peers m' = <[next m := connection]> (peers m)
       ∧ codecs connection = [StreamCodec (Audio (env m)); StreamCodec videoStream]
       ∧ localTracks connection = [Audio (env m); videoStream]
       ∧ dataChannels connection = ["data"]
       ∧ registered connection = wired (ICETrickle (env m))
       ∧ ∀ q, q ≠ next m → peers m' !! q = peers m !! q)
  ∧ (∀ m' offer,
     CreatePeer session videoID o m = Some (inr offer, m') →
     is_Some (Video (env m) !! videoID)
     ∧ newPeerConnection_err o = None ∧ newAudioTrack_err o = None
     ∧ addAudioTrack_err o = None ∧ newVideoTrack_err o = None
     ∧ addVideoTrack_err o = None ∧ CreateDataChannel_err o = None
     ∧ CreateOffer_ret o = inr offer).
Proof.
  split; [|split].
  - intros Hv. run_rtc. simpl. rewrite Hv.
    eexists. split; [reflexivity|]. done.
  - intros videoStream offer Hv H1 H2 H3 H4 H5 H6 H7.
    destruct (CreatePeer_all_succeed m session videoID o videoStream offer)
      as (m' & Hrun & Hp); try done.
    eexists m', _. split; [exact Hrun|]. split; [exact Hp|].
    repeat split; try done.
    intros q Hq. rewrite Hp. by apply lookup_insert_ne.
  - intros m' offer. apply CreatePeer_offer_inv.
Qed.

Lemma CreatePeer_video_witness :
  Video (env (New example_env)) !! "cam99" = None
  ∧ ∃ m', CreatePeer host "cam99" (all_succeed "v=1") (New example_env)
            = Some (inl ErrWebRTCVideoNotFound, m')
      ∧ peers m' = ∅.
Proof.
  split; [reflexivity|].
  destruct (CreatePeer_video (New example_env) host "cam99" (all_succeed "v=1"))
    as (Hnone & _ & _).
  destruct Hnone as (m' & Hrun & _ & Hpeers & _); [reflexivity|].
  exists m'. split; [exact Hrun | exact Hpeers].
Defined.

(** The scenario of the specification: viewer A asks for "cam1" and gets
    an offer; then B asks for "cam99", gets the stream-not-found error,
    and A's connection is as it was. *)
Example CreatePeer_scenario :
  ∃ mA mB connection,
    CreatePeer viewer "cam1" (all_succeed "v=0") (New example_env)
      = Some (inr {| SDP := "v=0" |}, mA)
    ∧ CreatePeer host "cam99" (all_succeed "v=1") mA
      = Some (inl ErrWebRTCVideoNotFound, mB)
    ∧ peers mA !! 0%nat = Some connection
    ∧ peers mB !! 0%nat = Some connection
    ∧ length (localTracks connection) = 2%nat
    ∧ dataChannels connection = ["data"].
Proof.
  do 3 eexists. split; [vm_compute; reflexivity|].
  split; [vm_compute; reflexivity|]. split; [vm_compute; reflexivity|].
  split; [vm_compute; reflexivity|]. split; reflexivity.
Qed.

(** The video id exists, but the connection cannot be built, and
    [CreatePeer] returns that error and no offer. *)
Lemma CreatePeer_existing_video_without_offer :
  let o := {| newPeerConnection_err := Some (Err "no connection");
              newAudioTrack_err := None; addAudioTrack_err := None;
              newVideoTrack_err := None; addVideoTrack_err := None;
              CreateDataChannel_err := None;
              CreateOffer_ret := inr {| SDP := "v=0" |} |} in
  is_Some (Video example_env !! "cam1")
  ∧ ∃ m', CreatePeer viewer "cam1" o (New example_env)
            = Some (inl (Err "no connection"), m')
      ∧ peers m' = ∅
      ∧ ¬ ∃ offer m'', CreatePeer viewer "cam1" o (New example_env)
                        = Some (inr offer, m'').
Proof.
  intros o. split; [eexists; vm_compute; reflexivity|].
  eexists. split; [vm_compute; reflexivity|]. split; [reflexivity|].
  intros (offer & m'' & Hrun). vm_compute in Hrun. discriminate.
Qed.

(** *** The data channel and the cursor feeds *)

Lemma added_listener (l : gset nat) (p : nat) : p ∈ l ∪ {[p]}.
Proof. apply elem_of_union. right. by apply elem_of_singleton. Qed.

Lemma dropped_listener (l : gset nat) (p : nat) : p ∉ l ∖ {[p]}.
Proof. intros [_ Hn]%elem_of_difference. apply Hn. by apply elem_of_singleton. Qed.

Lemma sent_to_app p t1 t2 : sent_to p (t1 ++ t2) = sent_to p t1 ++ sent_to p t2.
Proof. apply omap_app. Qed.

(** What a call of a peer's listener sends to the peer [p]. *)
Lemma cursorImage_to p q entry err m :
  ∃ m', cursorImage q entry err m = Some (tt, m')
    ∧ curImage m' = curImage m ∧ curPosition m' = curPosition m
    ∧ sent_to p (trace m') =
        sent_to p (trace m) ++
        (if decide (q = p) then [CursorImageMessage entry] else []).
Proof.
  run_rtc. destruct err; simpl; (eexists; split; [reflexivity|]); simpl;
    rewrite <- ?app_assoc, sent_to_app; simpl;
    destruct (decide (q = p)); done.
Qed.

Lemma cursorPosition_to p q session x y err m :
  ∃ m', cursorPosition q session x y err m = Some (tt, m')
    ∧ curImage m' = curImage m ∧ curPosition m' = curPosition m
    ∧ sent_to p (trace m') =
        sent_to p (trace m) ++
        (if decide (q = p)
         then if IsHost session then [] else [CursorPositionMessage x y]
         else []).
Proof.
  run_rtc. destruct (IsHost session); simpl.
  { exists m. destruct (decide (q = p)); by rewrite app_nil_r. }
  destruct err; simpl; (eexists; split; [reflexivity|]); simpl;
    rewrite <- ?app_assoc, sent_to_app; simpl;
    destruct (decide (q = p)); done.
Qed.

(** A change reaches each listener once. *)
Lemma deliver_spec p (f : nat → M WebRTCManagerCtx unit)
    (msg : list DataMessage) ls :
  (∀ q m, ∃ m', f q m = Some (tt, m')
     ∧ curImage m' = curImage m ∧ curPosition m' = curPosition m
     ∧ sent_to p (trace m') =
         sent_to p (trace m) ++ (if decide (q = p) then msg else [])) →
  NoDup ls → ∀ m,
  ∃ m', deliver f ls m = Some (tt, m')
    ∧ curImage m' = curImage m ∧ curPosition m' = curPosition m
    ∧ sent_to p (trace m') =
        sent_to p (trace m) ++ (if decide (p ∈ ls) then msg else []).
Proof.
  intros Hf. induction 1 as [|q ls Hq Hnd IH]; intros m.
  - exists m. rewrite decide_False by apply not_elem_of_nil.
    by rewrite app_nil_r.
  - destruct (Hf q m) as (m1 & Hrun1 & Hi1 & Hp1 & Hs1).
    destruct (IH m1) as (m' & Hrun & Hi & Hp & Hs).
    exists m'. split; [simpl; unfold mbind, M_bind; by rewrite Hrun1|].
    split; [congruence|]. split; [congruence|].
    rewrite Hs, Hs1, <- app_assoc. f_equal.
    destruct (decide (q = p)) as [->|Hne].
    + rewrite decide_False by done. rewrite decide_True by left.
      by rewrite app_nil_r.
    + simpl. destruct (decide (p ∈ ls)) as [Hin|Hin].
      * rewrite decide_True by (by right). done.
      * rewrite decide_False; [done|].
        intros [->|?]%elem_of_cons; done.
Qed.

Lemma feed_spec p owner ev m :
  ∃ m', feed owner ev m = Some (tt, m')
    ∧ curImage m' = curImage m ∧ curPosition m' = curPosition m
    ∧ sent_to p (trace m') =
        sent_to p (trace m) ++
        deliveries (bool_decide (p ∈ curImage m))
          (bool_decide (p ∈ curPosition m)) (IsHost (owner p)) [ev].
Proof.
  destruct ev as [entry send_err|x y send_err]; cbv [feed]; run_M.
  - destruct (deliver_spec p (λ q, cursorImage q entry (send_err q))
                [CursorImageMessage entry] (elements (curImage m))) with m
      as (m' & Hrun & Hi & Hp & Hs).
    { intros q m0. apply cursorImage_to. }
    { apply NoDup_elements. }
    exists m'. split; [done|]. split; [done|]. split; [done|].
    rewrite Hs. f_equal. simpl.
    destruct (decide (p ∈ elements (curImage m))) as [Hin|Hin];
      rewrite elem_of_elements in Hin.
    + by rewrite bool_decide_eq_true_2.
    + by rewrite bool_decide_eq_false_2.
  - destruct (deliver_spec p (λ q, cursorPosition q (owner q) x y (send_err q))
                (if IsHost (owner p) then [] else [CursorPositionMessage x y])
                (elements (curPosition m))) with m
      as (m' & Hrun & Hi & Hp & Hs).
    { intros q m0.
      destruct (cursorPosition_to p q (owner q) x y (send_err q) m0)
        as (m1 & ? & ? & ? & Hs1).
      exists m1. split; [done|]. split; [done|]. split; [done|].
      rewrite Hs1. by destruct (decide (q = p)) as [->|]. }
    { apply NoDup_elements. }
    exists m'. split; [done|]. split; [done|]. split; [done|].
    rewrite Hs. f_equal. simpl.
    destruct (decide (p ∈ elements (curPosition m))) as [Hin|Hin];
      rewrite elem_of_elements in Hin.
    + rewrite bool_decide_eq_true_2 by done. by destruct (IsHost (owner p)).
    + by rewrite bool_decide_eq_false_2.
Qed.

Lemma deliveries_cons onImage onPosition isHost ev evs :
  deliveries onImage onPosition isHost (ev :: evs) =
  deliveries onImage onPosition isHost [ev]
  ++ deliveries onImage onPosition isHost evs.
Proof.
  unfold deliveries. simpl.
  destruct ev; [destruct onImage|destruct (onPosition && negb isHost)]; done.
Qed.

Lemma deliveries_deaf isHost evs : deliveries false false isHost evs = [].
Proof. induction evs as [|[] evs IH]; done. Qed.

Lemma feeds_spec p owner evs m :
  ∃ m', feeds owner evs m = Some (tt, m')
    ∧ curImage m' = curImage m ∧ curPosition m' = curPosition m
    ∧ sent_to p (trace m') =
        sent_to p (trace m) ++
        deliveries (bool_decide (p ∈ curImage m))
          (bool_decide (p ∈ curPosition m)) (IsHost (owner p)) evs.
Proof.
  revert m. induction evs as [|ev evs IH]; intros m.
  - exists m. by rewrite app_nil_r.
  - destruct (feed_spec p owner ev m) as (m1 & Hrun1 & Hi1 & Hp1 & Hs1).
    destruct (IH m1) as (m' & Hrun & Hi & Hp & Hs).
    exists m'. split; [simpl; unfold mbind, M_bind; by rewrite Hrun1|].
    split; [congruence|]. split; [congruence|].
    rewrite Hs, Hs1, Hi1, Hp1, <- app_assoc. f_equal.
    symmetry. apply deliveries_cons.
Qed.

(** C5, as the code has it.  When a data channel opens, the peer's two
    listeners are registered on the cursor feeds, and then, to this peer
    only and in this order: the current cursor image is sent if it can be
    obtained (exactly one message, none if [curImage.Get] fails), and the
    current cursor position is sent unless the session is the host
    (exactly one message, none for the host).  When no cursor change
    falls between the registration and these sends, they come before
    every change-driven message: of the changes that follow, the peer is
    sent every image change, and every position change unless its
    session is the host, after the initial messages.  When the channel
    closes both listeners are deregistered, nothing is sent, and the
    changes that follow bring the peer nothing. *)
Theorem OnOpen_initial_cursor (m : WebRTCManagerCtx) (p : nat)
    (session : Session) (image_err position_err : option string)
    (owner : nat → Session) (evs : list FeedEvent) :
  owner p = session →
  ∃ m' m2 m'' m3,
    OnOpen p session image_err position_err m = Some (tt, m')
    ∧ curImage m' = curImage m ∪ {[p]}
    ∧ curPosition m' = curPosition m ∪ {[p]}
    ∧ sent (trace m') =
        sent (trace m) ++
        (match curImage_Get (env m) with
         | Some entry => [(p, CursorImageMessage entry)]
         | None => []
         end) ++
        (if IsHost session then []
         else [(p, CursorPositionMessage (GetCursorPosition (env m)).1
                                         (GetCursorPosition (env m)).2)])
    ∧ feeds owner evs m' = Some (tt, m2)
    ∧ sent_to p (trace m2) =
        sent_to p (trace m') ++ change_driven (IsHost session) evs
    ∧ OnClose p m' = Some (tt, m'')
    ∧ (p ∉ curImage m'') ∧ (p ∉ curPosition m'')
    ∧ trace m'' = trace m'
    ∧ feeds owner evs m'' = Some (tt, m3)
    ∧ sent_to p (trace m3) = sent_to p (trace m'').
Proof.
  intros Howner.
  assert (∃ m', OnOpen p session image_err position_err m = Some (tt, m')
            ∧ curImage m' = curImage m ∪ {[p]}
            ∧ curPosition m' = curPosition m ∪ {[p]}
            ∧ sent (trace m') =
                sent (trace m) ++
                (match curImage_Get (env m) with
                 | Some entry => [(p, CursorImageMessage entry)]
                 | None => []
                 end) ++
                (if IsHost session then []
                 else [(p, CursorPositionMessage (GetCursorPosition (env m)).1
                                                 (GetCursorPosition (env m)).2)]))
    as (m' & Hopen & Hi & Hp & Hsent).
  { run_rtc. simpl.
    destruct (curImage_Get (env m)) as [entry|], (IsHost session),
      image_err, position_err; simpl;
      (eexists; split; [reflexivity|]; simpl;
       rewrite <- ?app_assoc, ?sent_app; simpl; rewrite ?app_nil_r; done). }
  assert (∃ m'', OnClose p m' = Some (tt, m'')
            ∧ curImage m'' = curImage m' ∖ {[p]}
            ∧ curPosition m'' = curPosition m' ∖ {[p]}
            ∧ trace m'' = trace m') as (m'' & Hclose & Hi' & Hp' & Htr').
  { run_rtc. eexists. split; [reflexivity|]. done. }
  destruct (feeds_spec p owner evs m') as (m2 & Hrun2 & _ & _ & Hs2).
  destruct (feeds_spec p owner evs m'') as (m3 & Hrun3 & _ & _ & Hs3).
  exists m', m2, m'', m3.
  split; [done|]. split; [done|]. split; [done|]. split; [done|].
  split; [done|].
  split.
  { rewrite Hs2, Howner, Hi, Hp. unfold change_driven.
    by rewrite !bool_decide_eq_true_2 by apply added_listener. }
  split; [done|].
  split; [rewrite Hi'; apply dropped_listener|].
  split; [rewrite Hp'; apply dropped_listener|].
  split; [done|]. split; [done|].
  rewrite Hs3, Hi', Hp'.
  rewrite !bool_decide_eq_false_2 by apply dropped_listener.
  by rewrite deliveries_deaf, app_nil_r.
Qed.

Lemma OnOpen_initial_cursor_witness :
  ∃ m' m2,
    OnOpen 0 viewer None None (New example_env) = Some (tt, m')
    ∧ feeds (λ _, viewer)
        [ImageChanged {| Cursor := 8; Image := [] |} (λ _, None);
         PositionChanged 1 2 (λ _, None)] m' = Some (tt, m2)
    ∧ sent_to 0 (trace m2) =
        sent_to 0 (trace m') ++
        [CursorImageMessage {| Cursor := 8; Image := [] |};
         CursorPositionMessage 1 2].
Proof.
  destruct (OnOpen_initial_cursor (New example_env) 0 viewer None None
              (λ _, viewer)
              [ImageChanged {| Cursor := 8; Image := [] |} (λ _, None);
               PositionChanged 1 2 (λ _, None)] eq_refl)
    as (m' & m2 & _ & _ & Hopen & _ & _ & _ & Hrun & Hsent & _).
  exists m', m2. split; [exact Hopen|]. split; [exact Hrun|exact Hsent].
Defined.

(** The initial messages are not always two, and not always first: the
    host is sent no initial cursor position; when the cursor image
    cannot be obtained no initial image is sent; and a change of the
    cursor image that falls between the registration of the listeners
    and the initial sends reaches the peer before its initial image. *)
Lemma OnOpen_initial_messages_missing_or_late :
  (∃ m m',
     CreatePeer host "cam1" (all_succeed "v=0") (New example_env)
       = Some (inr {| SDP := "v=0" |}, m)
     ∧ OnOpen 0 host None None m = Some (tt, m')
     ∧ sent (trace m') = [(0%nat, CursorImageMessage {| Cursor := 7; Image := [] |})]
     ∧ length (filter is_position (sent (trace m'))) = 0%nat)
  ∧ (∃ m', OnOpen 0 viewer None None (New blank_env) = Some (tt, m')
       ∧ sent (trace m') = [(0%nat, CursorPositionMessage 10 20)])
  ∧ (∃ m', cursor_change_during_open (New example_env) = Some (tt, m')
       ∧ sent_to 0 (trace m') =
           [CursorImageMessage {| Cursor := 8; Image := [] |};
            CursorImageMessage {| Cursor := 7; Image := [] |};
            CursorPositionMessage 10 20]).
Proof.
  split; [|split].
  - do 2 eexists. split; [vm_compute; reflexivity|].
    split; [vm_compute; reflexivity|]. split; reflexivity.
  - eexists. split; [vm_compute; reflexivity|]. reflexivity.
  - eexists. split; [vm_compute; reflexivity|]. reflexivity.
Qed.

(** C9. While the session is the host, the cursor-position closure
    returns without doing anything; so neither the data channel's opening
    nor a later change of position sends a cursor-position message, to
    this peer or to any other.  The cursor-image closure does not look at
    the host status: it sends the image in either case. *)
Theorem host_gets_no_cursor_position (m : WebRTCManagerCtx) (p : nat)
    (session : Session) (x y : Z) (entry : ImageEntry)
    (send_err image_err position_err : option string) :
  IsHost session = true →
  cursorPosition p session x y send_err m = Some (tt, m)
  ∧ (∃ m', OnOpen p session image_err position_err m = Some (tt, m')
       ∧ filter is_position (sent (trace m')) = filter is_position (sent (trace m)))
  ∧ (∃ m', cursorImage p entry send_err m = Some (tt, m')
       ∧ sent (trace m') = sent (trace m) ++ [(p, CursorImageMessage entry)]).
Proof.
  intros Hhost. split; [|split].
  - unfold cursorPosition. by rewrite Hhost.
  - run_rtc. simpl. rewrite Hhost.
    destruct (curImage_Get (env m)) as [img|], image_err; simpl;
      (eexists; split; [reflexivity|]); simpl;
      rewrite <- ?app_assoc, ?sent_app, ?filter_app; simpl;
      by rewrite ?app_nil_r.
  - run_rtc. destruct send_err; simpl;
      (eexists; split; [reflexivity|]); simpl;
      rewrite <- ?app_assoc, ?sent_app; simpl; by rewrite ?app_nil_r.
Qed.

Lemma host_gets_no_cursor_position_witness :
  IsHost host = true
  ∧ cursorPosition 0 host 3 4 None (New example_env) = Some (tt, New example_env)
  ∧ ∃ m', OnOpen 0 host None None (New example_env) = Some (tt, m')
      ∧ filter is_position (sent (trace m')) = [].
Proof.
  destruct (host_gets_no_cursor_position (New example_env) 0 host 3 4
              {| Cursor := 7; Image := [] |} None None None)
    as (Hpos & (m' & Hrun & Hsent) & _); [reflexivity|].
  split; [reflexivity|]. split; [exact Hpos|].
  exists m'. split; [exact Hrun | exact Hsent].
Defined.

(** The same closure does send to a session that is not the host. *)
Example viewer_gets_cursor_position :
  ∃ m', cursorPosition 0 viewer 3 4 None (New example_env) = Some (tt, m')
    ∧ sent (trace m') = [(0%nat, CursorPositionMessage 3 4)].
Proof. eexists. split; reflexivity. Qed.

(** *** Remote tracks *)

Ltac run_track :=
  cbv [OnTrack_begin OnTrack_read acquire stopFn park track_step fresh emit
       record];
  run_M.

(** C7. A remote track arrives on a connection whose session may not
    share media, or with a codec that [ParseRTC] does not know, or of a
    kind that is neither audio nor video.  The reaction returns at once:
    its effects are the two log lines and one stop of the track's
    receiver.  No sink is started, both slots hold what they held, no
    closure comes to occupy a sink, and no error is logged. *)
Theorem OnTrack_rejects (ParseRTC : RTPCodecParameters → option RTPCodec)
    (m : WebRTCManagerCtx) (session : Session) (track : TrackRemote)
    (r : nat) (start_err : option string) :
  CanShareMedia session = false
  ∨ ParseRTC (Codec track) = None
  ∨ (Kind track ≠ RTPCodecTypeAudio ∧ Kind track ≠ RTPCodecTypeVideo) →
  ∃ m' reason,
    OnTrack_begin ParseRTC session track r start_err m = Some (Returned, m')
    ∧ trace m' = trace m ++ [Log Info "received new remote track";
                             Log Warn reason;
                             ReceiverStop r]
    ∧ sinks_started (trace m') = sinks_started (trace m)
    ∧ micStop m' = micStop m ∧ camStop m' = camStop m
    ∧ readers m' = readers m
    ∧ ∀ src a f, occupants src m' !! a = Some f → occupants src m !! a = Some f.
Proof.
  intros Hrej. run_track. simpl.
  destruct (CanShareMedia session) eqn:Hshare; simpl.
  2:{ do 2 eexists. split; [reflexivity|]. simpl.
      rewrite <- !app_assoc, !sinks_started_app. simpl.
      rewrite app_nil_r. done. }
  destruct (ParseRTC (Codec track)) as [codec|] eqn:Hparse.
  2:{ do 2 eexists. split; [reflexivity|]. simpl.
      rewrite <- !app_assoc, !sinks_started_app. simpl.
      rewrite app_nil_r. done. }
  destruct Hrej as [?|[?|[Haudio Hvideo]]]; [done..|].
  destruct (Kind track); [|done..].
  do 2 eexists. split; [reflexivity|]. simpl.
  rewrite <- !app_assoc, !sinks_started_app. simpl. rewrite app_nil_r.
  repeat split; try done.
  intros src a f. unfold occupants. simpl.
  rewrite !map_lookup_filter_Some.
  intros [Hf [Hsrc Hstopped]]. simpl in *.
  destruct (decide (next m = a)) as [<-|Hne].
  - rewrite lookup_insert_eq in Hf. injection Hf as <-. discriminate.
  - rewrite lookup_insert_ne in Hf by done. done.
Qed.

Lemma OnTrack_rejects_witness :
  (CanShareMedia guest = false
   ∨ example_ParseRTC (Codec vp8_track) = None
   ∨ (Kind vp8_track ≠ RTPCodecTypeAudio ∧ Kind vp8_track ≠ RTPCodecTypeVideo))
  ∧ ∃ m', OnTrack_begin example_ParseRTC guest vp8_track 0 None (New example_env)
            = Some (Returned, m')
      ∧ camStop m' = None
      ∧ sinks_started (trace m') = [].
Proof.
  split; [left; reflexivity|].
  destruct (OnTrack_rejects example_ParseRTC (New example_env) guest vp8_track
              0 None) as (m' & reason & Hrun & _ & Hsinks & _ & Hcam & _);
    [left; reflexivity|].
  exists m'. split; [exact Hrun|]. split; [exact Hcam | exact Hsinks].
Defined.

(** *** The invariant of the slots is kept *)

Ltac run_folded :=
  cbv [OnTrack_begin OnTrack_read acquire stopFn park track_step fresh emit];
  run_M.

Ltac state :=
  cbv [record set_camStop set_micStop set_stopFns set_readers set_peers
       set_curImage set_curPosition set_next set_slot slot]; simpl.

Lemma stops_of_app r t1 t2 :
  stops_of r (t1 ++ t2) = (stops_of r t1 + stops_of r t2)%nat.
Proof. unfold stops_of. by rewrite filter_app, length_app. Qed.

Lemma stops_of_other r e :
  is_ReceiverStop r e = false → stops_of r [e] = 0%nat.
Proof.
  intros He. unfold stops_of. rewrite filter_cons_False; [done|].
  rewrite He. by intros [].
Qed.

Lemma stops_of_stop r r' :
  stops_of r [ReceiverStop r'] = if decide (r' = r) then 1%nat else 0%nat.
Proof.
  unfold stops_of. case_decide as Hr.
  - rewrite filter_cons_True; [done|]. unfold is_ReceiverStop.
    rewrite bool_decide_eq_true_2 by done. exact I.
  - rewrite filter_cons_False; [done|]. unfold is_ReceiverStop.
    rewrite bool_decide_eq_false_2 by done. by intros [].
Qed.

Lemma Inv_New (e : Env) : Inv None (New e).
Proof.
  split; simpl; try done.
  - by intros [] a.
  - intros r. unfold stops_of. simpl. lia.
Qed.

Lemma Inv_record pend m e :
  Inv pend m → (∀ r, is_ReceiverStop r e = false) → Inv pend (record e m).
Proof.
  intros [] He. split; state; try done.
  - intros r. rewrite stops_of_app, stops_of_other by done.
    rewrite Nat.add_0_r. done.
  - intros r Hr. rewrite stops_of_app, stops_of_other by done.
    rewrite Nat.add_0_r. auto.
  - intros a f Hf Hsrc Hst. rewrite stops_of_app, stops_of_other by done.
    rewrite Nat.add_0_r. eauto.
Qed.

Lemma Inv_record_stop pend m r :
  Inv pend m → (r < next m)%nat → stops_of r (trace m) = 0%nat →
  (∀ b g, stopFns m !! b = Some g → is_Some (srcManager g) →
          stopped g = false → receiver g ≠ r) →
  Inv pend (record (ReceiverStop r) m).
Proof.
  intros [] Hr Hzero Hother. split; state; try done.
  - intros r'. rewrite stops_of_app, stops_of_stop. case_decide as Heq.
    + subst r'. rewrite Hzero. done.
    + rewrite Nat.add_0_r. done.
  - intros r' Hr'. rewrite stops_of_app, stops_of_stop.
    rewrite decide_False by lia. rewrite Nat.add_0_r. auto.
  - intros a f Hf Hsrc Hst. rewrite stops_of_app, stops_of_stop.
    rewrite decide_False by (intros Heq; by eapply Hother).
    rewrite Nat.add_0_r. eauto.
Qed.

Lemma Inv_set_next pend m n :
  Inv pend m → (next m ≤ n)%nat → Inv pend (set_next n m).
Proof.
  intros [] Hn. split; state; try done.
  - intros a f Hf. destruct (inv_fresh0 a f Hf). lia.
  - intros r Hr. apply inv_unseen0. lia.
Qed.

(** [stopFn := func() { ... }]: a new closure, bound to no sink yet. *)
Lemma Inv_alloc m a r :
  Inv None m → stopFns m !! a = None → (a < next m)%nat → (r < next m)%nat →
  (∀ b g, stopFns m !! b = Some g → receiver g ≠ r) →
  Inv None (set_stopFns <[a := {| stopped := false; receiver := r;
                                  srcManager := None |}]> m).
Proof.
  intros [] Ha Hlt Hr Hother. split; state; try done.
  - intros b g. rewrite lookup_insert. case_decide as Hb.
    + intros [= <-]. subst b. done.
    + auto.
  - intros src b Hb. destruct (inv_slot0 src b Hb) as (g & Hg & Hsrc).
    exists g. split; [|done]. rewrite lookup_insert_ne; [done|].
    intros <-. congruence.
  - intros src b g. rewrite lookup_insert. case_decide as Hb.
    + intros [= <-]. done.
    + eauto.
  - intros r' b src Hrd. destruct (inv_reader0 r' b src Hrd) as (g & Hg & ? & ?).
    exists g. split; [|done]. rewrite lookup_insert_ne; [done|].
    intros <-. congruence.
  - intros b g. rewrite lookup_insert. case_decide as Hb.
    + intros [= <-]. by intros [? [=]].
    + eauto.
  - intros b c g h. rewrite !lookup_insert.
    repeat case_decide; subst; try done.
    + intros [= <-] Hh Heq. simpl in Heq. by eapply Hother in Hh.
    + intros Hg [= <-] Heq. simpl in Heq. by eapply Hother in Hg.
    + eauto.
Qed.

(** [srcManager = manager.capture.Microphone()] (or [Webcam()]). *)
Lemma Inv_bind m a f src :
  Inv None m → stopFns m !! a = Some f →
  srcManager f = None → stopped f = false →
  stops_of (receiver f) (trace m) = 0%nat →
  Inv (Some a) (set_stopFns <[a := {| stopped := stopped f;
                                      receiver := receiver f;
                                      srcManager := Some src |}]> m).
Proof.
  intros [] Ha Hnone Hst Hzero. split; state; try done.
  - intros b g. rewrite lookup_insert. case_decide as Hb.
    + intros [= <-]. subst b. simpl. eauto.
    + auto.
  - intros src' b Hb. destruct (inv_slot0 src' b Hb) as (g & Hg & Hsrc).
    exists g. split; [|done]. rewrite lookup_insert_ne; [done|].
    intros <-. congruence.
  - intros src' b g. rewrite lookup_insert. case_decide as Hb.
    + intros _ _ _. right. by subst.
    + intros Hg Hsrc Hstg. left.
      destruct (inv_occ0 src' b g Hg Hsrc Hstg) as [?|?]; done.
  - intros r' b src' Hrd. destruct (inv_reader0 r' b src' Hrd) as (g & Hg & ? & ?).
    exists g. split; [|done]. rewrite lookup_insert_ne; [done|].
    intros <-. congruence.
  - intros b g. rewrite lookup_insert. case_decide as Hb.
    + intros [= <-]. done.
    + eauto.
  - intros b c g h. rewrite !lookup_insert.
    repeat case_decide; subst; try done.
    + intros [= <-] Hh Heq. simpl in Heq. eauto.
    + intros Hg [= <-] Heq. simpl in Heq. eauto.
    + eauto.
Qed.

(** [stopped = true]. *)
Lemma Inv_mark pend m b f :
  Inv pend m → stopFns m !! b = Some f →
  Inv pend (set_stopFns <[b := {| stopped := true; receiver := receiver f;
                                  srcManager := srcManager f |}]> m).
Proof.
  intros [] Hb. split; state; try done.
  - intros c g. rewrite lookup_insert. case_decide as Hc.
    + intros [= <-]. subst c. simpl. eauto.
    + auto.
  - intros src c Hc. rewrite lookup_insert. case_decide as Heq.
    + subst c. destruct (inv_slot0 src b Hc) as (g & Hg & Hsrc).
      eexists. split; [done|]. simpl. congruence.
    + eauto.
  - intros src c g. rewrite lookup_insert. case_decide as Hc.
    + by intros [= <-].
    + eauto.
  - intros r c src Hrd. destruct (inv_reader0 r c src Hrd) as (g & Hg & ? & ?).
    rewrite lookup_insert. case_decide as Hc.
    + subst c. eexists. split; [done|]. simpl. split; congruence.
    + eauto.
  - intros c g. rewrite lookup_insert. case_decide as Hc.
    + by intros [= <-].
    + eauto.
  - intros c d g h. rewrite !lookup_insert.
    repeat case_decide; subst; try done.
    + intros [= <-] Hh Heq. simpl in Heq. eauto.
    + intros Hg [= <-] Heq. simpl in Heq. eauto.
    + eauto.
Qed.

(** A call of a closure that is bound to a sink. *)
Lemma stopFn_spec pend m b f src :
  Inv pend m → stopFns m !! b = Some f → srcManager f = Some src →
  ∃ m', stopFn b m = Some (tt, m')
    ∧ Inv pend m'
    ∧ stopFns m' = <[b := {| stopped := true; receiver := receiver f;
                             srcManager := Some src |}]> (stopFns m)
    ∧ trace m' = trace m ++ eviction src (Some f)
    ∧ env m' = env m ∧ camStop m' = camStop m ∧ micStop m' = micStop m
    ∧ readers m' = readers m ∧ next m' = next m ∧ peers m' = peers m.
Proof.
  intros HI Hb Hsrc. run_folded. unfold eviction. rewrite Hb.
  destruct (stopped f) eqn:Hst; cbn beta iota.
  - eexists. split; [reflexivity|]. rewrite app_nil_r.
    split; [exact HI|]. split; [|done].
    symmetry. apply insert_id. rewrite Hb. f_equal.
    destruct f; simpl in *; congruence.
  - rewrite Hsrc. cbn beta iota. eexists. split; [reflexivity|].
    split; [|state; rewrite <- !app_assoc; done].
    pose proof (Inv_mark pend m b f HI Hb) as HI1. rewrite Hsrc in HI1.
    apply (Inv_record _ _ (Log Info "remote track stopped")); [|done].
    apply (Inv_record _ _ (SrcStop src)); [|done].
    apply Inv_record_stop; [done|..]; state.
    + destruct HI. destruct (inv_fresh0 b f Hb). done.
    + destruct HI. eapply inv_unstopped0; eauto.
    + intros c g. rewrite lookup_insert. case_decide as Hc.
      * by intros [= <-].
      * intros Hg _ _ Heq. destruct HI. apply Hc.
        by eapply inv_receiver0.
Qed.

(** [manager.micStop = &stopFn] (or [camStop]). *)
Lemma Inv_install m a f src :
  Inv (Some a) m → stopFns m !! a = Some f → srcManager f = Some src →
  (∀ c g, stopFns m !! c = Some g → srcManager g = Some src →
          stopped g = false → c = a) →
  Inv None (set_slot src (Some a) m).
Proof.
  intros [] Ha Hsrc Honly.
  assert (∀ src' c, slot src' (set_slot src (Some a) m) = Some c →
          ∃ g, stopFns m !! c = Some g ∧ srcManager g = Some src') as Hslot.
  { intros src' c. destruct src, src'; state; intros Hc;
      first [ injection Hc as <-; by eauto | by apply (inv_slot0 _ c) ]. }
  assert (∀ src' c g, stopFns m !! c = Some g → srcManager g = Some src' →
          stopped g = false →
          slot src' (set_slot src (Some a) m) = Some c ∨ None = Some c) as Hocc.
  { intros src' c g Hg Hsrc' Hst. left.
    destruct (decide (src' = src)) as [->|Hne].
    - rewrite (Honly c g) by done. by destruct src.
    - destruct (inv_occ0 src' c g Hg Hsrc' Hst) as [Hs|[= ->]].
      + destruct src, src'; done.
      + congruence. }
  destruct src; split; try done.
Qed.

Lemma Inv_park m r t :
  Inv None m →
  match t with
  | Returned => True
  | Reading a src =>
      ∃ f, stopFns m !! a = Some f ∧ receiver f = r ∧ srcManager f = Some src
  end →
  ∃ m', park r t m = Some (tt, m') ∧ Inv None m' ∧ trace m' = trace m
    ∧ stopFns m' = stopFns m ∧ camStop m' = camStop m ∧ micStop m' = micStop m
    ∧ next m' = next m.
Proof.
  intros [] Ht. destruct t as [|a src]; run_track;
    (eexists; split; [reflexivity|]); (split; [|done]);
    split; state; try done.
  - intros r' b src'. rewrite lookup_delete. case_decide; [done|]. eauto.
  - intros r' b src'. rewrite lookup_insert. case_decide as Hr.
    + intros [= <- <-]. by subst.
    + eauto.
Qed.

Lemma slot_set_stopFns src h m : slot src (set_stopFns h m) = slot src m.
Proof. by destruct src. Qed.

(** Taking the slot of a sink. *)
Lemma acquire_spec m a f r src codec start_err :
  Inv None m → stopFns m !! a = Some f →
  srcManager f = None → stopped f = false → receiver f = r →
  stops_of r (trace m) = 0%nat →
  ∃ t m', acquire src a r codec start_err m = Some (t, m')
    ∧ Inv None m'
    ∧ slot src m' = Some a
    ∧ next m' = next m ∧ readers m' = readers m
    ∧ trace m' =
        trace m ++ eviction src (slot src m ≫= (stopFns m !!.)) ++
        [SrcStart src codec] ++ after_start src r start_err
    ∧ t = match start_err with
          | Some _ => Returned
          | None => Reading a src
          end
    ∧ stopFns m' !! a =
        Some {| stopped := bool_decide (is_Some start_err); receiver := r;
                srcManager := Some src |}.
Proof.
  intros HI Ha Hnone Hst Hr Hzero. subst r.
  pose proof (Inv_bind m a f src HI Ha Hnone Hst Hzero) as HI1.
  cbv [acquire emit]; run_M. rewrite Ha. cbn beta iota.
  rewrite slot_set_stopFns. rewrite Hst in *.
  set (fa := {| stopped := false; receiver := receiver f;
                srcManager := Some src |}) in *.
  set (m1 := set_stopFns <[a := fa]> m) in *.
  assert (stopFns m1 !! a = Some fa) as Ha1 by apply lookup_insert_eq.
  assert (∃ m2,
    match slot src m with
    | Some b => stopFn b
    | None => λ s, Some (tt, s)
    end m1 = Some (tt, m2)
    ∧ Inv (Some a) m2
    ∧ stopFns m2 !! a = Some fa
    ∧ trace m2 = trace m ++ eviction src (slot src m ≫= (stopFns m !!.))
    ∧ next m2 = next m ∧ readers m2 = readers m
    ∧ (∀ c h, stopFns m2 !! c = Some h → srcManager h = Some src →
              stopped h = false → c = a)) as (m2 & -> & HI2 & Ha2 & Ht2 & Hn2 & Hr2 & Honly).
  { destruct (slot src m) as [b|] eqn:Hprev.
    - destruct (inv_slot _ _ HI src b Hprev) as (g & Hg & Hgsrc).
      assert (b ≠ a) as Hba by (intros ->; congruence).
      destruct (stopFn_spec (Some a) m1 b g src HI1)
        as (m2 & Hrun & HI2 & Hfns & Htr & _ & Hcam & Hmic & Hrd & Hnx & _);
        [unfold m1; state; by rewrite lookup_insert_ne | done |].
      exists m2. split; [done|]. split; [done|].
      split; [by rewrite Hfns, lookup_insert_ne|].
      split; [rewrite Htr; simpl; by rewrite Hg|].
      split; [done|]. split; [done|].
      intros c h Hc Hs Hst'.
      destruct (inv_occ _ _ HI2 src c h Hc Hs Hst') as [Hsl|[= <-]]; [|done].
      assert (slot src m2 = Some b) as Hsl2
          by (destruct src; simpl in *; congruence).
      rewrite Hsl2 in Hsl. injection Hsl as <-.
      rewrite Hfns, lookup_insert_eq in Hc. by injection Hc as <-.
    - exists m1. split; [done|]. split; [done|]. split; [done|].
      split; [simpl; by rewrite app_nil_r|]. split; [done|]. split; [done|].
      intros c h Hc Hs Hst'.
      destruct (inv_occ _ _ HI1 src c h Hc Hs Hst') as [Hsl|[= <-]]; [|done].
      unfold m1 in Hsl. rewrite slot_set_stopFns in Hsl. congruence. }
  cbn beta iota.
  pose proof (Inv_install m2 a fa src HI2 Ha2 eq_refl Honly) as HI3.
  pose proof (Inv_record _ _ (SrcStart src codec) HI3 (λ _, eq_refl)) as HI4.
  set (m4 := record (SrcStart src codec) (set_slot src (Some a) m2)) in *.
  assert (stopFns m4 !! a = Some fa) as Ha4 by (by destruct src).
  assert (slot src m4 = Some a) as Hs4 by (by destruct src).
  assert (trace m4 = trace m2 ++ [SrcStart src codec]) as Ht4
      by (by destruct src).
  assert (next m4 = next m2 ∧ readers m4 = readers m2) as [Hn4 Hr4]
      by (by destruct src).
  clearbody m4.
  destruct start_err as [err|].
  - pose proof (Inv_record _ _ (Log Error "failed to start pipeline") HI4
                  (λ _, eq_refl)) as HI5.
    destruct (stopFn_spec None _ a fa src HI5 Ha4 eq_refl)
      as (m6 & Hrun & HI6 & Hfns & Htr & _ & Hcam & Hmic & Hrd & Hnx & _).
    rewrite Hrun. exists Returned, m6. split; [done|]. split; [done|].
    split; [destruct src; simpl in *; congruence|].
    split; [simpl in *; congruence|]. split; [simpl in *; congruence|].
    split.
    { rewrite Htr. simpl. rewrite Ht4, Ht2, <- !app_assoc. done. }
    split; [done|]. rewrite Hfns, lookup_insert_eq. done.
  - eexists _, _. split; [reflexivity|].
    split; [by apply Inv_record|].
    split; [done|]. split; [simpl; congruence|]. split; [simpl; congruence|].
    split.
    { simpl. rewrite Ht4, Ht2, <- !app_assoc. done. }
    done.
Qed.

Lemma slot_record src e m : slot src (record e m) = slot src m.
Proof. by destruct src. Qed.

Lemma slot_set_next src n m : slot src (set_next n m) = slot src m.
Proof. by destruct src. Qed.

(** A rejected track: the receiver, which is new, is stopped. *)
Lemma reject_spec m r reason :
  Inv None m → (r < next m)%nat → stops_of r (trace m) = 0%nat →
  (∀ b g, stopFns m !! b = Some g → is_Some (srcManager g) → receiver g ≠ r) →
  Inv None (record (ReceiverStop r) (record (Log Warn reason) m)).
Proof.
  intros HI Hr Hzero Hother. apply Inv_record_stop.
  - by apply Inv_record.
  - done.
  - state. rewrite stops_of_app, Hzero. done.
  - intros b g Hg Hsrc _. by apply (Hother b g).
Qed.

(** The remote-track reaction, on a receiver that is new. *)
Lemma OnTrack_begin_spec ParseRTC m session track r start_err :
  Inv None m → (r < next m)%nat →
  (∀ b g, stopFns m !! b = Some g → receiver g ≠ r) →
  stops_of r (trace m) = 0%nat →
  ∃ t m', OnTrack_begin ParseRTC session track r start_err m = Some (t, m')
    ∧ Inv None m'
    ∧ readers m' = readers m
    ∧ match t with
      | Returned => True
      | Reading a src =>
          ∃ f, stopFns m' !! a = Some f ∧ receiver f = r
               ∧ srcManager f = Some src
      end
    ∧ ∀ codec src,
        CanShareMedia session = true → ParseRTC (Codec track) = Some codec →
        sink_of (Kind track) = Some src →
        slot src m' = Some (next m)
        ∧ stopFns m' !! next m =
            Some {| stopped := bool_decide (is_Some start_err);
                    receiver := r; srcManager := Some src |}
        ∧ trace m' =
            trace m ++ [Log Info "received new remote track"] ++
            eviction src (slot src m ≫= (stopFns m !!.)) ++
            [SrcStart src codec] ++ after_start src r start_err.
Proof.
  intros HI Hr Hother Hzero.
  pose proof (Inv_record _ _ (Log Info "received new remote track") HI
                (λ _, eq_refl)) as HI0.
  cbv [OnTrack_begin emit fresh]; run_M. cbn beta iota.
  set (m0 := record (Log Info "received new remote track") m) in *.
  assert (stops_of r (trace m0) = 0%nat) as Hzero0.
  { unfold m0. state. rewrite stops_of_app, Hzero. done. }
  assert (∀ b g, stopFns m0 !! b = Some g → is_Some (srcManager g) →
                 receiver g ≠ r) as Hother0 by (intros b g Hg _; eauto).
  destruct (CanShareMedia session) eqn:Hshare; cbn [negb]; cbn beta iota.
  2:{ eexists _, _. split; [reflexivity|].
      split; [by apply reject_spec|].
      split; [done|]. split; [done|]. by intros ???. }
  destruct (ParseRTC (Codec track)) as [codec|] eqn:Hparse.
  2:{ eexists _, _. split; [reflexivity|].
      split; [by apply reject_spec|].
      split; [done|]. split; [done|]. by intros ???. }
  change (next m0) with (next m).
  set (fa := {| stopped := false; receiver := r; srcManager := None |}).
  set (ma := set_stopFns <[next m := fa]> (set_next (S (next m)) m0)).
  assert (stopFns m !! next m = None) as Hfree.
  { destruct (stopFns m !! next m) as [g|] eqn:Hg; [|done].
    destruct (inv_fresh _ _ HI _ _ Hg). lia. }
  assert (Inv None ma) as HIa.
  { apply Inv_alloc; [apply Inv_set_next; [done|simpl; lia]
                     |done|simpl; lia|simpl; lia|done]. }
  assert (stopFns ma !! next m = Some fa) as Ha by apply lookup_insert_eq.
  assert (trace ma = trace m ++ [Log Info "received new remote track"])
    as Hta by done.
  assert (stops_of r (trace ma) = 0%nat) as Hza by done.
  assert (∀ src, eviction src (slot src ma ≫= (stopFns ma !!.))
                 = eviction src (slot src m ≫= (stopFns m !!.))) as Hev.
  { intros src. replace (slot src ma) with (slot src m) by (by destruct src).
    destruct (slot src m) as [b|] eqn:Hb; [|done]. simpl.
    destruct (inv_slot _ _ HI _ _ Hb) as (g & Hg & _).
    unfold ma. state. rewrite lookup_insert_ne by congruence. done. }
  assert (readers ma = readers m) as Hra by done.
  assert ((r < next ma)%nat) as Hrma by (simpl; lia).
  assert (next ma = S (next m)) as Hnma by done.
  assert (∀ b g, stopFns ma !! b = Some g → is_Some (srcManager g) →
                 receiver g ≠ r) as Hothera.
  { intros b g. unfold ma. state. rewrite lookup_insert.
    case_decide; [intros [= <-] [? [=]] | eauto]. }
  clearbody ma.
  assert (∀ src, sink_of (Kind track) = Some src →
    ∃ t m', acquire src (next m) r codec start_err ma = Some (t, m')
      ∧ Inv None m' ∧ readers m' = readers m
      ∧ match t with
        | Returned => True
        | Reading a src =>
            ∃ f, stopFns m' !! a = Some f ∧ receiver f = r
                 ∧ srcManager f = Some src
        end
      ∧ slot src m' = Some (next m)
      ∧ stopFns m' !! next m =
          Some {| stopped := bool_decide (is_Some start_err);
                  receiver := r; srcManager := Some src |}
      ∧ trace m' =
          trace m ++ [Log Info "received new remote track"] ++
          eviction src (slot src m ≫= (stopFns m !!.)) ++
          [SrcStart src codec] ++ after_start src r start_err) as Hacq.
  { intros src _.
    destruct (acquire_spec ma (next m) fa r src codec start_err)
      as (t & m' & Hrun & HI' & Hslot & Hn' & Hr' & Ht' & Htask & Hfn);
      try done.
    exists t, m'. split; [done|]. split; [done|]. split; [congruence|].
    split.
    { rewrite Htask. destruct start_err; [done|]. eexists. split; [done|]. done. }
    split; [done|]. split; [done|].
    rewrite Ht', Hta, Hev, <- !app_assoc. done. }
  destruct (Kind track) eqn:Hkind.
  - eexists _, _. split; [reflexivity|].
    split; [by apply reject_spec|].
    split; [done|]. split; [done|]. by intros ???.
  - destruct (Hacq Microphone eq_refl)
      as (t & m' & Hrun & HI' & Hr' & Htask & Hslot & Hfn & Ht').
    exists t, m'. split; [done|]. split; [done|]. split; [done|].
    split; [done|]. intros codec' src _ [= <-] [= <-]. done.
  - destruct (Hacq Webcam eq_refl)
      as (t & m' & Hrun & HI' & Hr' & Htask & Hslot & Hfn & Ht').
    exists t, m'. split; [done|]. split; [done|]. split; [done|].
    split; [done|]. intros codec' src _ [= <-] [= <-]. done.
Qed.

(** One round of the read loop of a handler that holds a closure. *)
Lemma OnTrack_read_spec m a f src r read :
  Inv None m → stopFns m !! a = Some f → receiver f = r →
  srcManager f = Some src →
  ∃ t m', OnTrack_read a src r read m = Some (t, m')
    ∧ Inv None m'
    ∧ match t with
      | Returned => True
      | Reading a' src' =>
          ∃ f', stopFns m' !! a' = Some f' ∧ receiver f' = r
                ∧ srcManager f' = Some src'
      end.
Proof.
  intros HI Ha Hr Hsrc. cbv [OnTrack_read emit]; run_M.
  destruct read as [data|]; cbn beta iota.
  - eexists _, _. split; [reflexivity|]. split; [by apply Inv_record|].
    exists f. done.
  - set (m3 := record (TickerStop r)
                 (record (Log Info "remote track data finished")
                    (record (Log Warn "failed read from remote track") m))).
    assert (Inv None m3) as HI3 by (by repeat apply Inv_record).
    destruct (stopFn_spec None m3 a f src HI3 Ha Hsrc)
      as (m' & Hrun & HI' & _).
    rewrite Hrun. by exists Returned, m'.
Qed.

(** A new remote track arrives. *)
Lemma TrackArrives_spec ParseRTC m session track start_err :
  Inv None m →
  ∃ m', track_step ParseRTC (TrackArrives session track start_err) m
          = Some (tt, m')
    ∧ Inv None m'
    ∧ ∀ codec src,
        CanShareMedia session = true → ParseRTC (Codec track) = Some codec →
        sink_of (Kind track) = Some src →
        slot src m' = Some (S (next m))
        ∧ stopFns m' !! S (next m) =
            Some {| stopped := bool_decide (is_Some start_err);
                    receiver := next m; srcManager := Some src |}
        ∧ trace m' =
            trace m ++ [Log Info "received new remote track"] ++
            eviction src (slot src m ≫= (stopFns m !!.)) ++
            [SrcStart src codec] ++ after_start src (next m) start_err.
Proof.
  intros HI. cbv [track_step fresh]; run_M. cbn beta iota.
  set (mr := set_next (S (next m)) m).
  assert (Inv None mr) as HIr by (apply Inv_set_next; [done|lia]).
  destruct (OnTrack_begin_spec ParseRTC mr session track (next m) start_err)
    as (t & m1 & Hrun & HI1 & Hrd & Htask & Hacc); [done|simpl; lia|..].
  { intros b g Hg. destruct (inv_fresh _ _ HI b g Hg). lia. }
  { apply (inv_unseen _ _ HI). lia. }
  rewrite Hrun. cbn beta iota.
  destruct (Inv_park m1 (next m) t HI1 Htask)
    as (m' & Hpark & HI' & Ht' & Hfn' & Hcam & Hmic & Hn').
  exists m'. split; [done|]. split; [done|].
  intros codec src Hshare Hparse Hsink.
  destruct (Hacc codec src Hshare Hparse Hsink) as (Hslot & Hfn & Htr).
  rewrite Hfn', Ht'. split; [|split; [done|]].
  - destruct src; simpl in *; congruence.
  - rewrite Htr. unfold mr. by rewrite slot_set_next.
Qed.

Lemma track_step_spec ParseRTC m s :
  Inv None m →
  ∃ m', track_step ParseRTC s m = Some (tt, m') ∧ Inv None m'.
Proof.
  intros HI. destruct s as [session track start_err|r data|r].
  - destruct (TrackArrives_spec ParseRTC m session track start_err HI)
      as (m' & ? & ? & _). by exists m'.
  - cbv [track_step]; run_M. cbn beta iota.
    destruct (readers m !! r) as [[a src]|] eqn:Hrd; [|by exists m].
    destruct (inv_reader _ _ HI r a src Hrd) as (f & Hf & Hr & Hsrc).
    destruct (OnTrack_read_spec m a f src r (Some data) HI Hf Hr Hsrc)
      as (t & m1 & -> & HI1 & Htask). cbn beta iota.
    destruct (Inv_park m1 r t HI1 Htask) as (m' & ? & ? & _). by exists m'.
  - cbv [track_step]; run_M. cbn beta iota.
    destruct (readers m !! r) as [[a src]|] eqn:Hrd; [|by exists m].
    destruct (inv_reader _ _ HI r a src Hrd) as (f & Hf & Hr & Hsrc).
    destruct (OnTrack_read_spec m a f src r None HI Hf Hr Hsrc)
      as (t & m1 & -> & HI1 & Htask). cbn beta iota.
    destruct (Inv_park m1 r t HI1 Htask) as (m' & ? & ? & _). by exists m'.
Qed.

Lemma track_run_spec ParseRTC ss m :
  Inv None m →
  ∃ m', track_run ParseRTC ss m = Some (tt, m') ∧ Inv None m'.
Proof.
  revert m. induction ss as [|s ss IH]; intros m HI.
  - by exists m.
  - destruct (track_step_spec ParseRTC m s HI) as (m1 & Hstep & HI1).
    destruct (IH m1 HI1) as (m' & Hrun & HI').
    exists m'. split; [|done]. simpl. unfold mbind, M_bind.
    by rewrite Hstep.
Qed.

(** Under the invariant a sink has at most one occupant, the closure its
    slot points to. *)
Lemma occupants_slot m src a f :
  Inv None m → occupants src m !! a = Some f →
  slot src m = Some a ∧ stopFns m !! a = Some f
  ∧ eviction src (slot src m ≫= (stopFns m !!.)) =
      [ReceiverStop (receiver f); SrcStop src; Log Info "remote track stopped"].
Proof.
  intros HI [Hf [Hsrc Hst]]%map_lookup_filter_Some. simpl in *.
  destruct (inv_occ _ _ HI src a f Hf Hsrc Hst) as [Hslot|?]; [|done].
  split; [done|]. split; [done|].
  rewrite Hslot. simpl. rewrite Hf. simpl. by rewrite Hst.
Qed.

Lemma occupants_size m src : Inv None m → (size (occupants src m) ≤ 1)%nat.
Proof.
  intros HI. destruct (slot src m) as [a|] eqn:Hslot.
  - destruct (occupants src m !! a) as [f|] eqn:Hf.
    + assert (occupants src m = {[a := f]}) as ->.
      { apply map_eq. intros c. destruct (decide (c = a)) as [->|Hne].
        - by rewrite lookup_singleton_eq.
        - rewrite lookup_singleton_ne by done.
          destruct (occupants src m !! c) as [g|] eqn:Hg; [|done].
          destruct (occupants_slot m src c g HI Hg) as [? _]. congruence. }
      by rewrite map_size_singleton.
    + assert (occupants src m = ∅) as ->.
      { apply map_eq. intros c. rewrite lookup_empty.
        destruct (occupants src m !! c) as [g|] eqn:Hg; [|done].
        destruct (occupants_slot m src c g HI Hg) as [? _]. congruence. }
      rewrite map_size_empty. lia.
  - assert (occupants src m = ∅) as ->.
    { apply map_eq. intros c. rewrite lookup_empty.
      destruct (occupants src m !! c) as [g|] eqn:Hg; [|done].
      destruct (occupants_slot m src c g HI Hg) as [? _]. congruence. }
    rewrite map_size_empty. lia.
Qed.

Lemma no_occupant_no_eviction m src :
  Inv None m → occupants src m = ∅ →
  eviction src (slot src m ≫= (stopFns m !!.)) = [].
Proof.
  intros HI Hnone. destruct (slot src m) as [a|] eqn:Hslot; [|done].
  destruct (inv_slot _ _ HI src a Hslot) as (f & Hf & Hsrc).
  simpl. rewrite Hf. simpl. destruct (stopped f) eqn:Hst; [done|].
  assert (occupants src m !! a = Some f) as Hocc
      by (by apply map_lookup_filter_Some).
  rewrite Hnone in Hocc. done.
Qed.

(** C1, as the code has it.  When the handlers do not overlap - every
    handler runs up to its read loop, and every read with the stop
    function it may call runs, with no statement of another handler in
    between - then, whatever remote tracks arrive, deliver data and fail,
    in whatever order, the manager runs without a panic and, after every
    such phase, each sink (microphone for audio, webcam for video) has at
    most one occupant, which is the closure in that sink's slot, and no
    receiver has been stopped more than once.  Accepting a further track
    for a sink does, in this order: the stop function in the slot is
    called, which stops the receiver and the sink of the occupant, if
    there is one, and does nothing otherwise; the new closure is put in
    the slot; the sink is started.  After that the only possible occupant
    of the sink is the new track. *)
Theorem one_occupant_per_sink
    (ParseRTC : RTPCodecParameters → option RTPCodec) (e : Env)
    (ss : list TrackStep) :
  ∃ m, track_run ParseRTC ss (New e) = Some (tt, m)
    ∧ (∀ src, (size (occupants src m) ≤ 1)%nat
              ∧ ∀ a f, occupants src m !! a = Some f → slot src m = Some a)
    ∧ (∀ r, (stops_of r (trace m) ≤ 1)%nat)
    ∧ ∀ session track start_err codec src,
        CanShareMedia session = true → ParseRTC (Codec track) = Some codec →
        sink_of (Kind track) = Some src →
        ∃ m', track_step ParseRTC (TrackArrives session track start_err) m
                = Some (tt, m')
          ∧ trace m' =
              trace m ++ [Log Info "received new remote track"] ++
              eviction src (slot src m ≫= (stopFns m !!.)) ++
              [SrcStart src codec] ++ after_start src (next m) start_err
          ∧ (∀ a f, occupants src m !! a = Some f →
               eviction src (slot src m ≫= (stopFns m !!.)) =
                 [ReceiverStop (receiver f); SrcStop src;
                  Log Info "remote track stopped"])
          ∧ (occupants src m = ∅ →
               eviction src (slot src m ≫= (stopFns m !!.)) = [])
          ∧ slot src m' = Some (S (next m))
          ∧ (∀ c g, occupants src m' !! c = Some g →
               c = S (next m) ∧ receiver g = next m ∧ start_err = None)
          ∧ (size (occupants src m') ≤ 1)%nat
          ∧ (∀ r, (stops_of r (trace m') ≤ 1)%nat).
Proof.
  destruct (track_run_spec ParseRTC ss (New e) (Inv_New e)) as (m & Hrun & HI).
  exists m. split; [done|]. split; [|split].
  - intros src. split; [by apply occupants_size|].
    intros a f Hocc. by destruct (occupants_slot m src a f HI Hocc).
  - apply (inv_once _ _ HI).
  - intros session track start_err codec src Hshare Hparse Hsink.
    destruct (TrackArrives_spec ParseRTC m session track start_err HI)
      as (m' & Hstep & HI' & Hacc).
    destruct (Hacc codec src Hshare Hparse Hsink) as (Hslot & Hfn & Htr).
    exists m'. split; [done|]. split; [done|]. split.
    { intros a f Hocc. by destruct (occupants_slot m src a f HI Hocc) as (_ & _ & ?). }
    split; [by apply no_occupant_no_eviction|]. split; [done|]. split.
    { intros c g Hocc.
      destruct (occupants_slot m' src c g HI' Hocc) as (Hc & Hg & _).
      rewrite Hslot in Hc. injection Hc as <-.
      rewrite Hfn in Hg. injection Hg as <-.
      apply map_lookup_filter_Some in Hocc as [_ [_ Hst]]. simpl in Hst.
      apply bool_decide_eq_false in Hst.
      split; [done|]. split; [done|].
      destruct start_err; [|done]. exfalso. apply Hst. by eexists. }
    split; [by apply occupants_size|]. apply (inv_once _ _ HI').
Qed.

Lemma one_occupant_per_sink_witness :
  CanShareMedia host = true
  ∧ example_ParseRTC (Codec opus_track)
      = Some {| CodecName := "opus"; CodecType := RTPCodecTypeAudio |}
  ∧ sink_of (Kind opus_track) = Some Microphone
  ∧ ∃ m m', track_run example_ParseRTC [TrackArrives viewer opus_track None]
              (New example_env) = Some (tt, m)
      ∧ track_step example_ParseRTC (TrackArrives host opus_track None) m
          = Some (tt, m')
      ∧ slot Microphone m' = Some (S (next m))
      ∧ (size (occupants Microphone m') ≤ 1)%nat.
Proof.
  split; [reflexivity|]. split; [reflexivity|]. split; [reflexivity|].
  destruct (one_occupant_per_sink example_ParseRTC example_env
              [TrackArrives viewer opus_track None])
    as (m & Hrun & _ & _ & Hacc).
  destruct (Hacc host opus_track None
              {| CodecName := "opus"; CodecType := RTPCodecTypeAudio |}
              Microphone eq_refl eq_refl eq_refl)
    as (m' & Hstep & _ & _ & _ & Hslot & _ & Hsize & _).
  exists m, m'. split; [exact Hrun|]. split; [exact Hstep|].
  split; [exact Hslot | exact Hsize].
Defined.

(** ** The statement-level cuts are the handlers *)

Lemma stopFn_split a m :
  stopFn a m = (seen ← stopFn_flag a; when (negb seen) (stopFn_body a)) m.
Proof.
  cbv [stopFn stopFn_flag stopFn_body when]; run_M.
  destruct (stopFns m !! a) as [f|] eqn:Hf; [|done].
  destruct (stopped f) eqn:Hst; simpl; [done|]. by rewrite Hf.
Qed.

Lemma acquire_split src a r codec start_err m :
  acquire src a r codec start_err m =
  (acquire_bind src a;; acquire_evict src;; acquire_install src a;;
   acquire_start src a r codec start_err) m.
Proof.
  cbv [acquire acquire_bind acquire_evict acquire_install acquire_start];
    run_M.
  destruct (stopFns m !! a) as [f|]; [|done]. cbn beta iota.
  match goal with |- context [slot src ?m1] => destruct (slot src m1) end;
    cbn beta iota; [|done].
  match goal with |- context [stopFn ?b ?m1] =>
    destruct (stopFn b m1) as [[[] ?]|] end; done.
Qed.

Lemma OnTrack_begin_split ParseRTC session track r start_err m :
  OnTrack_begin ParseRTC session track r start_err m =
  (x ← OnTrack_enter ParseRTC session track r;
   match x with
   | Some (src, a, codec) => acquire src a r codec start_err
   | None => mret Returned
   end) m.
Proof.
  cbv [OnTrack_begin OnTrack_enter emit fresh]; run_M.
  destruct (CanShareMedia session); simpl; [|done].
  destruct (ParseRTC (Codec track)); [|done].
  destruct (Kind track); cbn beta iota; try done;
    match goal with |- ?x = _ => destruct x as [[? ?]|] end; done.
Qed.

Lemma OnTrack_read_split a src r m :
  OnTrack_read a src r None m =
  (OnTrack_read_ends r;; stopFn a;; mret Returned) m.
Proof. reflexivity. Qed.

Lemma OnOpen_split p session image_err position_err m :
  OnOpen p session image_err position_err m =
  (OnOpen_register p;; OnOpen_initial p session image_err position_err) m.
Proof. reflexivity. Qed.

(** The manager takes no lock.  When the handlers of two audio tracks
    overlap, each can pass the test of the slot before the other has
    installed its stop function: neither track is stopped, the
    microphone is started twice and both tracks occupy it.  And when a
    track is evicted while its own read fails, both calls of its stop
    function can pass the test of the flag before either sets it: its
    receiver is stopped twice. *)
Lemma overlapping_tracks_share_a_sink :
  (∃ m, two_tracks_overlapping (New example_env)
          = Some ((Reading 1 Microphone, Reading 3 Microphone), m)
     ∧ size (occupants Microphone m) = 2%nat
     ∧ sinks_started (trace m) = [Microphone; Microphone]
     ∧ stops_of 0 (trace m) = 0%nat ∧ stops_of 2 (trace m) = 0%nat)
  ∧ (∃ m, eviction_meets_failed_read (New example_env)
            = Some ((false, false), m)
       ∧ stops_of 0 (trace m) = 2%nat).
Proof.
  split.
  - eexists. split; [vm_compute; reflexivity|]. by vm_compute.
  - eexists. split; [vm_compute; reflexivity|]. by vm_compute.
Qed.

(** Two microphone tracks in a row, then the first one's read failing:
    the first track is stopped once, when the second takes the slot, and
    the sink the second one started is left running. *)
Example second_track_evicts_first :
  ∃ m, track_run example_ParseRTC
         [TrackArrives viewer opus_track None;
          TrackArrives host opus_track None;
          TrackFails 0] (New example_env) = Some (tt, m)
    ∧ trace m =
        [Log Info "received new remote track";
         SrcStart Microphone {| CodecName := "opus"; CodecType := RTPCodecTypeAudio |};
         TickerStart 0;
         Log Info "received new remote track";
         ReceiverStop 0; SrcStop Microphone; Log Info "remote track stopped";
         SrcStart Microphone {| CodecName := "opus"; CodecType := RTPCodecTypeAudio |};
         TickerStart 2;
         Log Warn "failed read from remote track";
         Log Info "remote track data finished";
         TickerStop 0]
    ∧ micStop m = Some 3%nat
    ∧ dom (occupants Microphone m) = {[3%nat]}.
Proof.
  eexists. split; [vm_compute; reflexivity|].
  split; [reflexivity|]. split; [reflexivity|]. by vm_compute.
Qed.

End webrtc_facts.


(** ** More on the signaling manager *)
Section websocket_more.
Import websocket.

Ltac run_ws' :=
  cbv [OnSettingsChanged startInactiveCursors stopInactiveCursors
       loop_tick loop_shutdown PopCursors fresh emit connect Start_tail];
  run_M.

Lemma connects_app t1 t2 : connects (t1 ++ t2) = connects t1 ++ connects t2.
Proof. apply omap_app. Qed.

Lemma destroys_app t1 t2 : destroys (t1 ++ t2) = destroys t1 ++ destroys t2.
Proof. apply omap_app. Qed.

(** X1. [connect] turns a request away in three cases, looked at in this
    order: authentication failed, the profile may not connect, the session
    is connected already and merciful reconnect is off.  In each it logs
    one warning and destroys the new peer with the reason, and the session
    registry hears neither a connect nor a disconnect. *)
Theorem connect_turns_away (m : WebSocketManagerCtx) (auth : string + Session)
    (handle_ret : option GoError) (reason : string) :
  match auth with
  | inl err => reason = err
  | inr session =>
      (CanConnect session = false ∧ reason = "connection disabled")
      ∨ (CanConnect session = true ∧ IsConnected session = true
         ∧ MercifulReconnect (settings m) = false
         ∧ reason = "already connected")
  end →
  ∃ m' warning,
    connect auth handle_ret m = Some (tt, m')
    ∧ trace m' = trace m ++ [Log Warn warning; PeerDestroy reason]
    ∧ connects (trace m') = connects (trace m)
    ∧ disconnects (trace m') = disconnects (trace m)
    ∧ loops m' = loops m ∧ cursors m' = cursors m
    ∧ shutdownInactiveCursors m' = shutdownInactiveCursors m.
Proof.
  intros Hcase. run_ws'. destruct auth as [err|session].
  - subst reason. do 2 eexists. split; [reflexivity|]. simpl.
    rewrite <- !app_assoc, connects_app, disconnects_app. simpl.
    by rewrite !app_nil_r.
  - destruct Hcase as [[Hcan ->]|(Hcan & Hconn & Hmerci & ->)];
      rewrite Hcan; simpl.
    + do 2 eexists. split; [reflexivity|]. simpl.
      rewrite <- !app_assoc, connects_app, disconnects_app. simpl.
      by rewrite !app_nil_r.
    + rewrite Hconn, Hmerci. simpl.
      do 2 eexists. split; [reflexivity|]. simpl.
      rewrite <- !app_assoc, connects_app, disconnects_app. simpl.
      by rewrite !app_nil_r.
Qed.

Lemma connect_turns_away_witness :
  let m := init {| InactiveCursors := false; MercifulReconnect := false |} in
  let session := {| SessionID := "a"; CanConnect := true; IsConnected := true |} in
  ((CanConnect session = false ∧ "already connected" = "connection disabled")
   ∨ (CanConnect session = true ∧ IsConnected session = true
      ∧ MercifulReconnect (settings m) = false
      ∧ "already connected" = "already connected"))
  ∧ ∃ m', connect (inr session) None m = Some (tt, m')
      ∧ destroys (trace m') = ["already connected"]
      ∧ connects (trace m') = [].
Proof.
  intros m session.
  assert ((CanConnect session = false ∧ "already connected" = "connection disabled")
          ∨ (CanConnect session = true ∧ IsConnected session = true
             ∧ MercifulReconnect (settings m) = false
             ∧ "already connected" = "already connected")) as Hcase
      by (right; repeat split; reflexivity).
  split; [exact Hcase|].
  destruct (connect_turns_away m (inr session) None "already connected" Hcase)
    as (m' & w & Hrun & Htr & Hc & _).
  exists m'. split; [exact Hrun|]. split; [|exact Hc].
  rewrite Htr, destroys_app. reflexivity.
Defined.

(** X3. Starting the aggregation loop on an idle manager, stopping it, and
    letting the loop take the shutdown signal brings the manager back to
    idle: the shutdown channel field is nil again, the loops and the wait
    group's counter are what they were, the cursor buffers are cleared, and
    the loop has sent exactly one broadcast, the empty one. *)
Theorem start_stop_round_trip (m : WebSocketManagerCtx) :
  shutdownInactiveCursors m = None →
  loops m !! S (next m) = None →
  ∃ m', (startInactiveCursors;; stopInactiveCursors;;
         loop_shutdown (S (next m))) m = Some (tt, m')
    ∧ shutdownInactiveCursors m' = None
    ∧ loops m' = loops m ∧ wg m' = wg m
    ∧ cursors m' = ∅
    ∧ broadcasts (trace m') = broadcasts (trace m) ++ [[]]
    ∧ warnings (trace m') = warnings (trace m).
Proof.
  intros Hidle Hfree. run_ws'. simpl. rewrite Hidle. simpl.
  rewrite !lookup_insert_eq. simpl. rewrite !lookup_insert_eq. simpl.
  eexists. split; [reflexivity|]. simpl.
  rewrite <- !app_assoc, broadcasts_app, warnings_app. simpl.
  rewrite app_nil_r, delete_insert_id by done. done.
Qed.

Lemma start_stop_round_trip_witness :
  let m := init {| InactiveCursors := false; MercifulReconnect := false |} in
  shutdownInactiveCursors m = None
  ∧ loops m !! S (next m) = None
  ∧ ∃ m', (startInactiveCursors;; stopInactiveCursors;;
           loop_shutdown (S (next m))) m = Some (tt, m')
      ∧ loops m' = ∅ ∧ broadcasts (trace m') = [[]].
Proof.
  intros m. split; [reflexivity|]. split; [reflexivity|].
  destruct (start_stop_round_trip m) as (m' & Hrun & _ & Hl & _ & _ & Hb & _);
    [reflexivity..|].
  exists m'. split; [exact Hrun|]. split; [exact Hl | exact Hb].
Defined.

(** X4. [stopInactiveCursors] closes the channel in the field and leaves
    the field for the loop to reset.  So a second stop that comes before
    the loop has taken the signal closes a closed channel: it panics. *)
Theorem stop_twice_panics (m : WebSocketManagerCtx) :
  shutdownInactiveCursors m = None →
  (∃ m', (startInactiveCursors;; stopInactiveCursors) m = Some (tt, m')
     ∧ is_Some (shutdownInactiveCursors m'))
  ∧ (startInactiveCursors;; stopInactiveCursors;; stopInactiveCursors) m = None.
Proof.
  intros Hidle. run_ws'. simpl. rewrite Hidle. simpl.
  rewrite !lookup_insert_eq. simpl. rewrite !lookup_insert_eq.
  split; [|done]. eexists. split; [reflexivity|]. by eexists.
Qed.

Lemma stop_twice_panics_witness :
  let m := init {| InactiveCursors := true; MercifulReconnect := false |} in
  shutdownInactiveCursors m = None
  ∧ (startInactiveCursors;; stopInactiveCursors;; stopInactiveCursors) m = None.
Proof.
  intros m. split; [reflexivity|].
  destruct (stop_twice_panics m) as [_ Hpanic]; [reflexivity|]. exact Hpanic.
Defined.

(** X5. A start that comes after a stop, but before the loop has taken the
    shutdown signal, finds the field still set: it logs the warning and
    starts nothing.  When the loop then takes the signal and returns, no
    loop is left running although the last request was a start. *)
Theorem restart_before_shutdown_is_lost (m : WebSocketManagerCtx)
    (session : Session) (on off : Settings) :
  InactiveCursors on = true → InactiveCursors off = false →
  shutdownInactiveCursors m = None →
  loops m !! S (next m) = None →
  ∃ m', (OnSettingsChanged session on off;;
         OnSettingsChanged session off on;;
         OnSettingsChanged session on off;;
         loop_shutdown (S (next m))) m = Some (tt, m')
    ∧ loops m' = loops m
    ∧ shutdownInactiveCursors m' = None
    ∧ warnings (trace m') =
        warnings (trace m) ++ ["inactive cursors handler already running"].
Proof.
  intros Hon Hoff Hidle Hfree. unfold OnSettingsChanged.
  rewrite Hon, Hoff. simpl. run_ws'. simpl. rewrite Hidle. simpl.
  rewrite !lookup_insert_eq. simpl. rewrite !lookup_insert_eq. simpl.
  eexists. split; [reflexivity|]. simpl.
  rewrite <- !app_assoc, warnings_app. simpl.
  rewrite delete_insert_id by done. done.
Qed.

Lemma restart_before_shutdown_is_lost_witness :
  let on := {| InactiveCursors := true; MercifulReconnect := false |} in
  let off := {| InactiveCursors := false; MercifulReconnect := false |} in
  let session := {| SessionID := "a"; CanConnect := true; IsConnected := true |} in
  let m := init off in
  InactiveCursors on = true ∧ InactiveCursors off = false
  ∧ shutdownInactiveCursors m = None ∧ loops m !! S (next m) = None
  ∧ ∃ m', (OnSettingsChanged session on off;;
           OnSettingsChanged session off on;;
           OnSettingsChanged session on off;;
           loop_shutdown (S (next m))) m = Some (tt, m')
      ∧ loops m' = ∅.
Proof.
  intros on off session m. do 4 (split; [reflexivity|]).
  destruct (restart_before_shutdown_is_lost m session on off)
    as (m' & Hrun & Hl & _); [reflexivity..|].
  exists m'. split; [exact Hrun | exact Hl].
Defined.

Lemma range_cursors_empty (c : gmap string (list Cursor)) :
  range_cursors c = [] ↔ c = ∅.
Proof.
  unfold range_cursors. split.
  - intros Hnil%fmap_nil_inv. by apply map_to_list_empty_iff.
  - intros ->. by rewrite map_to_list_empty.
Qed.

(** What a run of ticks broadcasts, for a loop whose [lastEmpty] is [le]. *)
Lemma ticks_spec (g : nat) (cs : list (gmap string (list Cursor))) :
  ∀ (m : WebSocketManagerCtx) (le : bool),
  loops m !! g = Some le →
  ∃ m' bs,
    ticks g cs m = Some (tt, m')
    ∧ broadcasts (trace m') = broadcasts (trace m) ++ bs
    ∧ (length bs ≤ length cs)%nat
    ∧ (∀ c, c ∈ cs → c ≠ ∅ → range_cursors c ∈ bs)
    ∧ no_adjacent_empty bs
    ∧ (le = true → head bs ≠ Some [])
    ∧ (cs ≠ [] → cursors m' = ∅)
    ∧ is_Some (loops m' !! g)
    ∧ shutdownInactiveCursors m' = shutdownInactiveCursors m
    ∧ chans m' = chans m ∧ wg m' = wg m.
Proof.
  induction cs as [|c cs IH]; intros m le Hg.
  - exists m, []. simpl. rewrite app_nil_r.
    split; [done|]. split; [done|]. split; [lia|].
    split; [intros c Hc; by apply elem_of_nil in Hc|].
    split; [done|]. split; [done|]. split; [done|].
    split; [by eexists|]. done.
  - destruct (loop_tick_spec g m le c Hg) as (m1 & Hrun1 & Hc1 & Hg1 & Ht1).
    assert (shutdownInactiveCursors m1 = shutdownInactiveCursors m
            ∧ chans m1 = chans m ∧ wg m1 = wg m) as (Hs1 & Hch1 & Hw1).
    { revert Hrun1. unfold accumulate. run_ws'. simpl. rewrite Hg.
      match goal with
      | |- (if ?b then _ else _) _ = _ → _ => destruct b
      end; cbn beta; intros [= <-]; done. }
    destruct (IH m1 _ Hg1) as (m' & bs & Hrun & Hb & Hlen & Hin & Hadj & Hhd
                                & Hcur & Hg' & Hs & Hch & Hw).
    assert (ticks g (c :: cs) m = Some (tt, m')) as Hticks.
    { revert Hrun1. simpl. unfold mbind, M_bind.
      destruct (accumulate c m) as [[[] m0]|]; [|done].
      intros ->. done. }
    exists m'.
    exists ((if bool_decide (c = ∅) && le then []
             else [range_cursors c]) ++ bs).
    split; [done|]. split.
    { rewrite Hb, Ht1, broadcasts_app, <- app_assoc. f_equal. f_equal.
      by destruct (_ && _). }
    split.
    { rewrite length_app. destruct (_ && _); simpl; lia. }
    split.
    { intros c' [->|Hc']%elem_of_cons Hne.
      - rewrite bool_decide_eq_false_2 by done. simpl. apply elem_of_cons. by left.
      - apply elem_of_app. right. by apply Hin. }
    split.
    { destruct (bool_decide (c = ∅)) eqn:Hc; simpl.
      - apply bool_decide_eq_true in Hc. subst c.
        destruct le; simpl; [done|].
        replace (range_cursors ∅) with (@nil SessionCursors)
          by (symmetry; by apply range_cursors_empty).
        destruct bs as [|[|b0 b] bs']; simpl in *; try done.
        by apply Hhd.
      - apply bool_decide_eq_false in Hc.
        destruct (range_cursors c) as [|x xs] eqn:Hr.
        { by apply range_cursors_empty in Hr. }
        done. }
    split.
    { intros ->. destruct (bool_decide (c = ∅)) eqn:Hc; simpl.
      - by apply Hhd.
      - apply bool_decide_eq_false in Hc. intros [= Hr].
        by apply range_cursors_empty in Hr. }
    split.
    { intros _. destruct cs as [|c' cs']; [|by apply Hcur].
      simpl in Hrun. injection Hrun as <-. done. }
    split; [done|]. split; [congruence|]. split; congruence.
Qed.

(** X6. A running aggregation loop ticks any number of times, on any
    buffers.  It sends at most one broadcast per tick, it sends one for
    every tick that found a session with points (with that tick's entries),
    and it never sends two empty broadcasts in a row.  The ticks leave the
    registry's buffers cleared and touch neither the shutdown channel nor
    the wait group; the loop is still running. *)
Theorem ticks_never_repeat_empty (g : nat) (m : WebSocketManagerCtx)
    (lastEmpty : bool) (cs : list (gmap string (list Cursor))) :
  loops m !! g = Some lastEmpty →
  ∃ m' bs,
    ticks g cs m = Some (tt, m')
    ∧ broadcasts (trace m') = broadcasts (trace m) ++ bs
    ∧ (length bs ≤ length cs)%nat
    ∧ (∀ c, c ∈ cs → c ≠ ∅ → range_cursors c ∈ bs)
    ∧ no_adjacent_empty bs
    ∧ (cs ≠ [] → cursors m' = ∅)
    ∧ is_Some (loops m' !! g)
    ∧ shutdownInactiveCursors m' = shutdownInactiveCursors m
    ∧ chans m' = chans m ∧ wg m' = wg m.
Proof.
  intros Hg.
  destruct (ticks_spec g cs m lastEmpty Hg)
    as (m' & bs & ? & ? & ? & ? & ? & _ & ? & ? & ? & ? & ?).
  by exists m', bs.
Qed.

Lemma ticks_never_repeat_empty_witness :
  let on := {| InactiveCursors := true; MercifulReconnect := false |} in
  ∃ m, Start_tail (init on) = Some (tt, m)
    ∧ loops m !! 1%nat = Some false
    ∧ ∃ m' bs, ticks 1 [∅; ∅; ∅] m = Some (tt, m')
        ∧ broadcasts (trace m') = bs
        ∧ no_adjacent_empty bs ∧ (length bs ≤ 3)%nat.
Proof.
  intros on. eexists. split; [vm_compute; reflexivity|].
  split; [vm_compute; reflexivity|].
  match goal with
  | |- ∃ m' bs, ticks _ ?cs ?m = _ ∧ _ =>
      destruct (ticks_never_repeat_empty 1 m false cs)
        as (m' & bs & Hrun & Hb & Hlen & _ & Hadj & _);
        [vm_compute; reflexivity|]
  end.
  exists m', bs. split; [exact Hrun|]. split; [exact Hb|].
  split; [exact Hadj | exact Hlen].
Defined.

End websocket_more.


(** ** The dispatch loop *)
Section dispatch_facts.
Import dispatch.

Variable Unmarshal : list Byte.byte → option WebSocketMessage.
Variable nolog : string → bool.

Ltac run_dispatch :=
  cbv [on_bytes emit AddHandler]; run_M.

Lemma calls_app t1 t2 : calls (t1 ++ t2) = calls t1 ++ calls t2.
Proof. apply omap_app. Qed.

Lemma warned_app t1 t2 : warned (t1 ++ t2) = warned t1 ++ warned t2.
Proof. apply omap_app. Qed.

Lemma destroyed_app t1 t2 : destroyed (t1 ++ t2) = destroyed t1 ++ destroyed t2.
Proof. apply omap_app. Qed.

Lemma logged_payloads_app t1 t2 :
  logged_payloads (t1 ++ t2) = logged_payloads t1 ++ logged_payloads t2.
Proof. apply omap_app. Qed.

(** The handlers of [hs] are called from the first one up to the first
    that handles the message. *)
Lemma range_handlers_spec (hs : list (WebSocketMessage → bool))
    (data : WebSocketMessage) :
  ∀ (i : nat) (m : Ctx),
  ∃ m' n,
    range_handlers i hs data false m
      = Some (bool_decide (is_Some (first_handling i hs data)), m')
    ∧ trace m' = trace m ++ ((λ j, Call j data) <$> seq i n)
    ∧ n = match first_handling i hs data with
          | Some k => (S k - i)%nat
          | None => length hs
          end
    ∧ (∀ k, first_handling i hs data = Some k → (i ≤ k)%nat)
    ∧ handler_Message m' = handler_Message m ∧ handlers m' = handlers m.
Proof.
  induction hs as [|h hs IH]; intros i m.
  - exists m, 0%nat. simpl. rewrite app_nil_r. repeat split; try done.
  - simpl. run_dispatch.
    destruct (h data) eqn:Hh.
    + eexists _, 1%nat. destruct hs; simpl;
        (split; [reflexivity|]); (split; [done|]);
        (split; [lia|]); (split; [intros k [= <-]; done|]); done.
    + set (m1 := {| handler_Message := handler_Message m;
                    handlers := handlers m;
                    trace := trace m ++ [Call i data] |}).
      destruct (IH (S i) m1) as (m' & n & Hrun & Htr & Hn & Hle & Hhm & Hhs).
      exists m', (S n). split; [exact Hrun|]. split.
      { rewrite Htr. simpl. rewrite <- app_assoc. done. }
      split.
      { rewrite Hn. destruct (first_handling (S i) hs data) as [k|] eqn:Hk; [|done].
        specialize (Hle k eq_refl). lia. }
      split; [|done].
      intros k Hk. specialize (Hle k Hk). lia.
Qed.

(** One message that decodes. *)
Lemma on_bytes_decoded (m : Ctx) (raw : list Byte.byte) (data : WebSocketMessage) :
  Unmarshal raw = Some data →
  ∃ m' d,
    on_bytes Unmarshal nolog raw m = Some (tt, m')
    ∧ trace m' = trace m ++ d
    ∧ handler_Message m' = handler_Message m ∧ handlers m' = handlers m
    ∧ calls d =
        (λ j, (j, data)) <$>
        seq 0 match first_handling 0 (handler_Message m :: handlers m) data with
              | Some k => S k
              | None => S (length (handlers m))
              end
    ∧ warned d =
        match first_handling 0 (handler_Message m :: handlers m) data with
        | Some _ => []
        | None => ["unhandled message"]
        end
    ∧ destroyed d = []
    ∧ logged_payloads d =
        (if nolog (Event data) then []
         else [if decide (maxPayloadLogLength < Z.of_nat (length (Payload data)))
               then truncated else Payload data]).
Proof.
  intros Hraw. unfold on_bytes. rewrite Hraw.
  set (logline := when (negb (nolog (Event data))) _).
  assert (∃ m0 d0, logline m = Some (tt, m0) ∧ trace m0 = trace m ++ d0
            ∧ handler_Message m0 = handler_Message m ∧ handlers m0 = handlers m
            ∧ calls d0 = [] ∧ warned d0 = [] ∧ destroyed d0 = []
            ∧ logged_payloads d0 =
                (if nolog (Event data) then []
                 else [if decide (maxPayloadLogLength < Z.of_nat (length (Payload data)))
                       then truncated else Payload data]))
    as (m0 & d0 & Hlog & Ht0 & Hhm0 & Hhs0 & Hc0 & Hw0 & Hd0 & Hl0).
  { unfold logline. destruct (nolog (Event data)); simpl.
    - exists m, []. rewrite app_nil_r. done.
    - eexists _, [_]. split; [reflexivity|]. done. }
  clearbody logline. unfold mbind, M_bind at 1. rewrite Hlog.
  run_dispatch. simpl. rewrite Hhm0, Hhs0.
  set (m1 := {| handler_Message := handler_Message m; handlers := handlers m;
                trace := trace m0 ++ [Call 0 data] |}).
  destruct (handler_Message m data) eqn:Hfirst.
  - destruct (handlers m) as [|h hs] eqn:Hhs; simpl;
      (eexists _, (d0 ++ [Call 0 data]); split; [reflexivity|]; simpl;
       rewrite Ht0, <- app_assoc, !calls_app, !warned_app, !destroyed_app,
         !logged_payloads_app, Hc0, Hw0, Hd0, Hl0; simpl;
       rewrite ?app_nil_r; done).
  - destruct (range_handlers_spec (handlers m) data 1 m1)
      as (m' & n & Hrun & Htr & Hn & Hle & Hhm & Hhs).
    rewrite Hrun.
    destruct (first_handling 1 (handlers m) data) as [k|] eqn:Hk; simpl.
    + exists m', (d0 ++ [Call 0 data] ++ ((λ j, Call j data) <$> seq 1 n)).
      split; [done|]. split.
      { rewrite Htr. simpl. rewrite Ht0, <- !app_assoc. done. }
      split; [done|]. split; [done|].
      rewrite !calls_app, !warned_app, !destroyed_app, !logged_payloads_app,
        Hc0, Hw0, Hd0, Hl0. simpl.
      specialize (Hle k eq_refl). subst n.
      replace (S k - 1)%nat with k by lia.
      assert (∀ a l, calls ((λ j, Call j data) <$> seq a l)
                     = (λ j, (j, data)) <$> seq a l) as Hcalls.
      { intros a l. revert a. induction l as [|l IHl]; intros a; [done|].
        simpl. by rewrite IHl. }
      assert (∀ a l, warned ((λ j, Call j data) <$> seq a l) = []
                     ∧ destroyed ((λ j, Call j data) <$> seq a l) = []
                     ∧ logged_payloads ((λ j, Call j data) <$> seq a l) = [])
        as Hnone.
      { intros a l. revert a. induction l as [|l IHl]; intros a; [done|].
        simpl. apply IHl. }
      destruct (Hnone 1%nat k) as (-> & -> & ->).
      rewrite Hcalls, ?app_nil_r. done.
    + eexists _, (d0 ++ [Call 0 data] ++ ((λ j, Call j data) <$> seq 1 n)
                    ++ [Log Warn "unhandled message"]).
      split; [reflexivity|]. split.
      { simpl. rewrite Htr. simpl. rewrite Ht0, <- !app_assoc. done. }
      split; [done|]. split; [done|].
      rewrite !calls_app, !warned_app, !destroyed_app, !logged_payloads_app,
        Hc0, Hw0, Hd0, Hl0. simpl. subst n.
      assert (∀ a l, calls ((λ j, Call j data) <$> seq a l)
                     = (λ j, (j, data)) <$> seq a l) as Hcalls.
      { intros a l. revert a. induction l as [|l IHl]; intros a; [done|].
        simpl. by rewrite IHl. }
      assert (∀ a l, warned ((λ j, Call j data) <$> seq a l) = []
                     ∧ destroyed ((λ j, Call j data) <$> seq a l) = []
                     ∧ logged_payloads ((λ j, Call j data) <$> seq a l) = [])
        as Hnone.
      { intros a l. revert a. induction l as [|l IHl]; intros a; [done|].
        simpl. apply IHl. }
      destruct (Hnone 1%nat (length (handlers m))) as (-> & -> & ->).
      rewrite Hcalls, ?app_nil_r. done.
Qed.

(** A message that does not decode. *)
Lemma on_bytes_malformed (m : Ctx) (raw : list Byte.byte) :
  Unmarshal raw = None →
  on_bytes Unmarshal nolog raw m
  = Some (tt, {| handler_Message := handler_Message m; handlers := handlers m;
                 trace := trace m ++ [Log Error "message unmarshalling has failed"] |}).
Proof. intros Hraw. unfold on_bytes. by rewrite Hraw. Qed.

(** X7. A received message that decodes is offered to the built-in handler
    first and then to the registered handlers in the order they were
    added, up to and including the first one that handles it; the handlers
    after that one are not called.  The warning about an unhandled message
    is logged exactly when no handler handled it.  A handler added with
    [AddHandler] comes last. *)
Theorem dispatch_first_handler_wins (m : Ctx) (raw : list Byte.byte)
    (data : WebSocketMessage) (added : WebSocketMessage → bool) :
  Unmarshal raw = Some data →
  (∃ m' d,
     on_bytes Unmarshal nolog raw m = Some (tt, m')
     ∧ trace m' = trace m ++ d
     ∧ calls d =
         (λ j, (j, data)) <$>
         seq 0 match first_handling 0 (handler_Message m :: handlers m) data with
               | Some k => S k
               | None => S (length (handlers m))
               end
     ∧ warned d =
         match first_handling 0 (handler_Message m :: handlers m) data with
         | Some _ => []
         | None => ["unhandled message"]
         end)
  ∧ (∃ m1 m' d,
       AddHandler added m = Some (tt, m1)
       ∧ on_bytes Unmarshal nolog raw m1 = Some (tt, m')
       ∧ trace m' = trace m ++ d
       ∧ ((length (handlers m1), data) ∈ calls d →
          first_handling 0 (handler_Message m :: handlers m) data = None)).
Proof.
  intros Hraw. split.
  - destruct (on_bytes_decoded m raw data Hraw)
      as (m' & d & Hrun & Htr & _ & _ & Hcalls & Hwarn & _).
    by exists m', d.
  - eexists. 
    destruct (on_bytes_decoded
                {| handler_Message := handler_Message m;
                   handlers := handlers m ++ [added]; trace := trace m |}
                raw data Hraw)
      as (m' & d & Hrun & Htr & _ & _ & Hcalls & _).
    exists m', d. split; [reflexivity|]. split; [exact Hrun|].
    split; [exact Htr|]. simpl in *.
    intros Hin. rewrite Hcalls in Hin.
    apply list_elem_of_fmap in Hin as (j & [= <-] & Hj).
    apply elem_of_seq in Hj. rewrite length_app in *. simpl in *.
    destruct (handler_Message m data) eqn:Hfirst; [lia|].
    assert (∀ hs i, first_handling i (hs ++ [added]) data =
              match first_handling i hs data with
              | Some k => Some k
              | None => if added data then Some (i + length hs)%nat else None
              end) as Happ.
    { induction hs as [|h hs IH]; intros i; simpl.
      - by rewrite Nat.add_0_r.
      - destruct (h data); [done|]. rewrite IH.
        by replace (S i + length hs)%nat with (i + S (length hs))%nat by lia. }
    rewrite Happ in Hj.
    destruct (first_handling 1 (handlers m) data) as [k|] eqn:Hk; [|done].
    assert (∀ hs i k, first_handling i hs data = Some k → (k < i + length hs)%nat)
      as Hlt.
    { induction hs as [|h hs IH]; intros i k'; simpl; [done|].
      destruct (h data); [intros [= <-]; lia|].
      intros Hk'%IH. lia. }
    apply Hlt in Hk. lia.
Qed.

(** What a run of the loop does, by induction on what it receives. *)
Lemma handle_spec (evs : list Select) :
  ∀ m : Ctx,
  ∃ o m' d,
    handle Unmarshal nolog evs m = Some (o, m')
    ∧ trace m' = trace m ++ d
    ∧ handler_Message m' = handler_Message m ∧ handlers m' = handlers m
    ∧ Forall (λ p, Z.of_nat (length p) ≤ maxPayloadLogLength) (logged_payloads d)
    ∧ match o with
      | Waiting => destroyed d = [] ∧ Forall (λ ev, ends ev = false) evs
      | Returned r =>
          ∃ pre ev post,
            evs = pre ++ ev :: post
            ∧ Forall (λ ev, ends ev = false) pre
            ∧ ends ev = true ∧ r = result ev
            ∧ destroyed d =
                match ev with
                | Shutdown => ["connection shutdown"]
                | _ => []
                end
      end.
Proof.
  induction evs as [|ev evs IH]; intros m.
  - exists Waiting, m, []. simpl. rewrite app_nil_r. repeat split; by try constructor.
  - destruct ev as [raw|err| |[err|]]; simpl.
    + assert (∃ m1 d1, on_bytes Unmarshal nolog raw m = Some (tt, m1)
                ∧ trace m1 = trace m ++ d1
                ∧ handler_Message m1 = handler_Message m
                ∧ handlers m1 = handlers m
                ∧ destroyed d1 = []
                ∧ Forall (λ p, Z.of_nat (length p) ≤ maxPayloadLogLength)
                    (logged_payloads d1))
        as (m1 & d1 & Hrun1 & Ht1 & Hhm1 & Hhs1 & Hd1 & Hl1).
      { destruct (Unmarshal raw) as [data|] eqn:Hraw.
        - destruct (on_bytes_decoded m raw data Hraw)
            as (m1 & d1 & ? & ? & ? & ? & _ & _ & ? & Hl).
          exists m1, d1. repeat split; try done. rewrite Hl.
          destruct (nolog (Event data)); [constructor|].
          constructor; [|constructor].
          case_decide; [by vm_compute | lia].
        - rewrite (on_bytes_malformed m raw Hraw).
          eexists _, [_]. repeat split; done || constructor. }
      destruct (IH m1) as (o & m' & d & Hrun & Ht & Hhm & Hhs & Hl & Ho).
      exists o, m', (d1 ++ d). unfold mbind, M_bind. rewrite Hrun1.
      split; [exact Hrun|]. split; [by rewrite Ht, Ht1, app_assoc|].
      split; [congruence|]. split; [congruence|].
      split; [rewrite logged_payloads_app; by apply Forall_app|].
      destruct o as [|r].
      * destruct Ho as (? & ?). rewrite destroyed_app, Hd1.
        split; [done|]. by constructor.
      * destruct Ho as (pre & ev & post & -> & Hpre & Hev & Hr & Hd).
        exists (Bytes raw :: pre), ev, post. rewrite destroyed_app, Hd1.
        repeat split; try done. by constructor.
    + exists (Returned (Some err)), m, []. rewrite app_nil_r.
      split; [done|]. split; [done|]. split; [done|]. split; [done|].
      split; [constructor|].
      exists [], (Cancel err), evs.
      split; [done|]. split; [constructor|]. done.
    + run_dispatch. eexists (Returned None), _, [_].
      split; [reflexivity|]. split; [done|]. split; [done|]. split; [done|].
      split; [constructor|].
      exists [], Shutdown, evs.
      split; [done|]. split; [constructor|]. done.
    + run_dispatch. eexists (Returned (Some err)), _, [_].
      split; [reflexivity|]. split; [done|]. split; [done|]. split; [done|].
      split; [constructor|].
      exists [], (Tick (Some err)), evs.
      split; [done|]. split; [constructor|]. done.
    + run_dispatch.
      set (m1 := {| handler_Message := handler_Message m; handlers := handlers m;
                    trace := trace m ++ [Ping] |}).
      destruct (IH m1) as (o & m' & d & Hrun & Ht & Hhm & Hhs & Hl & Ho).
      exists o, m', ([Ping] ++ d).
      split; [exact Hrun|]. split; [by rewrite Ht, app_assoc|].
      split; [done|]. split; [done|]. split; [done|].
      destruct o as [|r].
      * destruct Ho as (? & ?). split; [done|]. by constructor.
      * destruct Ho as (pre & ev & post & -> & Hpre & Hev & Hr & Hd).
        exists (Tick None :: pre), ev, post.
        repeat split; try done. by constructor.
Qed.

(** X8. The dispatch loop never panics.  It goes on as long as it
    receives messages (also ones that do not decode, or that no handler
    takes) and pings that succeed.  It returns at the first reader error,
    failed ping or shutdown and ignores what comes after: with that error
    for the first two, and with nil for a shutdown, and only for a
    shutdown, after destroying the peer with the reason "connection
    shutdown".  In no other case does the loop destroy the peer.  The
    handlers registered are never changed by the loop. *)
Theorem handle_returns (evs : list Select) (m : Ctx) :
  ∃ o m',
    handle Unmarshal nolog evs m = Some (o, m')
    ∧ handlers m' = handlers m
    ∧ match o with
      | Waiting =>
          Forall (λ ev, ends ev = false) evs
          ∧ destroyed (trace m') = destroyed (trace m)
      | Returned r =>
          ∃ pre ev post,
            evs = pre ++ ev :: post
            ∧ Forall (λ ev, ends ev = false) pre
            ∧ ends ev = true ∧ r = result ev
            ∧ (r = None ↔ ev = Shutdown)
            ∧ destroyed (trace m') =
                destroyed (trace m) ++
                match ev with
                | Shutdown => ["connection shutdown"]
                | _ => []
                end
      end.
Proof.
  destruct (handle_spec evs m) as (o & m' & d & Hrun & Ht & _ & Hhs & _ & Ho).
  exists o, m'. split; [done|]. split; [done|].
  rewrite Ht, destroyed_app. destruct o as [|r].
  - destruct Ho as [-> ?]. by rewrite app_nil_r.
  - destruct Ho as (pre & ev & post & ? & ? & Hev & Hr & ->).
    exists pre, ev, post. repeat split; try done.
    + intros Hnil. subst r. by destruct ev as [| | |[]].
    + intros ->. by subst r.
Qed.

(** X9. Whatever the loop receives, a payload it writes to the debug log
    is at most [maxPayloadLogLength] bytes long: a longer one is replaced
    by the marker.  A message whose event is on the no-log list is not
    logged, any other message that decodes is logged once. *)
Theorem logged_payload_bounded (evs : list Select) (m : Ctx)
    (raw : list Byte.byte) (data : WebSocketMessage) :
  Unmarshal raw = Some data →
  (∃ o m' d,
     handle Unmarshal nolog evs m = Some (o, m')
     ∧ trace m' = trace m ++ d
     ∧ Forall (λ p, Z.of_nat (length p) ≤ maxPayloadLogLength) (logged_payloads d))
  ∧ (∃ m' d,
       on_bytes Unmarshal nolog raw m = Some (tt, m')
       ∧ trace m' = trace m ++ d
       ∧ logged_payloads d =
           (if nolog (Event data) then []
            else if decide (maxPayloadLogLength < Z.of_nat (length (Payload data)))
                 then [truncated] else [Payload data])).
Proof.
  intros Hraw. split.
  - destruct (handle_spec evs m) as (o & m' & d & Hrun & Ht & _ & _ & Hl & _).
    by exists o, m', d.
  - destruct (on_bytes_decoded m raw data Hraw)
      as (m' & d & Hrun & Ht & _ & _ & _ & _ & _ & Hl).
    exists m', d. split; [done|]. split; [done|]. rewrite Hl.
    destruct (nolog (Event data)); [done|]. by case_decide.
Qed.

End dispatch_facts.

Lemma logged_payload_bounded_witness :
  let big := {| dispatch.Event := "x";
                dispatch.Payload := replicate (Z.to_nat 10001) Byte.x00 |} in
  let m := {| dispatch.handler_Message := λ _, true;
              dispatch.handlers := []; dispatch.trace := [] |} in
  (λ _ : list Byte.byte, Some big) [] = Some big
  ∧ ∃ m' d, dispatch.on_bytes (λ _, Some big) (λ _, false) [] m = Some (tt, m')
      ∧ dispatch.trace m' = dispatch.trace m ++ d
      ∧ dispatch.logged_payloads d = [dispatch.truncated].
Proof.
  intros big m. split; [reflexivity|].
  destruct (logged_payload_bounded (λ _, Some big) (λ _, false) [] m []
              big eq_refl) as [_ (m' & d & Hrun & Ht & Hl)].
  exists m', d. split; [exact Hrun|]. split; [exact Ht|].
  rewrite Hl. cbn beta iota.
  destruct (decide _) as [|Hshort]; [reflexivity|].
  exfalso. apply Hshort. unfold big. cbn [dispatch.Payload].
  rewrite length_replicate, Z2Nat.id by lia.
  unfold dispatch.maxPayloadLogLength. lia.
Defined.

Lemma dispatch_first_handler_wins_witness :
  let data := {| dispatch.Event := "x"; dispatch.Payload := [] |} in
  let m := {| dispatch.handler_Message := λ _, false;
              dispatch.handlers := [λ _, true; λ _, true];
              dispatch.trace := [] |} in
  (λ _ : list Byte.byte, Some data) [] = Some data
  ∧ ∃ m', dispatch.on_bytes (λ _, Some data) (λ _, false) [] m = Some (tt, m')
      ∧ dispatch.calls (dispatch.trace m') = [(0%nat, data); (1%nat, data)].
Proof.
  intros data m. split; [reflexivity|].
  destruct (dispatch_first_handler_wins (λ _, Some data) (λ _, false) m []
              data (λ _, false) eq_refl) as [(m' & d & Hrun & Htr & Hcalls & _) _].
  exists m'. split; [exact Hrun|]. rewrite Htr. exact Hcalls.
Defined.


(** ** [connect] and the dispatch loop it runs *)
Section connect_facts.
Import websocket.



End connect_facts.

(** ** Two reactions of the signaling manager *)
Section reactions_facts.
Import reactions.

Lemma sends_app t1 t2 : sends (t1 ++ t2) = sends t1 ++ sends t2.
Proof. apply omap_app. Qed.

Lemma clipboard_reads_app t1 t2 :
  clipboard_reads (t1 ++ t2) = clipboard_reads t1 ++ clipboard_reads t2.
Proof. apply omap_app. Qed.

(** X10. When the desktop's clipboard changes, the reaction reads the
    clipboard only if there is a host whose profile may access the
    clipboard, and then once; it sends the text only if that read
    succeeded, once, and to the host alone.  Without such a host it does
    nothing at all. *)
Theorem clipboard_only_to_permitted_host (host : option Session)
    (clipboard : string + string) (t : list Effect) :
  ∃ t',
    OnClipboardUpdated host clipboard t = Some (tt, t')
    ∧ clipboard_reads t' =
        clipboard_reads t ++
        match host with
        | Some h => if CanAccessClipboard h then [tt] else []
        | None => []
        end
    ∧ sends t' =
        sends t ++
        match host, clipboard with
        | Some h, inr text => if CanAccessClipboard h then [(ID h, text)] else []
        | _, _ => []
        end
    ∧ (match host with
       | Some h => CanAccessClipboard h = false
       | None => True
       end → t' = t).
Proof.
  unfold OnClipboardUpdated, emit. run_M.
  destruct host as [h|]; [destruct (CanAccessClipboard h) eqn:Hcan|]; simpl.
  - destruct clipboard as [err|text]; (eexists; split; [reflexivity|]);
      rewrite <- !app_assoc, !clipboard_reads_app, !sends_app; simpl;
      rewrite ?app_nil_r; (split; [done|]); (split; [done|]); done.
  - exists t. destruct clipboard; by rewrite !app_nil_r.
  - exists t. by rewrite !app_nil_r.
Qed.

End reactions_facts.

(** ** The system handlers *)
Section admin_facts.
Import admin.

Lemma range_rates_spec (size : ScreenConfiguration) (rates : list Z) :
  ∀ acc,
  range_rates size rates acc
  = acc ++ ((λ fps, {| handler.Width := Width size;
                       handler.Height := Height size;
                       handler.Rate := fps |}) <$> rates).
Proof.
  induction rates as [|fps rates IH]; intros acc; simpl.
  - by rewrite app_nil_r.
  - by rewrite IH, <- app_assoc.
Qed.

Lemma range_configurations_spec (configs : list ScreenConfiguration) :
  ∀ acc,
  range_configurations configs acc
  = acc ++ (configs ≫= λ size,
              (λ fps, {| handler.Width := Width size;
                         handler.Height := Height size;
                         handler.Rate := fps |}) <$> Rates size).
Proof.
  induction configs as [|size configs IH]; intros acc; simpl.
  - by rewrite app_nil_r.
  - by rewrite IH, range_rates_spec, <- app_assoc.
Qed.

(** X11. [systemAdmin] sends the requesting session exactly one message
    and returns what the send returns.  The message lists one screen size
    for every rate of every screen configuration of the desktop, with that
    configuration's width and height, and nothing else; with no
    configurations the list is empty and the message is sent all the same.
    The broadcast status is the capture manager's. *)
Theorem systemAdmin_lists_every_rate (h : MessageHandlerCtx)
    (session : handler.Session) (send_err : option string) :
  ∃ h' payload,
    systemAdmin session send_err h = Some (send_err, h')
    ∧ effects h' = effects h ++ [Send (handler.ID session) payload]
    ∧ length (ScreenSizesList payload)
        = sum_list (length ∘ Rates <$> ScreenConfigurations h)
    ∧ (∀ sz, sz ∈ ScreenSizesList payload
             ↔ ∃ c, c ∈ ScreenConfigurations h
                    ∧ handler.Rate sz ∈ Rates c
                    ∧ handler.Width sz = Width c
                    ∧ handler.Height sz = Height c)
    ∧ Status payload = {| IsActive := BroadcastEnabled h; URL := BroadcastUrl h |}
    ∧ ScreenConfigurations h' = ScreenConfigurations h.
Proof.
  unfold systemAdmin, emit. run_M. simpl.
  eexists _, _. split; [reflexivity|]. simpl. split; [done|].
  rewrite range_configurations_spec. simpl.
  split; [|split; [|done]].
  - induction (ScreenConfigurations h) as [|c cs IH]; [done|].
    rewrite bind_cons, fmap_cons, length_app, length_fmap, IH. done.
  - intros sz. rewrite list_elem_of_bind. split.
    + intros (c & Hsz & Hc). apply list_elem_of_fmap in Hsz as (fps & -> & Hfps).
      exists c. done.
    + intros (c & Hc & Hfps & Hw & Hh). exists c. split; [|done].
      apply list_elem_of_fmap. exists (handler.Rate sz). split; [|done].
      destruct sz; simpl in *. by subst.
Qed.

End admin_facts.

Section handler_more.
Import handler.

(** X12. [systemInit] never changes the registry or the desktop, and it
    returns an error only when it has sent the message and that send
    failed.  With a screen size it sends exactly one SYSTEM_INIT message,
    to the requesting session alone, which carries that screen size, one
    entry for every member of the registry, in the registry's order, with
    the member's id, name and admin flag, and the host's id if there is a
    host (the empty id, with the flag off, if there is none). *)
Theorem systemInit_sends_one_init (h : MessageHandlerCtx) (session : Session)
    (send_err : option string) :
  ∃ r h',
    systemInit session send_err h = Some (r, h')
    ∧ host h' = host h ∧ members h' = members h
    ∧ screen_size h' = screen_size h
    ∧ (is_Some r → is_Some (screen_size h) ∧ r = send_err)
    ∧ ∀ size, screen_size h = Some size →
        r = send_err
        ∧ ∃ payload,
            effects h' = effects h ++ [Send (ID session) payload]
            ∧ message.Event payload = event.SYSTEM_INIT
            ∧ message.Screen payload = size
            ∧ length (message.Members payload) = length (members h)
            ∧ (∀ i s, members h !! i = Some s →
                 message.Members payload !! i =
                   Some {| message.MemberID := ID s;
                           message.MemberName := Name s;
                           message.IsAdmin := Admin s |})
            ∧ (message.HasHost (message.Control payload) = true
               ↔ is_Some (host h))
            ∧ message.HostID (message.Control payload) =
                match host h with
                | Some hh => ID hh
                | None => ""
                end.
Proof.
  unfold systemInit, session_Send, emit. run_M.
  destruct (screen_size h) as [size|] eqn:Hsize.
  - eexists _, _. split; [reflexivity|]. simpl.
    split; [done|]. split; [done|]. split; [done|].
    split; [intros _; split; [by eexists | done]|].
    intros size' [= <-]. split; [done|].
    eexists. split; [reflexivity|]. simpl.
    split; [done|]. split; [by destruct size|].
    split; [by rewrite length_fmap|].
    split; [intros i s Hs; by rewrite list_lookup_fmap, Hs|].
    split; [apply bool_decide_eq_true | done].
  - eexists _, _. split; [reflexivity|]. simpl.
    split; [done|]. split; [done|]. split; [done|].
    split; [by intros [? [=]]|]. by intros size [=].
Qed.

End handler_more.

(** ** More on the peer-connection manager *)
Section webrtc_more.
Import webrtc.

Ltac run_rtc' :=
  cbv [OnOpen OnClose cursorImage cursorPosition curImage_AddListener
       curPosition_AddListener curImage_RemoveListener
       curPosition_RemoveListener OnNegotiationNeeded CreateOffer
       CreatePeer changeVideo orfail on fresh emit record];
  run_M.

Lemma peers_set_app t1 t2 : peers_set (t1 ++ t2) = peers_set t1 ++ peers_set t2.
Proof. apply omap_app. Qed.

Lemma offers_created_app' t1 t2 :
  offers_created (t1 ++ t2) = offers_created t1 ++ offers_created t2.
Proof. apply omap_app. Qed.

(** X13. [CreatePeer] never panics and, whatever fails, touches nothing
    but the connection it builds: the connections built before, the two
    slots, the stop closures, the tracks being read and the cursor
    listeners are as they were.  It sets the new peer on the session, and
    asks it for an offer, exactly when the stream exists and every step
    before the offer succeeded.  If the offer then fails, [CreatePeer]
    returns that error, but the peer stays set on the session, with its two
    tracks and its data channel, and without the negotiation-needed
    reaction. *)
Theorem CreatePeer_leaves_the_rest (m : WebRTCManagerCtx) (session : Session)
    (videoID : string) (o : Outcomes) :
  ∃ r m',
    CreatePeer session videoID o m = Some (r, m')
    ∧ (∀ q, q ≠ next m → peers m' !! q = peers m !! q)
    ∧ camStop m' = camStop m ∧ micStop m' = micStop m
    ∧ stopFns m' = stopFns m ∧ readers m' = readers m
    ∧ curImage m' = curImage m ∧ curPosition m' = curPosition m
    ∧ peers_set (trace m') =
        peers_set (trace m) ++
        (if bool_decide (is_Some (Video (env m) !! videoID)) && built o
         then [(ID session, next m)] else [])
    ∧ offers_created (trace m') =
        offers_created (trace m) ++
        (if bool_decide (is_Some (Video (env m) !! videoID)) && built o
         then [next m] else [])
    ∧ (∀ err, is_Some (Video (env m) !! videoID) → built o = true →
         CreateOffer_ret o = inl err →
         r = inl err
         ∧ ∃ c, peers m' !! next m = Some c
                ∧ length (localTracks c) = 2%nat
                ∧ dataChannels c = ["data"]
                ∧ RegOnNegotiationNeeded ∉ registered c).
Proof.
  destruct o as [e1 e2 e3 e4 e5 e6 ret]. unfold built. run_rtc'. simpl.
  destruct (Video (env m) !! videoID) as [videoStream|] eqn:Hv.
  2:{ eexists _, _. split; [reflexivity|]. simpl.
      rewrite peers_set_app, offers_created_app'. simpl.
      rewrite !app_nil_r. repeat split; try done;
        try (by intros err [? [=]]). }
  rewrite ?(bool_decide_eq_true_2 (is_Some (Some videoStream))) by (by eexists).
  assert (∀ q x (f : Peer → Peer) (ps : gmap nat Peer),
            q ≠ next m → alter f (next m) ps !! q = ps !! q) as Halter
      by (intros; by apply lookup_alter_ne).
  destruct e1 as [err1|]; simpl.
  { eexists _, _. split; [reflexivity|]. simpl.
    rewrite peers_set_app, offers_created_app'. simpl. rewrite !app_nil_r.
    repeat split; try done; try (intros err _ [=]). }
  destruct (ICETrickle (env m)) eqn:Htrickle; simpl.
  all: destruct e2 as [err2|]; simpl;
    [ eexists _, _; split; [reflexivity|]; simpl;
      rewrite peers_set_app, offers_created_app'; simpl; rewrite !app_nil_r;
      repeat split; try done;
      try (intros q Hq; rewrite ?lookup_alter_ne by done;
           by rewrite lookup_insert_ne);
      try (intros err _ [=]) | ].
  all: destruct e3 as [err3|]; simpl;
    [ eexists _, _; split; [reflexivity|]; simpl;
      rewrite peers_set_app, offers_created_app'; simpl; rewrite !app_nil_r;
      repeat split; try done;
      try (intros q Hq; rewrite ?lookup_alter_ne by done;
           by rewrite lookup_insert_ne);
      try (intros err _ [=]) | ].
  all: destruct e4 as [err4|]; simpl;
    [ eexists _, _; split; [reflexivity|]; simpl;
      rewrite peers_set_app, offers_created_app'; simpl; rewrite !app_nil_r;
      repeat split; try done;
      try (intros q Hq; rewrite ?lookup_alter_ne by done;
           by rewrite lookup_insert_ne);
      try (intros err _ [=]) | ].
  all: destruct e5 as [err5|]; simpl;
    [ eexists _, _; split; [reflexivity|]; simpl;
      rewrite peers_set_app, offers_created_app'; simpl; rewrite !app_nil_r;
      repeat split; try done;
      try (intros q Hq; rewrite ?lookup_alter_ne by done;
           by rewrite lookup_insert_ne);
      try (intros err _ [=]) | ].
  all: destruct e6 as [err6|]; simpl;
    [ eexists _, _; split; [reflexivity|]; simpl;
      rewrite peers_set_app, offers_created_app'; simpl; rewrite !app_nil_r;
      repeat split; try done;
      try (intros q Hq; rewrite ?lookup_alter_ne by done;
           by rewrite lookup_insert_ne);
      try (intros err _ [=]) | ].
  all: destruct ret as [err|offer]; simpl;
    (eexists _, _; split; [reflexivity|]; simpl;
     rewrite <- ?app_assoc, ?peers_set_app, ?offers_created_app'; simpl;
     rewrite ?app_nil_r;
     split; [intros q Hq; rewrite ?lookup_alter_ne by done;
             by rewrite lookup_insert_ne|];
     do 8 (split; [done|])).
  all: try (by intros err' _ _ [=]).
  all: intros err' _ _ [= <-]; split; [done|];
    rewrite !alter_insert_eq, lookup_insert_eq; eexists; split; [reflexivity|];
    simpl; split; [done|]; split; [done|];
    rewrite !list_elem_of_In; simpl; intuition congruence.
Qed.

(** Opening and closing a data channel, for the two registries. *)
Lemma OnOpen_listeners (m : WebRTCManagerCtx) (p : nat) (session : Session)
    (image_err position_err : option string) :
  ∃ m', OnOpen p session image_err position_err m = Some (tt, m')
    ∧ curImage m' = curImage m ∪ {[p]}
    ∧ curPosition m' = curPosition m ∪ {[p]}
    ∧ peers m' = peers m ∧ env m' = env m.
Proof.
  run_rtc'. simpl.
  destruct (curImage_Get (env m)), (IsHost session), image_err, position_err;
    simpl; eexists; (split; [reflexivity|]); done.
Qed.

Lemma OnClose_listeners (m : WebRTCManagerCtx) (p : nat) :
  ∃ m', OnClose p m = Some (tt, m')
    ∧ curImage m' = curImage m ∖ {[p]}
    ∧ curPosition m' = curPosition m ∖ {[p]}
    ∧ peers m' = peers m ∧ env m' = env m ∧ trace m' = trace m.
Proof. run_rtc'. eexists. split; [reflexivity|]. done. Qed.

Lemma channel_run_spec (ss : list ChannelStep) :
  ∀ m : WebRTCManagerCtx,
  curImage m = curPosition m →
  ∃ m', channel_run ss m = Some (tt, m')
    ∧ curImage m' = curPosition m'
    ∧ ∀ p, p ∈ curImage m'
           ↔ last_opened p ss (Some (bool_decide (p ∈ curImage m))) = Some true.
Proof.
  induction ss as [|s ss IH]; intros m Heq.
  - exists m. split; [done|]. split; [done|].
    intros p. simpl. split.
    + intros Hp. by rewrite bool_decide_eq_true_2.
    + intros [= Hp]. by apply bool_decide_eq_true in Hp.
  - destruct s as [q session image_err position_err|q].
    + destruct (OnOpen_listeners m q session image_err position_err)
        as (m1 & Hrun1 & Hi1 & Hp1 & _).
      destruct (IH m1) as (m' & Hrun & Heq' & Hin); [by rewrite Hi1, Hp1, Heq|].
      exists m'. split; [simpl; unfold mbind, M_bind; by rewrite Hrun1|].
      split; [done|]. intros p. rewrite Hin. simpl.
      replace (bool_decide (p ∈ curImage m1))
        with (if decide (q = p) then true else bool_decide (p ∈ curImage m)).
      { by destruct (decide (q = p)). }
      rewrite Hi1. case_decide as Hq.
      * subst q. symmetry. apply bool_decide_eq_true_2.
        apply elem_of_union. right. by apply elem_of_singleton.
      * apply bool_decide_ext. rewrite elem_of_union, elem_of_singleton.
        intuition congruence.
    + destruct (OnClose_listeners m q) as (m1 & Hrun1 & Hi1 & Hp1 & _).
      destruct (IH m1) as (m' & Hrun & Heq' & Hin); [by rewrite Hi1, Hp1, Heq|].
      exists m'. split; [simpl; unfold mbind, M_bind; by rewrite Hrun1|].
      split; [done|]. intros p. rewrite Hin. simpl.
      replace (bool_decide (p ∈ curImage m1))
        with (if decide (q = p) then false else bool_decide (p ∈ curImage m)).
      { by destruct (decide (q = p)). }
      rewrite Hi1. case_decide as Hq.
      * subst q. symmetry. apply bool_decide_eq_false_2.
        rewrite elem_of_difference, elem_of_singleton. intuition congruence.
      * apply bool_decide_ext. rewrite elem_of_difference, elem_of_singleton.
        intuition congruence.
Qed.

(** X14. However the data channels of the peers open and close, each
    reaction returns, the two cursor feeds have the same listeners, and a
    peer is listening exactly if the last thing that happened to its
    channel was its opening (or, if nothing happened to it, if it was
    listening before): no listener is left behind by a closed channel, and
    opening twice registers once. *)
Theorem listeners_follow_the_channel (ss : list ChannelStep)
    (m : WebRTCManagerCtx) :
  curImage m = curPosition m →
  ∃ m', channel_run ss m = Some (tt, m')
    ∧ curImage m' = curPosition m'
    ∧ ∀ p, p ∈ curImage m'
           ↔ last_opened p ss (Some (bool_decide (p ∈ curImage m))) = Some true.
Proof. apply channel_run_spec. Qed.

Lemma listeners_follow_the_channel_witness :
  curImage (New example_env) = curPosition (New example_env)
  ∧ ∃ m', channel_run [Opens 0 viewer None None; Opens 1 host None None;
                        Opens 0 viewer None None; Closes 0]
            (New example_env) = Some (tt, m')
      ∧ (0%nat ∉ curImage m') ∧ 1%nat ∈ curImage m'.
Proof.
  split; [reflexivity|].
  destruct (listeners_follow_the_channel
              [Opens 0 viewer None None; Opens 1 host None None;
               Opens 0 viewer None None; Closes 0] (New example_env) eq_refl)
    as (m' & Hrun & _ & Hin).
  exists m'. split; [exact Hrun|]. split.
  - intros H0. apply Hin in H0. discriminate.
  - apply Hin. reflexivity.
Defined.

(** X15. [changeVideo] with a video id the capture registry does not have
    returns [ErrWebRTCVideoNotFound] and changes nothing.  With an id it
    has, and when the track takes the stream, the peer's video track is
    bound to that stream, while its audio track, its data channels, its
    reactions and the other peers are as they were; when the track refuses
    the stream, that error is returned and nothing changes. *)
Theorem changeVideo_switches_video_only (m : WebRTCManagerCtx) (p : nat)
    (c : Peer) (audio video : Stream) (videoID : string)
    (set_err : option error) :
  peers m !! p = Some c → localTracks c = [audio; video] →
  ∃ r m',
    changeVideo p videoID set_err m = Some (r, m')
    ∧ trace m' = trace m
    ∧ (∀ q, q ≠ p → peers m' !! q = peers m !! q)
    ∧ match Video (env m) !! videoID with
      | None => r = Some ErrWebRTCVideoNotFound ∧ m' = m
      | Some videoStream =>
          r = set_err
          ∧ match set_err with
            | Some _ => m' = m
            | None =>
                ∃ c', peers m' !! p = Some c'
                  ∧ localTracks c' = [audio; videoStream]
                  ∧ codecs c' = codecs c ∧ dataChannels c' = dataChannels c
                  ∧ registered c' = registered c
            end
      end.
Proof.
  intros Hp Htracks. run_rtc'.
  destruct (Video (env m) !! videoID) as [videoStream|]; [|by exists (Some ErrWebRTCVideoNotFound), m].
  destruct set_err as [err|]; [by exists (Some err), m|].
  eexists _, _. split; [reflexivity|]. simpl. split; [done|].
  split; [intros q Hq; by rewrite lookup_alter_ne|].
  split; [done|]. exists (set_video videoStream c).
  split; [by rewrite lookup_alter_eq, Hp|].
  simpl. by rewrite Htracks.
Qed.

Lemma changeVideo_switches_video_only_witness :
  let audio := Audio example_env in
  let cam1 := {| StreamCodec := {| CodecName := "vp8"; CodecType := RTPCodecTypeVideo |} |} in
  let c := {| codecs := []; localTracks := [audio; cam1]; dataChannels := ["data"];
              registered := []; iceTrickle := true;
              signalingState := SignalingStateStable |} in
  let m := set_peers <[0%nat := c]> (New example_env) in
  peers m !! 0%nat = Some c ∧ localTracks c = [audio; cam1]
  ∧ ∃ m', changeVideo 0 "cam99" None m = Some (Some ErrWebRTCVideoNotFound, m')
      ∧ m' = m.
Proof.
  intros audio cam1 c m. split; [reflexivity|]. split; [reflexivity|].
  destruct (changeVideo_switches_video_only m 0 c audio cam1 "cam99" None)
    as (r & m' & Hrun & _ & _ & Hcase); [reflexivity..|].
  change (Video (env m) !! "cam99") with (@None Stream) in Hcase.
  destruct Hcase as [-> ->]. by exists m.
Defined.

(** *** Which sink runs, and how often a receiver is stopped *)

Ltac state' :=
  cbv [record set_camStop set_micStop set_stopFns set_readers set_peers
       set_curImage set_curPosition set_next set_slot slot]; simpl.

(** What taking the slot of [src] leaves alone: the other slot, and every
    closure but the new one and the one that was in the slot, which is
    stopped. *)
Lemma acquire_frame m a f r src codec start_err t m' :
  Inv None m → stopFns m !! a = Some f →
  srcManager f = None → stopped f = false → receiver f = r →
  stops_of r (trace m) = 0%nat →
  acquire src a r codec start_err m = Some (t, m') →
  (∀ src', src' ≠ src → slot src' m' = slot src' m)
  ∧ (∀ c, c ≠ a → slot src m ≠ Some c → stopFns m' !! c = stopFns m !! c)
  ∧ (∀ b g, slot src m = Some b → stopFns m !! b = Some g →
       stopFns m' !! b = Some {| stopped := true; receiver := receiver g;
                                 srcManager := srcManager g |}).
Proof.
  intros HI Ha Hnone Hst Hr Hzero. subst r.
  pose proof (Inv_bind m a f src HI Ha Hnone Hst Hzero) as HI1.
  cbv [acquire emit]; run_M. rewrite Ha. cbn beta iota.
  rewrite slot_set_stopFns. rewrite Hst in *.
  set (fa := {| stopped := false; receiver := receiver f;
                srcManager := Some src |}) in *.
  set (m1 := set_stopFns <[a := fa]> m) in *.
  assert (stopFns m1 !! a = Some fa) as Ha1 by apply lookup_insert_eq.
  assert (∃ m2,
    match slot src m with
    | Some b => stopFn b
    | None => λ s, Some (tt, s)
    end m1 = Some (tt, m2)
    ∧ Inv (Some a) m2
    ∧ stopFns m2 !! a = Some fa
    ∧ camStop m2 = camStop m ∧ micStop m2 = micStop m
    ∧ (∀ c, c ≠ a → slot src m ≠ Some c → stopFns m2 !! c = stopFns m !! c)
    ∧ (∀ b g, slot src m = Some b → stopFns m !! b = Some g →
         b ≠ a
         ∧ stopFns m2 !! b = Some {| stopped := true; receiver := receiver g;
                                     srcManager := srcManager g |}))
    as (m2 & -> & HI2 & Ha2 & Hcam2 & Hmic2 & Hrest2 & Hprev2).
  { destruct (slot src m) as [b|] eqn:Hprev.
    - destruct (inv_slot _ _ HI src b Hprev) as (g & Hg & Hgsrc).
      assert (b ≠ a) as Hba by (intros ->; congruence).
      destruct (stopFn_spec (Some a) m1 b g src HI1)
        as (m2 & Hrun & HI2 & Hfns & Htr & _ & Hcam & Hmic & Hrd & Hnx & _);
        [unfold m1; state'; by rewrite lookup_insert_ne | done |].
      exists m2. split; [done|]. split; [done|].
      split; [by rewrite Hfns, lookup_insert_ne|].
      split; [done|]. split; [done|]. split.
      + intros c Hca Hcb. rewrite Hfns, lookup_insert_ne by congruence.
        unfold m1. state'. by rewrite lookup_insert_ne.
      + intros b' g' [= <-] Hg'. rewrite Hg in Hg'. injection Hg' as <-.
        split; [done|]. rewrite Hfns, lookup_insert_eq. by rewrite Hgsrc.
    - exists m1. split; [done|]. split; [done|].
      split; [apply lookup_insert_eq|]. split; [done|]. split; [done|]. split.
      + intros c Hca _. unfold m1. state'. by rewrite lookup_insert_ne.
      + by intros b g [=]. }
  cbn beta iota.
  set (m4 := record (SrcStart src codec) (set_slot src (Some a) m2)) in *.
  assert (stopFns m4 = stopFns m2) as Hf4 by (by destruct src).
  assert (∀ src', src' ≠ src → slot src' m4 = slot src' m) as Hs4.
  { intros src' Hne. destruct src, src'; simpl; congruence. }
  assert (Inv None m4) as HI4.
  { apply Inv_record; [|done]. apply (Inv_install m2 a fa src); try done.
    intros c h Hc Hs Hst'.
    destruct (inv_occ _ _ HI2 src c h Hc Hs Hst') as [Hsl|[= <-]]; [|done].
    assert (slot src m2 = slot src m) as Hsl2
        by (destruct src; simpl; congruence).
    rewrite Hsl2 in Hsl.
    destruct (inv_slot _ _ HI src c Hsl) as (g & Hg & _).
    destruct (Hprev2 c g Hsl Hg) as [_ Hc2]. rewrite Hc2 in Hc.
    by injection Hc as <-. }
  clearbody m4.
  destruct start_err as [err|].
  - pose proof (Inv_record _ _ (Log Error "failed to start pipeline") HI4
                  (λ _, eq_refl)) as HI5.
    destruct (stopFn_spec None _ a fa src HI5) as
      (m6 & Hrun & HI6 & Hfns & Htr & _ & Hcam & Hmic & Hrd & Hnx & _);
      [state'; by rewrite Hf4 | done |].
    rewrite Hrun. intros [= <- <-]. split; [|split].
    + intros src' Hne. rewrite <- (Hs4 src' Hne).
      destruct src'; simpl in *; congruence.
    + intros c Hca Hcb. rewrite Hfns, lookup_insert_ne by done.
      state'. rewrite Hf4. by apply Hrest2.
    + intros b g Hb Hg. destruct (Hprev2 b g Hb Hg) as [Hba Hb2].
      rewrite Hfns, lookup_insert_ne by done. state'. by rewrite Hf4.
  - intros [= <- <-]. split; [|split].
    + intros src' Hne. rewrite <- (Hs4 src' Hne). by destruct src'.
    + intros c Hca Hcb. state'. rewrite Hf4. by apply Hrest2.
    + intros b g Hb Hg. destruct (Hprev2 b g Hb Hg) as [Hba Hb2].
      state'. by rewrite Hf4.
Qed.

(** What the remote-track reaction leaves alone. *)
Lemma OnTrack_begin_frame ParseRTC m session track r start_err t m' :
  Inv None m → (r < next m)%nat →
  (∀ b g, stopFns m !! b = Some g → receiver g ≠ r) →
  stops_of r (trace m) = 0%nat →
  OnTrack_begin ParseRTC session track r start_err m = Some (t, m') →
  (∀ codec src,
     CanShareMedia session = true → ParseRTC (Codec track) = Some codec →
     sink_of (Kind track) = Some src →
     (∀ src', src' ≠ src → slot src' m' = slot src' m)
     ∧ (∀ c, c ≠ next m → slot src m ≠ Some c →
          stopFns m' !! c = stopFns m !! c)
     ∧ (∀ b g, slot src m = Some b → stopFns m !! b = Some g →
          stopFns m' !! b = Some {| stopped := true; receiver := receiver g;
                                    srcManager := srcManager g |}))
  ∧ (CanShareMedia session = false ∨ ParseRTC (Codec track) = None
     ∨ sink_of (Kind track) = None →
     (∃ reason, trace m' = trace m ++ [Log Info "received new remote track";
                                       Log Warn reason; ReceiverStop r])
     ∧ (∀ src, slot src m' = slot src m)
     ∧ (∀ c, c ≠ next m → stopFns m' !! c = stopFns m !! c)
     ∧ (∀ f', stopFns m' !! next m = Some f' → srcManager f' = None)).
Proof.
  intros HI Hr Hother Hzero.
  pose proof (Inv_record _ _ (Log Info "received new remote track") HI
                (λ _, eq_refl)) as HI0.
  assert (stopFns m !! next m = None) as Hfree.
  { destruct (stopFns m !! next m) as [g|] eqn:Hg; [|done].
    destruct (inv_fresh _ _ HI _ _ Hg). lia. }
  cbv [OnTrack_begin emit fresh]; run_M. cbn beta iota.
  set (m0 := record (Log Info "received new remote track") m) in *.
  destruct (CanShareMedia session) eqn:Hshare; cbn [negb]; cbn beta iota.
  2:{ intros [= <- <-]. split; [by intros ?? [=]|]. intros _.
      split; [eexists; state'; by rewrite <- !app_assoc|].
      split; [by intros []|]. split; [done|]. state'. by rewrite Hfree. }
  destruct (ParseRTC (Codec track)) as [codec|] eqn:Hparse.
  2:{ intros [= <- <-]. split; [by intros ?? _ [=]|]. intros _.
      split; [eexists; state'; by rewrite <- !app_assoc|].
      split; [by intros []|]. split; [done|]. state'. by rewrite Hfree. }
  change (next m0) with (next m).
  set (fa := {| stopped := false; receiver := r; srcManager := None |}).
  set (ma := set_stopFns <[next m := fa]> (set_next (S (next m)) m0)).
  assert (Inv None ma) as HIa.
  { apply Inv_alloc; [apply Inv_set_next; [done|simpl; lia]
                     |done|simpl; lia|simpl; lia|done]. }
  assert (stopFns ma !! next m = Some fa) as Ha by apply lookup_insert_eq.
  assert (stops_of r (trace ma) = 0%nat) as Hza.
  { unfold ma, m0. state'. rewrite stops_of_app, Hzero. done. }
  assert (∀ src, slot src ma = slot src m) as Hsa by (by intros []).
  assert (∀ c, c ≠ next m → stopFns ma !! c = stopFns m !! c) as Hfa.
  { intros c Hc. unfold ma. state'. by rewrite lookup_insert_ne. }
  assert (trace ma = trace m ++ [Log Info "received new remote track"])
    as Hta by done.
  clearbody ma.
  assert (∀ src, sink_of (Kind track) = Some src →
            acquire src (next m) r codec start_err ma = Some (t, m') →
            (∀ src', src' ≠ src → slot src' m' = slot src' m)
            ∧ (∀ c, c ≠ next m → slot src m ≠ Some c →
                 stopFns m' !! c = stopFns m !! c)
            ∧ (∀ b g, slot src m = Some b → stopFns m !! b = Some g →
                 stopFns m' !! b = Some {| stopped := true; receiver := receiver g;
                                           srcManager := srcManager g |}))
    as Hacq.
  { intros src _ Hrun.
    destruct (acquire_frame ma (next m) fa r src codec start_err t m')
      as (Hslots & Hrest & Hprev); try done.
    split; [|split].
    - intros src' Hne. by rewrite Hslots, Hsa.
    - intros c Hc Hcs. rewrite Hrest by (by rewrite ?Hsa). by apply Hfa.
    - intros b g Hb Hg.
      assert (b ≠ next m) as Hbn by (intros ->; congruence).
      apply Hprev; [by rewrite Hsa | by rewrite Hfa]. }
  destruct (Kind track) eqn:Hkind; simpl.
  - intros [= <- <-]. split; [by intros ?? _ _ [=]|]. intros _.
    split; [eexists; state'; rewrite Hta; by rewrite <- !app_assoc|].
    split; [intros src; rewrite <- Hsa; by destruct src|].
    split; [intros c Hc; state'; by apply Hfa|].
    state'. rewrite Ha. by intros f' [= <-].
  - intros Hrun. split; [|by intros [[=]|[[=]|[=]]]].
    intros codec' src _ [= <-] [= <-]. by apply Hacq.
  - intros Hrun. split; [|by intros [[=]|[[=]|[=]]]].
    intros codec' src _ [= <-] [= <-]. by apply Hacq.
Qed.

Lemma sink_on_app src t d :
  sink_on src (t ++ d) = foldl (sink_event src) (sink_on src t) d.
Proof. apply foldl_app. Qed.

Lemma sink_on_silent src t d :
  Forall silent d → sink_on src (t ++ d) = sink_on src t.
Proof.
  intros Hd. rewrite sink_on_app. generalize (sink_on src t).
  induction Hd as [|e d He Hd IH]; intros on; [done|].
  simpl. rewrite (He src on). apply IH.
Qed.

Lemma eviction_other src src' g on :
  src' ≠ src → foldl (sink_event src') on (eviction src g) = on.
Proof.
  intros Hne. destruct g as [g|]; [|done]. simpl.
  destruct (stopped g); [done|]. simpl. by rewrite decide_False.
Qed.

Lemma stops_of_mono r t d : (stops_of r t ≤ stops_of r (t ++ d))%nat.
Proof. rewrite stops_of_app. lia. Qed.

Lemma stops_of_elem r d : ReceiverStop r ∈ d → (1 ≤ stops_of r d)%nat.
Proof.
  intros Hin. apply list_elem_of_split in Hin as (d1 & d2 & ->).
  rewrite stops_of_app. change (ReceiverStop r :: d2) with ([ReceiverStop r] ++ d2).
  rewrite stops_of_app, stops_of_stop, decide_True by done. lia.
Qed.

(** A closure bound to [src] is called. *)
Lemma follows_after_stop m m' a f src pre :
  Inv None m → Inv None m' → sink_follows_slot m → stopped_once m →
  stopFns m !! a = Some f → srcManager f = Some src →
  Forall silent pre →
  trace m' = trace m ++ pre ++ eviction src (Some f) →
  stopFns m' = <[a := {| stopped := true; receiver := receiver f;
                         srcManager := Some src |}]> (stopFns m) →
  (∀ src', slot src' m' = slot src' m) →
  sink_follows_slot m' ∧ stopped_once m'.
Proof.
  intros HI HI' HK HJ Ha Hsrc Hpre Htr Hfns Hslots. split.
  - intros src'. rewrite Htr, app_assoc, sink_on_app, Hslots, Hfns.
    rewrite (sink_on_silent _ _ _ Hpre).
    destruct (decide (src' = src)) as [->|Hne].
    + simpl. destruct (stopped f) eqn:Hst; simpl.
      * rewrite (HK src).
        split; intros (b & g & Hb & Hg & Hstg); exists b.
        -- destruct (decide (b = a)) as [->|Hba]; [congruence|].
           exists g. by rewrite lookup_insert_ne.
        -- destruct (decide (b = a)) as [->|Hba].
           { rewrite lookup_insert_eq in Hg. by injection Hg as <-. }
           exists g. by rewrite lookup_insert_ne in Hg.
      * rewrite decide_True by done. split; [done|].
        intros (b & g & Hb & Hg & Hstg).
        destruct (inv_occ _ _ HI src a f Ha Hsrc Hst) as [Hsl|[=]].
        rewrite Hsl in Hb. injection Hb as <-.
        rewrite lookup_insert_eq in Hg. by injection Hg as <-.
    + rewrite eviction_other by done. rewrite (HK src').
      assert (slot src' m ≠ Some a) as Hna.
      { intros Hsl. destruct (inv_slot _ _ HI src' a Hsl) as (g & Hg & Hgs).
        congruence. }
      split; intros (b & g & Hb & Hg & Hstg); exists b, g.
      * rewrite lookup_insert_ne by congruence. done.
      * rewrite lookup_insert_ne in Hg by congruence. done.
  - intros c g Hc Hbound Hstg.
    apply Nat.le_antisymm; [apply (inv_once _ _ HI')|].
    rewrite Hfns in Hc. destruct (decide (c = a)) as [->|Hca].
    + rewrite lookup_insert_eq in Hc. injection Hc as <-. simpl.
      destruct (stopped f) eqn:Hst.
      * rewrite Htr. etrans; [|apply stops_of_mono].
        rewrite (HJ a f Ha); [done|by rewrite Hsrc|done].
      * rewrite Htr, !stops_of_app. simpl. rewrite Hst.
        change (ReceiverStop (receiver f) :: ?l)
          with ([ReceiverStop (receiver f)] ++ l).
        rewrite stops_of_app, stops_of_stop, decide_True by done. lia.
    + rewrite lookup_insert_ne in Hc by done.
      rewrite Htr. etrans; [|apply stops_of_mono].
      by rewrite (HJ c g Hc).
Qed.

(** Nothing happens to the sinks, the slots and the bound closures. *)
Lemma follows_after_quiet m m' a0 d :
  Inv None m → Inv None m' → sink_follows_slot m → stopped_once m →
  stopFns m !! a0 = None →
  Forall silent d → trace m' = trace m ++ d →
  (∀ src, slot src m' = slot src m) →
  (∀ c, c ≠ a0 → stopFns m' !! c = stopFns m !! c) →
  (∀ f', stopFns m' !! a0 = Some f' → srcManager f' = None) →
  sink_follows_slot m' ∧ stopped_once m'.
Proof.
  intros HI HI' HK HJ Hfree Hd Htr Hslots Hrest Hnew. split.
  - intros src. rewrite Htr, (sink_on_silent _ _ _ Hd), Hslots, (HK src).
    assert (slot src m ≠ Some a0) as Hna.
    { intros Hsl. destruct (inv_slot _ _ HI src a0 Hsl) as (g & Hg & _).
      congruence. }
    split; intros (b & g & Hb & Hg & Hstg); exists b, g.
    + rewrite Hrest by congruence. done.
    + rewrite Hrest in Hg by congruence. done.
  - intros c g Hc Hbound Hstg.
    apply Nat.le_antisymm; [apply (inv_once _ _ HI')|].
    destruct (decide (c = a0)) as [->|Hca].
    { rewrite (Hnew g Hc) in Hbound. by destruct Hbound. }
    rewrite Hrest in Hc by done.
    rewrite Htr. etrans; [|apply stops_of_mono]. by rewrite (HJ c g Hc).
Qed.

(** A track takes the slot of [src]. *)
Lemma follows_after_accept m m' a r src codec start_err :
  Inv None m → Inv None m' → sink_follows_slot m → stopped_once m →
  stopFns m !! a = None →
  trace m' =
    trace m ++ [Log Info "received new remote track"] ++
    eviction src (slot src m ≫= (stopFns m !!.)) ++
    [SrcStart src codec] ++ after_start src r start_err →
  slot src m' = Some a →
  stopFns m' !! a = Some {| stopped := bool_decide (is_Some start_err);
                            receiver := r; srcManager := Some src |} →
  (∀ src', src' ≠ src → slot src' m' = slot src' m) →
  (∀ c, c ≠ a → slot src m ≠ Some c → stopFns m' !! c = stopFns m !! c) →
  (∀ b g, slot src m = Some b → stopFns m !! b = Some g →
     stopFns m' !! b = Some {| stopped := true; receiver := receiver g;
                               srcManager := srcManager g |}) →
  sink_follows_slot m' ∧ stopped_once m'.
Proof.
  intros HI HI' HK HJ Hfree Htr Hslot Hnew Hslots Hrest Hprev. split.
  - intros src'. rewrite Htr, sink_on_app, !foldl_app.
    destruct (decide (src' = src)) as [->|Hne].
    + simpl. rewrite decide_True by done.
      destruct start_err as [err|]; simpl.
      * rewrite decide_True by done. split; [done|].
        intros (b & g & Hb & Hg & Hst). rewrite Hslot in Hb.
        injection Hb as <-. rewrite Hnew in Hg. injection Hg as <-.
        by simpl in Hst.
      * split; [|done]. intros _. eexists _, _. split; [done|]. split; [done|].
        done.
    + rewrite eviction_other by done. simpl. rewrite decide_False by done.
      assert (foldl (sink_event src') (sink_on src' (trace m))
                (after_start src r start_err) = sink_on src' (trace m)) as ->.
      { destruct start_err; simpl; [|done]. by rewrite decide_False. }
      rewrite (HK src'), (Hslots src' Hne).
      assert (∀ b, slot src' m = Some b → stopFns m' !! b = stopFns m !! b)
        as Hsame.
      { intros b Hb. destruct (inv_slot _ _ HI src' b Hb) as (g & Hg & Hgs).
        apply Hrest; [congruence|]. intros Hsb.
        destruct (inv_slot _ _ HI src b Hsb) as (g' & Hg' & Hgs').
        congruence. }
      split; intros (b & g & Hb & Hg & Hstg); exists b, g.
      * by rewrite Hsame.
      * by rewrite Hsame in Hg.
  - intros c g Hc Hbound Hstg.
    apply Nat.le_antisymm; [apply (inv_once _ _ HI')|].
    rewrite Htr. destruct (decide (c = a)) as [->|Hca].
    + rewrite Hnew in Hc. injection Hc as <-.
      destruct start_err as [err|]; [|done].
      rewrite !stops_of_app. unfold after_start. cbn [receiver].
      pose proof (stops_of_elem r
                    [Log Error "failed to start pipeline"; ReceiverStop r;
                     SrcStop src; Log Info "remote track stopped"]) as Hin.
      assert (ReceiverStop r ∈
                [Log Error "failed to start pipeline"; ReceiverStop r;
                 SrcStop src; Log Info "remote track stopped"]) as Hel
          by (apply elem_of_cons; right; apply elem_of_cons; by left).
      specialize (Hin Hel). lia.
    + destruct (decide (slot src m = Some c)) as [Hsc|Hsc].
      * destruct (inv_slot _ _ HI src c Hsc) as (g0 & Hg0 & Hgs0).
        rewrite (Hprev c g0 Hsc Hg0) in Hc. injection Hc as <-.
        cbn [receiver stopped srcManager] in *.
        destruct (stopped g0) eqn:Hst0.
        -- etrans; [|apply stops_of_mono]. by rewrite (HJ c g0 Hg0).
        -- assert (eviction src (slot src m ≫= (stopFns m !!.))
                   = [ReceiverStop (receiver g0); SrcStop src;
                      Log Info "remote track stopped"]) as ->.
           { rewrite Hsc. simpl. rewrite Hg0. simpl. by rewrite Hst0. }
           rewrite !stops_of_app.
           pose proof (stops_of_elem (receiver g0)
                         [ReceiverStop (receiver g0); SrcStop src;
                          Log Info "remote track stopped"]) as Hin.
           assert (ReceiverStop (receiver g0) ∈
                     [ReceiverStop (receiver g0); SrcStop src;
                      Log Info "remote track stopped"]) as Hel
               by (apply elem_of_cons; by left).
           specialize (Hin Hel). lia.
      * rewrite Hrest in Hc by done.
        etrans; [|apply stops_of_mono]. by rewrite (HJ c g Hc).
Qed.

Lemma follows_ext m m' :
  trace m' = trace m → stopFns m' = stopFns m →
  camStop m' = camStop m → micStop m' = micStop m →
  sink_follows_slot m ∧ stopped_once m →
  sink_follows_slot m' ∧ stopped_once m'.
Proof.
  intros Ht Hf Hc Hm [HK HJ]. split.
  - intros src. rewrite Ht, Hf.
    replace (slot src m') with (slot src m) by (destruct src; simpl; congruence).
    apply HK.
  - intros a f. rewrite Ht, Hf. apply HJ.
Qed.

Lemma stopFns_fresh m : Inv None m → ∀ a, (next m ≤ a)%nat → stopFns m !! a = None.
Proof.
  intros HI a Ha. destruct (stopFns m !! a) as [g|] eqn:Hg; [|done].
  destruct (inv_fresh _ _ HI _ _ Hg). lia.
Qed.

(** The three invariants are kept by every step. *)
Lemma track_step_follows ParseRTC m s :
  Inv None m → sink_follows_slot m ∧ stopped_once m →
  ∃ m', track_step ParseRTC s m = Some (tt, m')
    ∧ Inv None m' ∧ sink_follows_slot m' ∧ stopped_once m'.
Proof.
  intros HI [HK HJ]. destruct s as [session track start_err|r data|r].
  - cbv [track_step fresh]; run_M. cbn beta iota.
    set (mr := set_next (S (next m)) m).
    assert (Inv None mr) as HIr by (apply Inv_set_next; [done|lia]).
    assert (sink_follows_slot mr ∧ stopped_once mr) as [HKr HJr]
        by (by apply (follows_ext m mr)).
    assert (∀ src, slot src mr = slot src m) as Hsr by (by intros []).
    destruct (OnTrack_begin_spec ParseRTC mr session track (next m) start_err)
      as (t & m1 & Hrun1 & HI1 & Hrd & Htask & Hacc); [done|simpl; lia|..].
    { intros b g Hg. destruct (inv_fresh _ _ HI b g Hg). lia. }
    { apply (inv_unseen _ _ HI). lia. }
    destruct (OnTrack_begin_frame ParseRTC mr session track (next m) start_err
                t m1) as [Facc Frej]; [done|simpl; lia|..|done|].
    { intros b g Hg. destruct (inv_fresh _ _ HI b g Hg). lia. }
    { apply (inv_unseen _ _ HI). lia. }
    rewrite Hrun1. cbn beta iota.
    destruct (Inv_park m1 (next m) t HI1 Htask)
      as (m' & Hpark & HI' & Ht' & Hfn' & Hcam & Hmic & Hn').
    exists m'. split; [done|]. split; [done|].
    apply (follows_ext m1 m'); try done.
    assert (stopFns mr !! next mr = None) as Hfree
        by (apply (stopFns_fresh mr HIr); lia).
    destruct (CanShareMedia session) eqn:Hshare;
      [destruct (ParseRTC (Codec track)) as [codec|] eqn:Hparse;
       [destruct (sink_of (Kind track)) as [src|] eqn:Hsink|]|].
    + destruct (Hacc codec src eq_refl eq_refl eq_refl) as (Hslot & Hnew & Htr).
      destruct (Facc codec src eq_refl eq_refl eq_refl) as (F1 & F2 & F3).
      by apply (follows_after_accept mr m1 (next mr) (next m) src codec start_err).
    + destruct Frej as ([reason Htr] & F1 & F2 & F3); [by right; right|].
      apply (follows_after_quiet mr m1 (next mr)
               [Log Info "received new remote track"; Log Warn reason;
                ReceiverStop (next m)]); try done.
      repeat constructor.
    + destruct Frej as ([reason Htr] & F1 & F2 & F3); [by right; left|].
      apply (follows_after_quiet mr m1 (next mr)
               [Log Info "received new remote track"; Log Warn reason;
                ReceiverStop (next m)]); try done.
      repeat constructor.
    + destruct Frej as ([reason Htr] & F1 & F2 & F3); [by left|].
      apply (follows_after_quiet mr m1 (next mr)
               [Log Info "received new remote track"; Log Warn reason;
                ReceiverStop (next m)]); try done.
      repeat constructor.
  - cbv [track_step]; run_M. cbn beta iota.
    destruct (readers m !! r) as [[a src]|] eqn:Hrd; [|by exists m].
    destruct (inv_reader _ _ HI r a src Hrd) as (f & Hf & Hr & Hsrc).
    destruct (OnTrack_read_spec m a f src r (Some data) HI Hf Hr Hsrc)
      as (t & m1 & Hrun1 & HI1 & Htask).
    rewrite Hrun1. cbn beta iota.
    destruct (Inv_park m1 r t HI1 Htask)
      as (m' & Hpark & HI' & Ht' & Hfn' & Hcam & Hmic & Hn').
    exists m'. split; [done|]. split; [done|].
    apply (follows_ext m1 m'); try done.
    revert Hrun1. cbv [OnTrack_read emit]; run_M. intros [= <- <-].
    apply (follows_after_quiet m _ (next m) [SrcPush src data]); try done.
    + apply (stopFns_fresh m HI). lia.
    + repeat constructor.
    + intros f'. change (stopFns m !! next m = Some f' → srcManager f' = None).
      rewrite (stopFns_fresh m HI (next m)) by lia. done.
  - cbv [track_step]; run_M. cbn beta iota.
    destruct (readers m !! r) as [[a src]|] eqn:Hrd; [|by exists m].
    destruct (inv_reader _ _ HI r a src Hrd) as (f & Hf & Hr & Hsrc).
    destruct (OnTrack_read_spec m a f src r None HI Hf Hr Hsrc)
      as (t & m1 & Hrun1 & HI1 & Htask).
    rewrite Hrun1. cbn beta iota.
    destruct (Inv_park m1 r t HI1 Htask)
      as (m' & Hpark & HI' & Ht' & Hfn' & Hcam & Hmic & Hn').
    exists m'. split; [done|]. split; [done|].
    apply (follows_ext m1 m'); try done.
    revert Hrun1. cbv [OnTrack_read emit]; run_M. cbn beta iota.
    set (m3 := record (TickerStop r)
                 (record (Log Info "remote track data finished")
                    (record (Log Warn "failed read from remote track") m))).
    assert (Inv None m3) as HI3 by (by repeat apply Inv_record).
    destruct (stopFn_spec None m3 a f src HI3 Hf Hsrc)
      as (m4 & Hrun4 & HI4 & Hfns4 & Htr4 & _ & Hcam4 & Hmic4 & _).
    rewrite Hrun4. intros [= <- <-].
    apply (follows_after_stop m m4 a f src
             [Log Warn "failed read from remote track";
              Log Info "remote track data finished"; TickerStop r]); try done.
    + repeat constructor.
    + rewrite Htr4. unfold m3. state'. by rewrite <- !app_assoc.
    + intros src'. destruct src'; [exact Hmic4|exact Hcam4].
Qed.

Lemma track_run_follows ParseRTC ss m :
  Inv None m → sink_follows_slot m ∧ stopped_once m →
  ∃ m', track_run ParseRTC ss m = Some (tt, m')
    ∧ Inv None m' ∧ sink_follows_slot m' ∧ stopped_once m'.
Proof.
  revert m. induction ss as [|s ss IH]; intros m HI HKJ.
  - by exists m.
  - destruct (track_step_follows ParseRTC m s HI HKJ) as (m1 & Hstep & HI1 & HKJ1).
    destruct (IH m1 HI1 HKJ1) as (m' & Hrun & HI').
    exists m'. split; [|done]. simpl. unfold mbind, M_bind.
    by rewrite Hstep.
Qed.

Lemma follows_New e : sink_follows_slot (New e) ∧ stopped_once (New e).
Proof.
  split.
  - intros src. split; [done|]. intros (a & f & Hslot & _). by destruct src.
  - intros a f Hf. change ((∅ : gmap nat StopFn) !! a = Some f) in Hf.
    by rewrite lookup_empty in Hf.
Qed.

(** A failing read of the track read by receiver [r]. *)
Lemma TrackFails_spec ParseRTC m r a src f :
  Inv None m → readers m !! r = Some (a, src) → stopFns m !! a = Some f →
  srcManager f = Some src →
  ∃ m', track_step ParseRTC (TrackFails r) m = Some (tt, m')
    ∧ stopFns m' = <[a := {| stopped := true; receiver := receiver f;
                             srcManager := Some src |}]> (stopFns m)
    ∧ readers m' = delete r (readers m)
    ∧ camStop m' = camStop m ∧ micStop m' = micStop m
    ∧ trace m' = trace m ++
        [Log Warn "failed read from remote track";
         Log Info "remote track data finished"; TickerStop r] ++
        eviction src (Some f).
Proof.
  intros HI Hrd Hf Hsrc. cbv [track_step]; run_M. cbn beta iota.
  rewrite Hrd. cbn beta iota. cbv [OnTrack_read emit]; run_M. cbn beta iota.
  set (m3 := record (TickerStop r)
               (record (Log Info "remote track data finished")
                  (record (Log Warn "failed read from remote track") m))).
  assert (Inv None m3) as HI3 by (by repeat apply Inv_record).
  destruct (stopFn_spec None m3 a f src HI3 Hf Hsrc)
    as (m4 & Hrun4 & HI4 & Hfns4 & Htr4 & _ & Hcam4 & Hmic4 & Hrd4 & _).
  rewrite Hrun4. cbn beta iota. cbv [park]; run_M.
  eexists. split; [reflexivity|]. state'.
  split; [exact Hfns4|]. split; [by rewrite Hrd4|].
  split; [exact Hcam4|]. split; [exact Hmic4|].
  rewrite Htr4. unfold m3. state'. by rewrite <- !app_assoc.
Qed.

(** X17. After any sequence of remote tracks arriving, delivering data
    and failing, a sink is running - the last [Start] or [Stop] call on
    its manager is a [Start] - exactly when it has an occupant, a track
    bound to it whose stop function has not run. *)
Theorem sink_runs_while_occupied
    (ParseRTC : RTPCodecParameters → option RTPCodec) (e : Env)
    (ss : list TrackStep) :
  ∃ m, track_run ParseRTC ss (New e) = Some (tt, m)
    ∧ ∀ src, sink_on src (trace m) = true ↔ occupants src m ≠ ∅.
Proof.
  destruct (track_run_follows ParseRTC ss (New e) (Inv_New e) (follows_New e))
    as (m & Hrun & HI & HK & _).
  exists m. split; [done|]. intros src. rewrite (HK src). split.
  - intros (a & f & Hslot & Hf & Hst) Hempty.
    destruct (inv_slot _ _ HI src a Hslot) as (g & Hg & Hsrc).
    assert (occupants src m !! a = Some f) as Hocc.
    { apply map_lookup_filter_Some. split; [done|]. split; simpl; congruence. }
    by rewrite Hempty, lookup_empty in Hocc.
  - intros (a & f & Hocc)%map_choose.
    destruct (occupants_slot m src a f HI Hocc) as (Hslot & Hf & _).
    apply map_lookup_filter_Some in Hocc as [_ [_ Hst]].
    by exists a, f.
Qed.

(** X18. In a state reached by phases of the handlers that do not
    overlap (each [OnTrack] phase taken as atomic, as [track_run] runs
    them), when the read of a track fails and its handler ends in one
    piece, the deferred stop function runs: afterwards the track's
    receiver has been stopped exactly once and the track is read no more.
    If the track still occupied its sink, the sink is stopped; if it had
    been evicted by a later track, its stop function does nothing, and
    the sink and its occupant stay as they are. *)
Theorem failed_read_stops_receiver_once
    (ParseRTC : RTPCodecParameters → option RTPCodec) (e : Env)
    (ss : list TrackStep) (m : WebRTCManagerCtx) (r a : nat) (src : StreamSrc) :
  track_run ParseRTC ss (New e) = Some (tt, m) →
  readers m !! r = Some (a, src) →
  ∃ m', track_step ParseRTC (TrackFails r) m = Some (tt, m')
    ∧ stops_of r (trace m') = 1%nat
    ∧ readers m' !! r = None
    ∧ (is_Some (occupants src m !! a) →
         sink_on src (trace m') = false ∧ occupants src m' = ∅)
    ∧ (occupants src m !! a = None →
         sink_on src (trace m') = sink_on src (trace m)
         ∧ occupants src m' = occupants src m).
Proof.
  intros Hrun Hrd.
  destruct (track_run_follows ParseRTC ss (New e) (Inv_New e) (follows_New e))
    as (m0 & Hrun0 & HI & HK & HJ).
  rewrite Hrun in Hrun0. injection Hrun0 as <-.
  destruct (inv_reader _ _ HI r a src Hrd) as (f & Hf & Hr & Hsrc).
  destruct (TrackFails_spec ParseRTC m r a src f HI Hrd Hf Hsrc)
    as (m' & Hstep & Hfns & Hrds & Hcam & Hmic & Htr).
  destruct (track_step_follows ParseRTC m (TrackFails r) HI (conj HK HJ))
    as (m1 & Hstep1 & HI' & HK' & HJ').
  rewrite Hstep in Hstep1. injection Hstep1 as <-.
  exists m'. split; [done|].
  split.
  { rewrite <- Hr.
    apply (HJ' a {| stopped := true; receiver := receiver f;
                    srcManager := Some src |}); [|by eexists|done].
    by rewrite Hfns, lookup_insert_eq. }
  split; [by rewrite Hrds, lookup_delete_eq|].
  assert (Forall silent [Log Warn "failed read from remote track";
                         Log Info "remote track data finished"; TickerStop r])
    as Hsilent by (repeat constructor).
  split.
  - intros [g [Hg [_ Hst]]%map_lookup_filter_Some]. simpl in Hst.
    assert (g = f) as -> by congruence.
    split.
    + rewrite Htr, app_assoc, sink_on_app. unfold eviction. rewrite Hst.
      simpl. by rewrite decide_True.
    + apply map_eq. intros c. rewrite lookup_empty.
      destruct (occupants src m' !! c) as [h|] eqn:Hc; [|done].
      destruct (occupants_slot m' src c h HI' Hc) as (Hslot' & Hh & _).
      apply map_lookup_filter_Some in Hc as [_ [Hsrch Hsth]]. simpl in *.
      assert (slot src m' = slot src m) as Hsl by (destruct src; simpl; congruence).
      rewrite Hsl in Hslot'.
      destruct (decide (c = a)) as [->|Hca].
      * rewrite Hfns, lookup_insert_eq in Hh. injection Hh as <-. done.
      * rewrite Hfns, lookup_insert_ne in Hh by done.
        destruct (inv_occ _ _ HI src a f Hf Hsrc Hst) as [Hsa|?]; [|done].
        congruence.
  - intros Hnone.
    assert (stopped f = true) as Hst.
    { destruct (stopped f) eqn:Hst; [done|].
      assert (occupants src m !! a = Some f) as Hocc; [|congruence].
      apply map_lookup_filter_Some. by split. }
    assert (stopFns m' = stopFns m) as Hsame.
    { rewrite Hfns. apply insert_id. rewrite Hf. f_equal.
      destruct f; simpl in *; congruence. }
    split.
    + rewrite Htr. unfold eviction. rewrite Hst, app_nil_r.
      apply sink_on_silent, Hsilent.
    + unfold occupants. by rewrite Hsame.
Qed.

Lemma failed_read_stops_receiver_once_witness :
  ∃ m m',
    track_run example_ParseRTC [TrackArrives host opus_track None]
      (New example_env) = Some (tt, m)
    ∧ readers m !! 0%nat = Some (1%nat, Microphone)
    ∧ track_step example_ParseRTC (TrackFails 0) m = Some (tt, m')
    ∧ stops_of 0 (trace m') = 1%nat
    ∧ readers m' !! 0%nat = None.
Proof.
  destruct (track_run example_ParseRTC [TrackArrives host opus_track None]
              (New example_env)) as [[[] m]|] eqn:Hrun; [|by vm_compute in Hrun].
  assert (readers m !! 0%nat = Some (1%nat, Microphone)) as Hrd.
  { vm_compute in Hrun. injection Hrun as <-. reflexivity. }
  destruct (failed_read_stops_receiver_once example_ParseRTC example_env
              [TrackArrives host opus_track None] m 0 1 Microphone Hrun Hrd)
    as (m' & Hstep & Hstops & Hgone & _).
  exists m, m'. split; [reflexivity|]. split; [exact Hrd|].
  split; [exact Hstep|]. split; [exact Hstops|exact Hgone].
Defined.

End webrtc_more.

(** ** Starting the peer-connection manager *)
Section mux_facts.
Import mux.

(** X16. [Start] listens on TCP exactly if the TCP mux port is positive and
    on UDP exactly if the UDP mux port is positive, TCP first, each on its
    port; a port of zero or below leaves that multiplexer nil.  It returns
    exactly if none of the listeners it tried failed; a failing listener
    makes it panic, and after a failing TCP listener it never tries UDP. *)
Theorem Start_listens_on_positive_ports (config : Config)
    (tcp_err udp_err : option string) :
  (Start config tcp_err udp_err New = None
   ↔ (TCPMux config > 0 ∧ is_Some tcp_err)
     ∨ (UDPMux config > 0 ∧ is_Some udp_err))
  ∧ ∀ m', Start config tcp_err udp_err New = Some (tt, m') →
      tcpMux m' = (if decide (TCPMux config > 0) then Some (TCPMux config) else None)
      ∧ udpMux m' = (if decide (UDPMux config > 0) then Some (UDPMux config) else None)
      ∧ trace m' =
          [CurImageStart] ++
          (if decide (TCPMux config > 0) then [ListenTCP (TCPMux config)] else []) ++
          (if decide (UDPMux config > 0) then [ListenUDP (UDPMux config)] else []) ++
          [Log Info "webrtc starting"].
Proof.
  unfold Start, emit, New. run_M. simpl.
  destruct (decide (TCPMux config > 0)) as [Ht|Ht],
           (decide (UDPMux config > 0)) as [Hu|Hu];
    rewrite ?(bool_decide_eq_true_2 _ Ht), ?(bool_decide_eq_false_2 _ Ht),
            ?(bool_decide_eq_true_2 _ Hu), ?(bool_decide_eq_false_2 _ Hu);
    destruct tcp_err as [te|], udp_err as [ue|]; simpl;
    (split; [split; [try done; intros _|
                     try done; intros [[? [? [=]]]|[? [? [=]]]]; try done; lia]
            | try done; intros m' [= <-]; done]);
    try (left; split; [done|by eexists]);
    try (right; split; [done|by eexists]).
Qed.

End mux_facts.
